(** * CloudBot plugin manager: registry indices and dispatch pipeline

    A shallow embedding of [cloudbot/plugin_manager.py] (class
    [PluginManager]) and the properties of its hook registry, its dispatch
    pipeline and its per-hook serialization queue. *)

From stdpp Require Import gmap strings list fin_maps sorting.

Local Open Scope Z_scope.

(** ** Python list primitives used by the registry *)

Section py_list.
Context {A : Type} `{EqDecision A}.

(** [lst.remove(x)]: drops the first element equal to [x]; [None] stands
    for the [ValueError] raised when there is none. *)
Fixpoint list_remove (x : A) (l : list A) : option (list A) :=
  match l with
  | [] => None
  | y :: l' =>
      if decide (x = y) then Some l' else (y ::.) <$> list_remove x l'
  end.

Variable key : A → Z.

Definition key_le (a b : A) : Prop := key a ≤ key b.

(** [lst.sort(key=...)] is a stable sort: the result is the one
    permutation of [lst] that is ascending in [key] and keeps elements of
    equal key in their original order.  Insertion from the right, placing
    an element in front of the first one whose key is not smaller,
    computes that permutation. *)
Fixpoint insert_by (x : A) (l : list A) : list A :=
  match l with
  | [] => [x]
  | y :: l' =>
      if decide (key x ≤ key y) then x :: y :: l' else y :: insert_by x l'
  end.

Definition sort_by (l : list A) : list A := foldr insert_by [] l.

Definition sorted_by (l : list A) : Prop := StronglySorted key_le l.
End py_list.

(** ** Data model *)

(** What awaiting a task gives: a value, or an exception. *)
Inductive outcome (A : Type) := returned (a : A) | raised (exc : string).
Arguments returned {A} a.
Arguments raised {A} exc.

Inductive exn := ValueError | KeyError | AssertionError.

(** A hook object.  Python compares hooks by identity ([list.remove],
    [self.commands[alias] == command_hook]); [uid] is that identity, so two
    records stand for the same object exactly when they are equal.
    [plugin_title] is [hook.plugin.title]; [catch_all] is what
    [raw_hook.is_catch_all()] answers.  The trigger fields are those of the
    hook subclasses (command, raw, event, regex, capability, permission). *)
Record Hook := {
  uid : positive;
  type : string;
  plugin_title : string;
  function_name : string;
  priority : Z;
  threaded : bool;
  single_thread : bool;
  aliases : list string;
  triggers : list string;
  catch_all : bool;
  types : list nat;
  regexes : list string;
  caps : list string;
  perms : list string
}.

Global Instance Hook_eq_dec : EqDecision Hook.
Proof. solve_decision. Defined.

(** A task recorded in [plugin.tasks] across calls: the periodic loops. *)
Inductive task := periodic_task (h : Hook).

(** [Plugin(file_path, file_name, title, module)]; [hooks] is the
    [defaultdict(list)] from hook type to the hooks found in the module. *)
Record Plugin := {
  file_path : string;
  file_name : string;
  title : string;
  hooks : gmap string (list Hook);
  tasks : list task
}.

(** Values a hook function can hand back, as far as the manager tells them
    apart ([res is False] in the post-hook loops, [event is None] after a
    sieve), and the events: [Event(bot=..., hook=...)] (or an event supplied
    by the caller) and [PostHookEvent(launched_hook=..., launched_event=...,
    result=..., error=..., hook=...)]. *)
Inductive pyval :=
| PyNone
| PyBool (b : bool)
| PyStr (s : string)
| PyEvent (e : Event)
with Event :=
| mk_Event (hook : option Hook) (content : string)
| PostHookEvent (launched_hook : Hook) (launched_event : Event)
    (result : pyval) (error : option string) (hook : Hook).

(** The relevant part of [bot.config]. *)
Record PluginLoading := {
  use_whitelist : bool;
  whitelist : list string;
  blacklist : list string
}.

Record Config := {
  plugin_loading : option PluginLoading;
  show_plugin_loading : bool
}.

(** What the manager does to its collaborators (storage, logger, scheduler,
    hook functions), in order. *)
Inductive effect :=
| create_tables (plugin : string)
| unregister_tables (plugin : string)
| log_not_loading (plugin : string)
| log_import_error (plugin : string)
| log_on_start_errored (plugin : string)
| log_conflict (plugin alias owner : string)
| log_loaded (h : Hook)
| log_unloaded (plugin : string)
| log_cancelled (n : nat) (plugin : string)
| start_periodic (h : Hook)
| cancel (t : task)
| run_sieve (in_executor : bool) (sieve : Hook) (ev : Event) (h : Hook)
    (out : outcome (option Event))
| run_hook (in_executor : bool) (h : Hook) (ev : Event) (out : outcome pyval).

(** The fields of [PluginManager.__init__].  [cap_hooks] is the two-entry
    dict ["on_available"], ["on_ack"]; a value of [_hook_waiting_queues] is
    [None] (running, no queue yet) or the futures waiting in an
    [asyncio.Queue], head first. *)
Record PluginManager := {
  plugins : gmap string Plugin;
  _plugin_name_map : gmap string Plugin;
  commands : gmap string Hook;
  raw_triggers : gmap string (list Hook);
  catch_all_triggers : list Hook;
  event_type_hooks : gmap nat (list Hook);
  regex_hooks : list (string * Hook);
  sieves : list Hook;
  cap_hooks_on_available : gmap string (list Hook);
  cap_hooks_on_ack : gmap string (list Hook);
  connect_hooks : list Hook;
  out_sieves : list Hook;
  hook_hooks : gmap string (list Hook);
  perm_hooks : gmap string (list Hook);
  _hook_waiting_queues : gmap (string * string) (option (list positive))
}.

Definition PluginManager_init : PluginManager :=
  {| plugins := ∅; _plugin_name_map := ∅; commands := ∅; raw_triggers := ∅;
     catch_all_triggers := []; event_type_hooks := ∅; regex_hooks := [];
     sieves := []; cap_hooks_on_available := ∅; cap_hooks_on_ack := ∅;
     connect_hooks := []; out_sieves := []; hook_hooks := ∅; perm_hooks := ∅;
     _hook_waiting_queues := ∅ |}.

(** Assignment to one field of the manager. *)
Definition set_plugins (v : gmap string Plugin) (pm : PluginManager) : PluginManager :=
  {| plugins := v; _plugin_name_map := _plugin_name_map pm;
     commands := commands pm; raw_triggers := raw_triggers pm;
     catch_all_triggers := catch_all_triggers pm;
     event_type_hooks := event_type_hooks pm; regex_hooks := regex_hooks pm;
     sieves := sieves pm;
     cap_hooks_on_available := cap_hooks_on_available pm;
     cap_hooks_on_ack := cap_hooks_on_ack pm;
     connect_hooks := connect_hooks pm; out_sieves := out_sieves pm;
     hook_hooks := hook_hooks pm; perm_hooks := perm_hooks pm;
     _hook_waiting_queues := _hook_waiting_queues pm |}.
Definition set_plugin_name_map (v : gmap string Plugin) (pm : PluginManager) : PluginManager :=
  {| plugins := plugins pm; _plugin_name_map := v; commands := commands pm;
     raw_triggers := raw_triggers pm;
     catch_all_triggers := catch_all_triggers pm;
     event_type_hooks := event_type_hooks pm; regex_hooks := regex_hooks pm;
     sieves := sieves pm;
     cap_hooks_on_available := cap_hooks_on_available pm;
     cap_hooks_on_ack := cap_hooks_on_ack pm;
     connect_hooks := connect_hooks pm; out_sieves := out_sieves pm;
     hook_hooks := hook_hooks pm; perm_hooks := perm_hooks pm;
     _hook_waiting_queues := _hook_waiting_queues pm |}.
Definition set_commands (v : gmap string Hook) (pm : PluginManager) : PluginManager :=
  {| plugins := plugins pm; _plugin_name_map := _plugin_name_map pm;
     commands := v; raw_triggers := raw_triggers pm;
     catch_all_triggers := catch_all_triggers pm;
     event_type_hooks := event_type_hooks pm; regex_hooks := regex_hooks pm;
     sieves := sieves pm;
     cap_hooks_on_available := cap_hooks_on_available pm;
     cap_hooks_on_ack := cap_hooks_on_ack pm;
     connect_hooks := connect_hooks pm; out_sieves := out_sieves pm;
     hook_hooks := hook_hooks pm; perm_hooks := perm_hooks pm;
     _hook_waiting_queues := _hook_waiting_queues pm |}.
Definition set_raw_triggers (v : gmap string (list Hook)) (pm : PluginManager) : PluginManager :=
  {| plugins := plugins pm; _plugin_name_map := _plugin_name_map pm;
     commands := commands pm; raw_triggers := v;
     catch_all_triggers := catch_all_triggers pm;
     event_type_hooks := event_type_hooks pm; regex_hooks := regex_hooks pm;
     sieves := sieves pm;
     cap_hooks_on_available := cap_hooks_on_available pm;
     cap_hooks_on_ack := cap_hooks_on_ack pm;
     connect_hooks := connect_hooks pm; out_sieves := out_sieves pm;
     hook_hooks := hook_hooks pm; perm_hooks := perm_hooks pm;
     _hook_waiting_queues := _hook_waiting_queues pm |}.
Definition set_catch_all_triggers (v : list Hook) (pm : PluginManager) : PluginManager :=
  {| plugins := plugins pm; _plugin_name_map := _plugin_name_map pm;
     commands := commands pm; raw_triggers := raw_triggers pm;
     catch_all_triggers := v; event_type_hooks := event_type_hooks pm;
     regex_hooks := regex_hooks pm; sieves := sieves pm;
     cap_hooks_on_available := cap_hooks_on_available pm;
     cap_hooks_on_ack := cap_hooks_on_ack pm;
     connect_hooks := connect_hooks pm; out_sieves := out_sieves pm;
     hook_hooks := hook_hooks pm; perm_hooks := perm_hooks pm;
     _hook_waiting_queues := _hook_waiting_queues pm |}.
Definition set_event_type_hooks (v : gmap nat (list Hook)) (pm : PluginManager) : PluginManager :=
  {| plugins := plugins pm; _plugin_name_map := _plugin_name_map pm;
     commands := commands pm; raw_triggers := raw_triggers pm;
     catch_all_triggers := catch_all_triggers pm; event_type_hooks := v;
     regex_hooks := regex_hooks pm; sieves := sieves pm;
     cap_hooks_on_available := cap_hooks_on_available pm;
     cap_hooks_on_ack := cap_hooks_on_ack pm;
     connect_hooks := connect_hooks pm; out_sieves := out_sieves pm;
     hook_hooks := hook_hooks pm; perm_hooks := perm_hooks pm;
     _hook_waiting_queues := _hook_waiting_queues pm |}.
Definition set_regex_hooks (v : list (string * Hook)) (pm : PluginManager) : PluginManager :=
  {| plugins := plugins pm; _plugin_name_map := _plugin_name_map pm;
     commands := commands pm; raw_triggers := raw_triggers pm;
     catch_all_triggers := catch_all_triggers pm;
     event_type_hooks := event_type_hooks pm; regex_hooks := v;
     sieves := sieves pm;
     cap_hooks_on_available := cap_hooks_on_available pm;
     cap_hooks_on_ack := cap_hooks_on_ack pm;
     connect_hooks := connect_hooks pm; out_sieves := out_sieves pm;
     hook_hooks := hook_hooks pm; perm_hooks := perm_hooks pm;
     _hook_waiting_queues := _hook_waiting_queues pm |}.
Definition set_sieves (v : list Hook) (pm : PluginManager) : PluginManager :=
  {| plugins := plugins pm; _plugin_name_map := _plugin_name_map pm;
     commands := commands pm; raw_triggers := raw_triggers pm;
     catch_all_triggers := catch_all_triggers pm;
     event_type_hooks := event_type_hooks pm; regex_hooks := regex_hooks pm;
     sieves := v; cap_hooks_on_available := cap_hooks_on_available pm;
     cap_hooks_on_ack := cap_hooks_on_ack pm;
     connect_hooks := connect_hooks pm; out_sieves := out_sieves pm;
     hook_hooks := hook_hooks pm; perm_hooks := perm_hooks pm;
     _hook_waiting_queues := _hook_waiting_queues pm |}.
Definition set_cap_hooks_on_available (v : gmap string (list Hook)) (pm : PluginManager) : PluginManager :=
  {| plugins := plugins pm; _plugin_name_map := _plugin_name_map pm;
     commands := commands pm; raw_triggers := raw_triggers pm;
     catch_all_triggers := catch_all_triggers pm;
     event_type_hooks := event_type_hooks pm; regex_hooks := regex_hooks pm;
     sieves := sieves pm; cap_hooks_on_available := v;
     cap_hooks_on_ack := cap_hooks_on_ack pm;
     connect_hooks := connect_hooks pm; out_sieves := out_sieves pm;
     hook_hooks := hook_hooks pm; perm_hooks := perm_hooks pm;
     _hook_waiting_queues := _hook_waiting_queues pm |}.
Definition set_cap_hooks_on_ack (v : gmap string (list Hook)) (pm : PluginManager) : PluginManager :=
  {| plugins := plugins pm; _plugin_name_map := _plugin_name_map pm;
     commands := commands pm; raw_triggers := raw_triggers pm;
     catch_all_triggers := catch_all_triggers pm;
     event_type_hooks := event_type_hooks pm; regex_hooks := regex_hooks pm;
     sieves := sieves pm;
     cap_hooks_on_available := cap_hooks_on_available pm;
     cap_hooks_on_ack := v; connect_hooks := connect_hooks pm;
     out_sieves := out_sieves pm; hook_hooks := hook_hooks pm;
     perm_hooks := perm_hooks pm;
     _hook_waiting_queues := _hook_waiting_queues pm |}.
Definition set_connect_hooks (v : list Hook) (pm : PluginManager) : PluginManager :=
  {| plugins := plugins pm; _plugin_name_map := _plugin_name_map pm;
     commands := commands pm; raw_triggers := raw_triggers pm;
     catch_all_triggers := catch_all_triggers pm;
     event_type_hooks := event_type_hooks pm; regex_hooks := regex_hooks pm;
     sieves := sieves pm;
     cap_hooks_on_available := cap_hooks_on_available pm;
     cap_hooks_on_ack := cap_hooks_on_ack pm; connect_hooks := v;
     out_sieves := out_sieves pm; hook_hooks := hook_hooks pm;
     perm_hooks := perm_hooks pm;
     _hook_waiting_queues := _hook_waiting_queues pm |}.
Definition set_out_sieves (v : list Hook) (pm : PluginManager) : PluginManager :=
  {| plugins := plugins pm; _plugin_name_map := _plugin_name_map pm;
     commands := commands pm; raw_triggers := raw_triggers pm;
     catch_all_triggers := catch_all_triggers pm;
     event_type_hooks := event_type_hooks pm; regex_hooks := regex_hooks pm;
     sieves := sieves pm;
     cap_hooks_on_available := cap_hooks_on_available pm;
     cap_hooks_on_ack := cap_hooks_on_ack pm;
     connect_hooks := connect_hooks pm; out_sieves := v;
     hook_hooks := hook_hooks pm; perm_hooks := perm_hooks pm;
     _hook_waiting_queues := _hook_waiting_queues pm |}.
Definition set_hook_hooks (v : gmap string (list Hook)) (pm : PluginManager) : PluginManager :=
  {| plugins := plugins pm; _plugin_name_map := _plugin_name_map pm;
     commands := commands pm; raw_triggers := raw_triggers pm;
     catch_all_triggers := catch_all_triggers pm;
     event_type_hooks := event_type_hooks pm; regex_hooks := regex_hooks pm;
     sieves := sieves pm;
     cap_hooks_on_available := cap_hooks_on_available pm;
     cap_hooks_on_ack := cap_hooks_on_ack pm;
     connect_hooks := connect_hooks pm; out_sieves := out_sieves pm;
     hook_hooks := v; perm_hooks := perm_hooks pm;
     _hook_waiting_queues := _hook_waiting_queues pm |}.
Definition set_perm_hooks (v : gmap string (list Hook)) (pm : PluginManager) : PluginManager :=
  {| plugins := plugins pm; _plugin_name_map := _plugin_name_map pm;
     commands := commands pm; raw_triggers := raw_triggers pm;
     catch_all_triggers := catch_all_triggers pm;
     event_type_hooks := event_type_hooks pm; regex_hooks := regex_hooks pm;
     sieves := sieves pm;
     cap_hooks_on_available := cap_hooks_on_available pm;
     cap_hooks_on_ack := cap_hooks_on_ack pm;
     connect_hooks := connect_hooks pm; out_sieves := out_sieves pm;
     hook_hooks := hook_hooks pm; perm_hooks := v;
     _hook_waiting_queues := _hook_waiting_queues pm |}.
Definition set_hook_waiting_queues (v : gmap (string * string) (option (list positive))) (pm : PluginManager) : PluginManager :=
  {| plugins := plugins pm; _plugin_name_map := _plugin_name_map pm;
     commands := commands pm; raw_triggers := raw_triggers pm;
     catch_all_triggers := catch_all_triggers pm;
     event_type_hooks := event_type_hooks pm; regex_hooks := regex_hooks pm;
     sieves := sieves pm;
     cap_hooks_on_available := cap_hooks_on_available pm;
     cap_hooks_on_ack := cap_hooks_on_ack pm;
     connect_hooks := connect_hooks pm; out_sieves := out_sieves pm;
     hook_hooks := hook_hooks pm; perm_hooks := perm_hooks pm;
     _hook_waiting_queues := v |}.

(** The running bot: the manager, the state the hook functions act on, the
    collaborator calls made so far, and the supply of fresh futures. *)
Record State (World : Type) := {
  mgr : PluginManager;
  world : World;
  trace : list effect;
  next_future : positive
}.
Arguments mgr {World} s.
Arguments world {World} s.
Arguments trace {World} s.
Arguments next_future {World} s.

(** A coroutine of the manager run from a state: it returns, raises, or is
    left suspended on a future that only another task can resolve. *)
Inductive Res (S A : Type) :=
| Ok (a : A) (s : S)
| Raise (e : exn) (s : S)
| Await (future : positive) (s : S).
Arguments Ok {S A} a s.
Arguments Raise {S A} e s.
Arguments Await {S A} future s.

Definition M (World A : Type) : Type := State World → Res (State World) A.

Global Instance M_ret {World} : MRet (M World) := λ A a s, Ok a s.
Global Instance M_bind {World} : MBind (M World) := λ A B f m s,
  match m s with
  | Ok a s' => f a s'
  | Raise e s' => Raise e s'
  | Await fut s' => Await fut s'
  end.

(** ** Dict helpers *)

Section dicts.
Context {K : Type} `{Countable K} {V : Type} `{EqDecision V}.
Implicit Types m : gmap K (list V).

(** [d[k].append(v)] on a [defaultdict(list)]. *)
Definition defaultdict_append (k : K) (v : V) m : gmap K (list V) :=
  <[k := m !!! k ++ [v]]> m.

(** [if k in d: d[k].append(v) else: d[k] = [v]] on a plain dict. *)
Definition dict_append (k : K) (v : V) m : gmap K (list V) :=
  match m !! k with
  | Some l => <[k := l ++ [v]]> m
  | None => <[k := [v]]> m
  end.

(** Reading [d[k]] on a [defaultdict(list)] creates a missing entry. *)
Definition defaultdict_touch (k : K) m : gmap K (list V) :=
  match m !! k with
  | Some _ => m
  | None => <[k := []]> m
  end.

(** [d[k].remove(v)] on a [defaultdict(list)]. *)
Definition defaultdict_remove (k : K) (v : V) m : option (gmap K (list V)) :=
  l ← list_remove v (m !!! k); Some (<[k := l]> m).

(** [d[k].remove(v); if not d[k]: del d[k]]; with [asserted] the entry
    must exist ([assert k in d]), without it [d] is a defaultdict. *)
Definition dict_remove_del (asserted : bool) (k : K) (v : V) m
  : exn + gmap K (list V) :=
  if asserted && bool_decide (m !! k = None) then inl AssertionError
  else match list_remove v (m !!! k) with
       | None => inl ValueError
       | Some [] => inr (delete k m)
       | Some l => inr (<[k := l]> m)
       end.
End dicts.

(** ** The dispatch pipeline *)

Section manager.
Context {World : Type}.

(** What calling [hook.function] does: to the world, and for the caller.
    [sieve_function sieve event hook] is [sieve.function(bot, event, hook)]. *)
Variable hook_function : Hook → Event → World → outcome pyval * World.
Variable sieve_function :
  Hook → Event → Hook → World → outcome (option Event) * World.
(** [str.casefold]. *)
Variable casefold : string → string.
Variable config : Config.

Abbreviation St := (State World).

Definition emit (e : effect) (s : St) : St :=
  {| mgr := mgr s; world := world s; trace := trace s ++ [e];
     next_future := next_future s |}.

Definition emits (es : list effect) (s : St) : St :=
  {| mgr := mgr s; world := world s; trace := trace s ++ es;
     next_future := next_future s |}.

Definition set_world (w : World) (s : St) : St :=
  {| mgr := mgr s; world := w; trace := trace s;
     next_future := next_future s |}.

Definition upd_mgr (f : PluginManager → PluginManager) (s : St) : St :=
  {| mgr := f (mgr s); world := world s; trace := trace s;
     next_future := next_future s |}.

(** [internal_launch]: runs the hook function in the executor or as a
    coroutine, by [hook.threaded].  The pair [(ok, out)] is the outcome:
    [returned v] for [(True, v)], [raised e] for [(False, exc_info)].  The
    task is appended to and removed from [hook.plugin.tasks] around the
    await, which leaves that list as it was. *)
Definition internal_launch (hook : Hook) (event : Event) (s : St)
  : outcome pyval * St :=
  let '(out, w) := hook_function hook event (world s) in
  (out, emit (run_hook (threaded hook) hook event out) (set_world w s)).

(** [for post_hook in self.hook_hooks["post"]: ...; if success and res is
    False: break], over the list read when the loop starts. *)
Fixpoint post_loop (post_event : Hook → Event) (l : list Hook) (s : St) : St :=
  match l with
  | [] => s
  | post_hook :: l' =>
      let '(out, s') := internal_launch post_hook (post_event post_hook) s in
      match out with
      | returned (PyBool false) => s'
      | _ => post_loop post_event l' s'
      end
  end.

Definition run_post_hooks (post_event : Hook → Event) (s : St) : St :=
  let s' := upd_mgr (λ pm,
    set_hook_hooks (defaultdict_touch "post"%string (hook_hooks pm)) pm) s in
  post_loop post_event (hook_hooks (mgr s') !!! "post"%string) s'.

Definition _execute_hook (hook : Hook) (event : Event) (s : St) : bool * St :=
  let '(out, s1) := internal_launch hook event s in
  let '(ok, result, error) :=
    match out with
    | returned v => (true, v, None)
    | raised e => (false, PyNone, Some e)
    end in
  (ok, run_post_hooks (PostHookEvent hook event result error) s1).

Definition _sieve (sieve : Hook) (event : Event) (hook : Hook) (s : St)
  : option Event * St :=
  let '(out, w) := sieve_function sieve event hook (world s) in
  let s1 := emit (run_sieve (threaded sieve) sieve event hook out) (set_world w s) in
  let '(result, error) :=
    match out with
    | returned r => (r, None)
    | raised e => (None, Some e)
    end in
  let sent := match result with
              | Some e => PyEvent e
              | None => PyNone
              end in
  (result, run_post_hooks (PostHookEvent sieve event sent error) s1).

(** [for sieve in self.sieves: event = await self._sieve(sieve, event,
    hook); if event is None: return False]. *)
Fixpoint sieve_loop (l : list Hook) (event : Event) (hook : Hook) (s : St)
  : option Event * St :=
  match l with
  | [] => (Some event, s)
  | sieve :: l' =>
      match _sieve sieve event hook s with
      | (None, s') => (None, s')
      | (Some event', s') => sieve_loop l' event' hook s'
      end
  end.

Definition set_queues
    (q : gmap (string * string) (option (list positive))) (s : St) : St :=
  upd_mgr (set_hook_waiting_queues q) s.

(** Lines 526-542 of [launch]: admission of a [single_thread] hook.
    [Ok] means the caller goes on at once; [Await] leaves it suspended on
    the future it has just put in the queue. *)
Definition acquire (key : string * string) : M World () := λ s,
  match _hook_waiting_queues (mgr s) !! key with
  | Some queue =>
      let waiting := default [] queue in
      let future := next_future s in
      Await future
        {| mgr := set_hook_waiting_queues
             (<[key := Some (waiting ++ [future])]> (_hook_waiting_queues (mgr s)))
             (mgr s);
           world := world s; trace := trace s;
           next_future := Pos.succ future |}
  | None =>
      Ok () (set_queues (<[key := None]> (_hook_waiting_queues (mgr s))) s)
  end.

(** Lines 547-554: the hook has run; delete the entry, or hand over to the
    head waiter, whose future is returned. *)
Definition release (key : string * string) : M World (option positive) := λ s,
  match _hook_waiting_queues (mgr s) !! key with
  | None => Raise KeyError s
  | Some None | Some (Some []) =>
      Ok None (set_queues (delete key (_hook_waiting_queues (mgr s))) s)
  | Some (Some (next :: rest)) =>
      Ok (Some next)
         (set_queues (<[key := Some rest]> (_hook_waiting_queues (mgr s))) s)
  end.

Definition hook_key (hook : Hook) : string * string :=
  (plugin_title hook, function_name hook).

(** What a [single_thread] launch does once admitted (at once, or when its
    future is resolved). *)
Definition launch_admitted (hook : Hook) (event : Event) : M World bool := λ s,
  let '(result, s1) := _execute_hook hook event s in
  (_ ← release (hook_key hook); mret result) s1.

Definition exempt_from_sieves (hook : Hook) : bool :=
  bool_decide (type hook ∈ ["on_start"; "on_stop"; "periodic"]%string).

(** Lines 516-520. *)
Definition sieve_phase (hook : Hook) (event : Event) (s : St)
  : option Event * St :=
  if exempt_from_sieves hook then (Some event, s)
  else sieve_loop (sieves (mgr s)) event hook s.

Definition launch (hook : Hook) (event : Event) : M World bool := λ s,
  match sieve_phase hook event s with
  | (None, s1) => Ok false s1
  | (Some event', s1) =>
      if single_thread hook then
        (_ ← acquire (hook_key hook); launch_admitted hook event') s1
      else
        let '(result, s2) := _execute_hook hook event' s1 in Ok result s2
  end.

(** ** Loading and unloading *)

Definition should_load (title : string) : bool * list effect :=
  match plugin_loading config with
  | None => (true, [])
  | Some pl =>
      if use_whitelist pl then
        if bool_decide (title ∉ whitelist pl)
        then (false, [log_not_loading title]) else (true, [])
      else
        if bool_decide (title ∈ blacklist pl)
        then (false, [log_not_loading title]) else (true, [])
  end.

Definition _log_hook (hook : Hook) : list effect :=
  if show_plugin_loading config then [log_loaded hook] else [].

(** [for h in hooks: for k in keys(h): d[k].append(h)], on a plain dict
    or a defaultdict. *)
Definition register_keyed {K} `{Countable K} (keys : Hook → list K)
    (hs : list Hook) (d : gmap K (list Hook)) : gmap K (list Hook) :=
  foldl (λ d h, foldl (λ d k, defaultdict_append k h d) d (keys h)) d hs.

(** Lines 185-195: the first to register an alias keeps it. *)
Definition register_alias (title : string) (command_hook : Hook)
    (acc : gmap string Hook * list effect) (alias : string)
  : gmap string Hook * list effect :=
  match acc.1 !! alias with
  | Some owner =>
      (acc.1, acc.2 ++ [log_conflict title alias (plugin_title owner)])
  | None => (<[alias := command_hook]> acc.1, acc.2)
  end.

Definition register_commands (title : string) (hs : list Hook)
    (cmds : gmap string Hook) : gmap string Hook * list effect :=
  foldl (λ acc command_hook,
           let acc' := foldl (register_alias title command_hook) acc
                         (aliases command_hook) in
           (acc'.1, acc'.2 ++ _log_hook command_hook))
        (cmds, []) hs.

(** Lines 198-207. *)
Definition register_raw (hs : list Hook) (pm : PluginManager) : PluginManager :=
  foldl (λ pm raw_hook,
           if catch_all raw_hook then
             set_catch_all_triggers (catch_all_triggers pm ++ [raw_hook]) pm
           else
             set_raw_triggers
               (foldl (λ d trigger, dict_append trigger raw_hook d)
                  (raw_triggers pm) (triggers raw_hook)) pm)
        pm hs.

Definition register_events (hs : list Hook) (d : gmap nat (list Hook))
  : gmap nat (list Hook) :=
  foldl (λ d event_hook,
           foldl (λ d event_type, dict_append event_type event_hook d) d
             (types event_hook)) d hs.

Definition register_regexes (hs : list Hook) (l : list (string * Hook))
  : list (string * Hook) :=
  foldl (λ l regex_hook,
           foldl (λ l regex_match, l ++ [(regex_match, regex_hook)]) l
             (regexes regex_hook)) l hs.

Definition append_all (hs : list Hook) (l : list Hook) : list Hook :=
  foldl (λ l h, l ++ [h]) l hs.

Definition sort_hooks : list Hook → list Hook := sort_by priority.

(** Lines 248-259.  The four dicts of lists are sorted value by value;
    [cap_hooks] is not among them. *)
Definition sort_indices (pm : PluginManager) : PluginManager :=
  let pm := set_sieves (sort_by priority (sieves pm)) pm in
  let pm := set_connect_hooks (sort_by priority (connect_hooks pm)) pm in
  let pm := set_regex_hooks (sort_by (λ x, priority x.2) (regex_hooks pm)) pm in
  let pm := set_catch_all_triggers (sort_hooks (catch_all_triggers pm)) pm in
  let pm := set_sieves (sort_hooks (sieves pm)) pm in
  let pm := set_connect_hooks (sort_hooks (connect_hooks pm)) pm in
  let pm := set_out_sieves (sort_hooks (out_sieves pm)) pm in
  let pm := set_event_type_hooks (sort_hooks <$> event_type_hooks pm) pm in
  let pm := set_raw_triggers (sort_hooks <$> raw_triggers pm) pm in
  let pm := set_perm_hooks (sort_hooks <$> perm_hooks pm) pm in
  set_hook_hooks (sort_hooks <$> hook_hooks pm) pm.

(** Lines 169-246 on the manager; the plugin's hook lists are read
    through its defaultdict. *)
Definition register_hooks (plugin : Plugin) (pm : PluginManager) : PluginManager :=
  let hs (t : string) := hooks plugin !!! t in
  let pm := set_cap_hooks_on_available
    (register_keyed (λ h, casefold <$> caps h) (hs "on_cap_available")
       (cap_hooks_on_available pm)) pm in
  let pm := set_cap_hooks_on_ack
    (register_keyed (λ h, casefold <$> caps h) (hs "on_cap_ack")
       (cap_hooks_on_ack pm)) pm in
  let pm := set_commands
    (register_commands (title plugin) (hs "command") (commands pm)).1 pm in
  let pm := register_raw (hs "irc_raw") pm in
  let pm := set_event_type_hooks
    (register_events (hs "event") (event_type_hooks pm)) pm in
  let pm := set_regex_hooks (register_regexes (hs "regex") (regex_hooks pm)) pm in
  let pm := set_sieves (append_all (hs "sieve") (sieves pm)) pm in
  let pm := set_connect_hooks (append_all (hs "on_connect") (connect_hooks pm)) pm in
  let pm := set_out_sieves (append_all (hs "irc_out") (out_sieves pm)) pm in
  let pm := set_hook_hooks
    (register_keyed (λ _, ["post"%string]) (hs "post_hook") (hook_hooks pm)) pm in
  set_perm_hooks (register_keyed perms (hs "perm_check") (perm_hooks pm)) pm.

(** The log and scheduler calls of lines 169-246, in order. *)
Definition register_effects (plugin : Plugin) (pm : PluginManager) : list effect :=
  let hs (t : string) := hooks plugin !!! t in
  (hs "on_cap_available" ≫= _log_hook)
  ++ (hs "on_cap_ack" ≫= _log_hook)
  ++ (hs "periodic" ≫= λ h, start_periodic h :: _log_hook h)
  ++ (register_commands (title plugin) (hs "command") (commands pm)).2
  ++ (hs "irc_raw" ≫= _log_hook)
  ++ (hs "event" ≫= _log_hook)
  ++ (hs "regex" ≫= _log_hook)
  ++ (hs "sieve" ≫= _log_hook)
  ++ (hs "on_connect" ≫= _log_hook)
  ++ (hs "irc_out" ≫= _log_hook)
  ++ (hs "post_hook" ≫= _log_hook)
  ++ (hs "perm_check" ≫= _log_hook).

(** Lines 157-164; [true] when every [on_start] hook succeeded. *)
Fixpoint on_start_loop (hs : list Hook) : M World bool :=
  match hs with
  | [] => mret true
  | on_start_hook :: hs' =>
      success ← launch on_start_hook (mk_Event (Some on_start_hook) EmptyString);
      if success : bool then on_start_loop hs' else mret false
  end.

Definition exn_bind {A B} (x : exn + A) (f : A → exn + B) : exn + B :=
  match x with
  | inl e => inl e
  | inr a => f a
  end.

(** A [for] loop whose body can raise. *)
Fixpoint fold_exn {A B} (f : B → A → exn + B) (l : list A) (b : B) : exn + B :=
  match l with
  | [] => inr b
  | x :: l' => exn_bind (f b x) (fold_exn f l')
  end.

Definition of_option {A} (e : exn) (x : option A) : exn + A :=
  match x with
  | Some a => inr a
  | None => inl e
  end.

(** [for h in hooks: for k in keys(h): d[k].remove(h); if not d[k]: del
    d[k]]. *)
Definition unregister_keyed {K} `{Countable K} (asserted : bool)
    (keys : Hook → list K) (hs : list Hook) (d : gmap K (list Hook))
  : exn + gmap K (list Hook) :=
  fold_exn (λ d h, fold_exn (λ d k, dict_remove_del asserted k h d) (keys h) d)
    hs d.

(** The same without the deletion of emptied entries (lines 341-346). *)
Definition unregister_keyed_keep {K} `{Countable K}
    (keys : Hook → list K) (hs : list Hook) (d : gmap K (list Hook))
  : exn + gmap K (list Hook) :=
  fold_exn (λ d h,
              fold_exn (λ d k, of_option ValueError (defaultdict_remove k h d))
                (keys h) d)
    hs d.

(** Lines 300-304: an alias is deleted only while it maps to this hook. *)
Definition unregister_commands (hs : list Hook) (cmds : gmap string Hook)
  : gmap string Hook :=
  foldl (λ cmds command_hook,
           foldl (λ cmds alias,
                    if bool_decide (cmds !! alias = Some command_hook)
                    then delete alias cmds else cmds)
             cmds (aliases command_hook))
        cmds hs.

Definition remove_all {A} `{EqDecision A} (xs : list A) (l : list A)
  : exn + list A :=
  fold_exn (λ l x, of_option ValueError (list_remove x l)) xs l.

(** Lines 307-315. *)
Definition unregister_raw (hs : list Hook) (pm : PluginManager)
  : exn + PluginManager :=
  fold_exn (λ pm raw_hook,
              if catch_all raw_hook then
                exn_bind
                  (of_option ValueError
                     (list_remove raw_hook (catch_all_triggers pm)))
                  (λ l, inr (set_catch_all_triggers l pm))
              else
                exn_bind
                  (fold_exn (λ d trigger, dict_remove_del true trigger raw_hook d)
                     (triggers raw_hook) (raw_triggers pm))
                  (λ d, inr (set_raw_triggers d pm)))
    hs pm.

(** Lines 283-346 on the manager. *)
Definition unregister_hooks (plugin : Plugin) (pm : PluginManager)
  : exn + PluginManager :=
  let hs (t : string) := hooks plugin !!! t in
  exn_bind (unregister_keyed false (λ h, casefold <$> caps h)
              (hs "on_cap_available") (cap_hooks_on_available pm)) (λ d,
  let pm := set_cap_hooks_on_available d pm in
  exn_bind (unregister_keyed false (λ h, casefold <$> caps h)
              (hs "on_cap_ack") (cap_hooks_on_ack pm)) (λ d,
  let pm := set_cap_hooks_on_ack d pm in
  let pm := set_commands (unregister_commands (hs "command") (commands pm)) pm in
  exn_bind (unregister_raw (hs "irc_raw") pm) (λ pm,
  exn_bind (unregister_keyed true types (hs "event") (event_type_hooks pm)) (λ d,
  let pm := set_event_type_hooks d pm in
  exn_bind (remove_all
              (hs "regex" ≫= λ h, (λ r, (r, h)) <$> regexes h)
              (regex_hooks pm)) (λ l,
  let pm := set_regex_hooks l pm in
  exn_bind (remove_all (hs "sieve") (sieves pm)) (λ l,
  let pm := set_sieves l pm in
  exn_bind (remove_all (hs "on_connect") (connect_hooks pm)) (λ l,
  let pm := set_connect_hooks l pm in
  exn_bind (remove_all (hs "irc_out") (out_sieves pm)) (λ l,
  let pm := set_out_sieves l pm in
  exn_bind (unregister_keyed_keep (λ _, ["post"%string]) (hs "post_hook")
              (hook_hooks pm)) (λ d,
  let pm := set_hook_hooks d pm in
  exn_bind (unregister_keyed_keep perms (hs "perm_check") (perm_hooks pm)) (λ d,
  inr (set_perm_hooks d pm))))))))))).

(** Lines 349-351: the results of the [on_stop] hooks are dropped. *)
Fixpoint on_stop_loop (hs : list Hook) : M World () :=
  match hs with
  | [] => mret ()
  | on_stop_hook :: hs' =>
      _ ← launch on_stop_hook (mk_Event (Some on_stop_hook) EmptyString);
      on_stop_loop hs'
  end.

(** Lines 356-362. *)
Definition cancel_tasks (plugin : Plugin) : list effect :=
  if decide (0 < length (tasks plugin))%nat
  then (cancel <$> tasks plugin)
         ++ [log_cancelled (length (tasks plugin)) (title plugin)]
  else [].

(** Lines 353-370. *)
Definition finish_unload (plugin : Plugin) : M World bool := λ s,
  let s := emits (unregister_tables (title plugin) :: cancel_tasks plugin) s in
  match plugins (mgr s) !! file_path plugin with
  | None => Raise KeyError s
  | Some _ =>
      Ok true
        (emits (if show_plugin_loading config
                then [log_unloaded (title plugin)] else [])
           (upd_mgr (λ pm,
              set_plugins (delete (file_path plugin) (plugins pm)) pm) s))
  end.

(** [unload_plugin], given the resolved path as a string.  When a removal
    raises, the manager is reported as it was on entry. *)
Definition unload_plugin (path : string) : M World bool := λ s,
  match plugins (mgr s) !! path with
  | None => Ok false s
  | Some plugin =>
      match unregister_hooks plugin (mgr s) with
      | inl e => Raise e s
      | inr pm =>
          (_ ← on_stop_loop (hooks plugin !!! "on_stop"%string);
           finish_unload plugin) (upd_mgr (λ _, pm) s)
      end
  end.

(** Lines 166-262.  The dicts hold a reference to the plugin object, so
    their entries show the tasks appended at line 181 and the deletion at
    line 262. *)
Definition register_plugin (plugin : Plugin) : M World () := λ s,
  let loaded :=
    {| file_path := file_path plugin; file_name := file_name plugin;
       title := title plugin;
       hooks := delete "on_start"%string (hooks plugin);
       tasks := tasks plugin
                ++ (periodic_task <$> (hooks plugin !!! "periodic"%string)) |} in
  Ok ()
    (emits (register_effects plugin (mgr s))
       (upd_mgr (λ pm,
          sort_indices
            (register_hooks plugin
               (set_plugin_name_map
                  (<[title plugin := loaded]> (_plugin_name_map pm))
                  (set_plugins (<[file_path plugin := loaded]> (plugins pm)) pm))))
          s)).

(** Lines 149-262, once the module is imported. *)
Definition start_plugin (plugin : Plugin) : M World () := λ s,
  (success ← on_start_loop (hooks plugin !!! "on_start"%string);
   if success : bool then register_plugin plugin
   else λ s, Ok () (emits [log_on_start_errored (title plugin);
                           unregister_tables (title plugin)] s))
    (emit (create_tables (title plugin)) s).

(** Lines 131-136: whether the load goes on, after unloading what was
    loaded from the same path. *)
Definition prepare_load (path ttl : string) : M World bool := λ s,
  let '(go, lg) := should_load ttl in
  let s := emits lg s in
  if negb go then Ok false s else
  (_ ← (if bool_decide (is_Some (plugins (mgr s) !! path))
        then unload_plugin path else mret false);
   mret true) s.

(** [load_plugin].  [path], [name] and [ttl] are [str(file_path)],
    [file_name] and [title] as computed from the path; [module] is what
    importing gives: [None] when the import raises, else the hooks that
    [Plugin(...)] finds in the module, by type.  The coroutine returns
    [None] on every path, hence the unit. *)
Definition load_plugin (path name ttl : string)
    (module : option (gmap string (list Hook))) : M World () :=
  go ← prepare_load path ttl;
  if go : bool then
    match module with
    | None => λ s, Ok () (emit (log_import_error ttl) s)
    | Some found =>
        start_plugin {| file_path := path; file_name := name; title := ttl;
                        hooks := found; tasks := [] |}
    end
  else mret ().
End manager.

Arguments launch {World} hook_function sieve_function hook event s.
Arguments _execute_hook {World} hook_function hook event s.
Arguments _sieve {World} hook_function sieve_function sieve event hook s.
Arguments sieve_loop {World} hook_function sieve_function l event hook s.
Arguments sieve_phase {World} hook_function sieve_function hook event s.
Arguments run_post_hooks {World} hook_function post_event s.
Arguments post_loop {World} hook_function post_event l s.
Arguments internal_launch {World} hook_function hook event s.
Arguments launch_admitted {World} hook_function hook event s.
Arguments on_start_loop {World} hook_function sieve_function hs s.
Arguments on_stop_loop {World} hook_function sieve_function hs s.
Arguments load_plugin {World} hook_function sieve_function casefold config path name ttl module s.
Arguments unload_plugin {World} hook_function sieve_function casefold config path s.
Arguments prepare_load {World} hook_function sieve_function casefold config path ttl s.
Arguments start_plugin {World} hook_function sieve_function casefold config plugin s.
Arguments register_plugin {World} casefold config plugin s.
Arguments finish_unload {World} config plugin s.

(** [find_plugin]: the lookup in the name map. *)
Definition find_plugin (title : string) (pm : PluginManager) : option Plugin :=
  _plugin_name_map pm !! title.

(** The state a coroutine leaves behind, however it ended. *)
Definition res_state {S A} (r : Res S A) : S :=
  match r with
  | Ok _ s | Raise _ s | Await _ s => s
  end.

Definition is_raise {S A} (r : Res S A) : bool :=
  match r with
  | Raise _ _ => true
  | _ => false
  end.

(** What a coroutine hands back to its caller, when it returns. *)
Definition handed_back {S A} (r : Res S A) : option A :=
  match r with
  | Ok a _ => Some a
  | _ => None
  end.

(** ** Reading the trace *)

(** [res is False] on a successful call: the stop signal of a post hook. *)
Definition is_stop (out : outcome pyval) : bool :=
  match out with
  | returned (PyBool false) => true
  | _ => false
  end.

Definition succeeded {A} (out : outcome A) : bool :=
  match out with
  | returned _ => true
  | raised _ => false
  end.

(** The post-hook calls a chain over [l] makes: one call per hook, in the
    order of [l], each in the hook's own mode and on the event built for it,
    up to and including the first call that gives the stop signal. *)
Fixpoint post_chain (post_event : Hook → Event) (l : list Hook)
    (log : list effect) {struct log} : Prop :=
  match log with
  | [] => l = []
  | run_hook in_executor h ev out :: log' =>
      match l with
      | [] => False
      | post_hook :: l' =>
          h = post_hook ∧ in_executor = threaded post_hook
          ∧ ev = post_event post_hook
          ∧ if is_stop out then log' = [] else post_chain post_event l' log'
      end
  | _ => False
  end.

(** The sieve calls of a trace. *)
Definition is_sieve_call (e : effect) : bool :=
  match e with
  | run_sieve _ _ _ _ _ => true
  | _ => false
  end.

Definition sieve_calls (tr : list effect) : list effect :=
  filter (λ e, is_sieve_call e) tr.

Definition sieve_of (e : effect) : option Hook :=
  match e with
  | run_sieve _ sieve _ _ _ => Some sieve
  | _ => None
  end.

(** What a sieve's outcome passes on: the event it returned, or nothing when
    it returned [None] or raised. *)
Definition passed_on (out : outcome (option Event)) : option Event :=
  match out with
  | returned r => r
  | raised _ => None
  end.

(** The sieve calls of one dispatch of [hook]: the sieves of [l] in order,
    each on the event its predecessor passed on, ending at the first sieve
    that passes nothing on; [final] is what the last one passed on. *)
Fixpoint sieve_chain (l : list Hook) (event : Event) (hook : Hook)
    (calls : list effect) (final : option Event) {struct calls} : Prop :=
  match calls with
  | [] => l = [] ∧ final = Some event
  | run_sieve in_executor sieve ev h out :: calls' =>
      match l with
      | [] => False
      | first :: l' =>
          sieve = first ∧ in_executor = threaded first ∧ ev = event ∧ h = hook
          ∧ match passed_on out with
            | Some event' => sieve_chain l' event' hook calls' final
            | None => calls' = [] ∧ final = None
            end
      end
  | _ => False
  end.

(** A trace segment holding nothing but sieve calls and post-hook calls
    that report on a sieve of [l]: no hook is run on a dispatched event. *)
Definition only_sieving (l : list Hook) (tr : list effect) : Prop :=
  Forall (λ e, match e with
               | run_sieve _ _ _ _ _ => True
               | run_hook _ _ (PostHookEvent launched _ _ _ _) _ => launched ∈ l
               | _ => False
               end) tr.

Definition no_sieve_call (tr : list effect) : Prop :=
  Forall (λ e, is_sieve_call e = false) tr.

(** A read of [self.hook_hooks["post"]]. *)
Definition touch_post (pm : PluginManager) : PluginManager :=
  set_hook_hooks (defaultdict_touch "post"%string (hook_hooks pm)) pm.

(** What a dispatch leaves of the manager: the ["post"] entry of
    [hook_hooks] may have been created by a read, and the waiting queues
    may have changed; nothing else. *)
Definition dispatch_frame (pm pm' : PluginManager) : Prop :=
  ∃ (b : bool) q,
    pm' = set_hook_waiting_queues q (if b then touch_post pm else pm).

Definition result_of (out : outcome pyval) : pyval :=
  match out with
  | returned v => v
  | raised _ => PyNone
  end.

Definition error_of {A} (out : outcome A) : option string :=
  match out with
  | returned _ => None
  | raised e => Some e
  end.

Definition run_of (e : effect) : option Hook :=
  match e with
  | run_hook _ h _ _ => Some h
  | _ => None
  end.

Definition out_of (e : effect) : outcome pyval :=
  match e with
  | run_hook _ _ _ out => out
  | _ => returned PyNone
  end.

(** The dispatch a trace entry records: the hook run on the event of a
    launch, and whether it returned.  The calls of post hooks, which get a
    [PostHookEvent], and of sieves are none. *)
Definition dispatched (e : effect) : option (Hook * bool) :=
  match e with
  | run_hook _ h (mk_Event _ _) out => Some (h, succeeded out)
  | _ => None
  end.

(** The periodic loop a trace entry starts, and the task it cancels. *)
Definition started (e : effect) : option Hook :=
  match e with
  | start_periodic h => Some h
  | _ => None
  end.

Definition cancelled (e : effect) : option task :=
  match e with
  | cancel t => Some t
  | _ => None
  end.

(** ** Reading the indices *)

(** The [(key, hook)] pairs a nested loop [for h in hs: for k in keys(h)]
    goes through, in order, and the hooks among them under one key. *)
Definition key_pairs {K} (keys : Hook → list K) (hs : list Hook)
  : list (K * Hook) :=
  hs ≫= λ h, (λ k, (k, h)) <$> keys h.

Definition hooks_at {K} `{EqDecision K} (k : K) (prs : list (K * Hook))
  : list Hook :=
  (filter (λ kh, kh.1 = k) prs).*2.

(** No key of the dict maps to an empty list. *)
Definition no_empty {K} `{Countable K} {V} (d : gmap K (list V)) : Prop :=
  ∀ k l, d !! k = Some l → l ≠ [].

(** Every list of the dict is ascending in priority. *)
Definition all_sorted {K} `{Countable K} (d : gmap K (list Hook)) : Prop :=
  ∀ k l, d !! k = Some l → sorted_by priority l.

(** The trigger keys of a raw hook that is not a catch-all. *)
Definition raw_keys (h : Hook) : list string :=
  if catch_all h then [] else triggers h.

(** What removing a hook under [k] leaves of the dict, as a function of the
    shortened list [l]. *)
Definition pruned {K} `{Countable K} (k : K) (l : list Hook)
    (d : gmap K (list Hook)) : gmap K (list Hook) :=
  match l with
  | [] => delete k d
  | _ => <[k := l]> d
  end.

(** A removal step: it succeeds exactly when the hook is in the list under
    its key, and then shortens that list and leaves the other lists. *)
Definition removal_step {K} `{Countable K}
    (step : gmap K (list Hook) → K * Hook → exn + gmap K (list Hook))
    (I : gmap K (list Hook) → Prop) : Prop :=
  ∀ d k h,
    (∀ d', step d (k, h) = inr d' →
       ∃ l, list_remove h (d !!! k) = Some l
            ∧ ∀ k', d' !!! k' = if decide (k = k') then l else d !!! k')
    ∧ (∀ l, list_remove h (d !!! k) = Some l →
         ∃ d', step d (k, h) = inr d'
               ∧ (∀ k', d' !!! k' = if decide (k = k') then l else d !!! k')
               ∧ (I d → I d')).

(** Who holds alias [a] once the pairs [pre] are registered over [cmds]. *)
Definition owner_after (cmds : gmap string Hook) (pre : list (string * Hook))
    (a : string) : option Hook :=
  match cmds !! a with
  | Some o => Some o
  | None => head (hooks_at a pre)
  end.

(** One turn of the alias loop of lines 186-194. *)
Definition alias_step (ttl : string) (acc : gmap string Hook * list effect)
    (kh : string * Hook) : gmap string Hook * list effect :=
  register_alias ttl kh.2 acc kh.1.

(** ** Invariants of the registry *)

(** The lists that [load_plugin] sorts are ascending in priority. *)
Definition indices_sorted (pm : PluginManager) : Prop :=
  sorted_by priority (catch_all_triggers pm)
  ∧ sorted_by priority (sieves pm)
  ∧ sorted_by priority (connect_hooks pm)
  ∧ sorted_by priority (out_sieves pm)
  ∧ sorted_by (λ x, priority x.2) (regex_hooks pm)
  ∧ all_sorted (raw_triggers pm)
  ∧ all_sorted (event_type_hooks pm)
  ∧ all_sorted (perm_hooks pm)
  ∧ all_sorted (hook_hooks pm).

(** The dicts that [unload_plugin] prunes hold no empty list. *)
Definition maps_pruned (pm : PluginManager) : Prop :=
  no_empty (raw_triggers pm)
  ∧ no_empty (event_type_hooks pm)
  ∧ no_empty (cap_hooks_on_available pm)
  ∧ no_empty (cap_hooks_on_ack pm).

(** Every plugin is stored under its own [file_path]. *)
Definition plugins_keyed (pm : PluginManager) : Prop :=
  ∀ k p, plugins pm !! k = Some p → file_path p = k.

(** The hook occurs in some index of the manager. *)
Definition indexed (pm : PluginManager) (h : Hook) : Prop :=
  (∃ a, commands pm !! a = Some h)
  ∨ (∃ k, h ∈ raw_triggers pm !!! k)
  ∨ h ∈ catch_all_triggers pm
  ∨ (∃ k, h ∈ event_type_hooks pm !!! k)
  ∨ (∃ r, (r, h) ∈ regex_hooks pm)
  ∨ h ∈ sieves pm
  ∨ (∃ k, h ∈ cap_hooks_on_available pm !!! k)
  ∨ (∃ k, h ∈ cap_hooks_on_ack pm !!! k)
  ∨ h ∈ connect_hooks pm
  ∨ h ∈ out_sieves pm
  ∨ (∃ k, h ∈ hook_hooks pm !!! k)
  ∨ (∃ k, h ∈ perm_hooks pm !!! k).

(** The hooks of a freshly made plugin are new objects: none is in an index
    yet. *)
Definition fresh_for (found : gmap string (list Hook)) (pm : PluginManager)
  : Prop :=
  ∀ t h, h ∈ found !!! t → ¬ indexed pm h.

(** The derived indices agree, the permission dict left aside; of
    [hook_hooks] the post-hook list is compared. *)
Definition same_indices (pm pm' : PluginManager) : Prop :=
  commands pm' = commands pm
  ∧ raw_triggers pm' = raw_triggers pm
  ∧ catch_all_triggers pm' = catch_all_triggers pm
  ∧ event_type_hooks pm' = event_type_hooks pm
  ∧ regex_hooks pm' = regex_hooks pm
  ∧ cap_hooks_on_available pm' = cap_hooks_on_available pm
  ∧ cap_hooks_on_ack pm' = cap_hooks_on_ack pm
  ∧ sieves pm' = sieves pm
  ∧ connect_hooks pm' = connect_hooks pm
  ∧ out_sieves pm' = out_sieves pm
  ∧ hook_hooks pm' !!! "post"%string = hook_hooks pm !!! "post"%string.

(** All the hooks of a plugin, whatever their type. *)
Definition plugin_hooks (p : Plugin) : list Hook :=
  mjoin (map_to_list (hooks p)).*2.

(** The hooks listed in a dict of lists, and all the hooks that occur in some
    index of the manager. *)
Definition listed `{Countable K} (m : gmap K (list Hook)) : list Hook :=
  mjoin (map_to_list m).*2.

Definition indexed_hooks (pm : PluginManager) : list Hook :=
  (map_to_list (commands pm)).*2
  ++ listed (raw_triggers pm)
  ++ catch_all_triggers pm
  ++ listed (event_type_hooks pm)
  ++ (regex_hooks pm).*2
  ++ sieves pm
  ++ listed (cap_hooks_on_available pm)
  ++ listed (cap_hooks_on_ack pm)
  ++ connect_hooks pm
  ++ out_sieves pm
  ++ listed (hook_hooks pm)
  ++ listed (perm_hooks pm).

(** ** The registry against the loaded plugins *)

(** The hooks of type [t] of all the loaded plugins. *)
Definition loaded_hooks (pm : PluginManager) (t : string) : list Hook :=
  (map_to_list (plugins pm)).*2 ≫= λ p, hooks p !!! t.

(** The [(regex, hook)] pairs of lines 219-221 and 326-328. *)
Definition regex_pairs (hs : list Hook) : list (string * Hook) :=
  hs ≫= λ h, (λ r, (r, h)) <$> regexes h.

(** Every index holds the hooks of the loaded plugins, each as often as
    the loops of [load_plugin] append it, in some order; an alias maps to a
    command hook of a loaded plugin that declares it; every plugin is
    stored under its own path, without its [on_start] hooks. *)
Definition consistent (casefold : string → string) (pm : PluginManager)
  : Prop :=
  (∀ a h, commands pm !! a = Some h →
          h ∈ loaded_hooks pm "command" ∧ a ∈ aliases h)
  ∧ (∀ k, raw_triggers pm !!! k
          ≡ₚ hooks_at k (key_pairs raw_keys (loaded_hooks pm "irc_raw")))
  ∧ catch_all_triggers pm
    ≡ₚ filter (λ h, catch_all h) (loaded_hooks pm "irc_raw")
  ∧ (∀ k, event_type_hooks pm !!! k
          ≡ₚ hooks_at k (key_pairs types (loaded_hooks pm "event")))
  ∧ regex_hooks pm ≡ₚ regex_pairs (loaded_hooks pm "regex")
  ∧ sieves pm ≡ₚ loaded_hooks pm "sieve"
  ∧ (∀ k, cap_hooks_on_available pm !!! k
          ≡ₚ hooks_at k (key_pairs (λ h, casefold <$> caps h)
                           (loaded_hooks pm "on_cap_available")))
  ∧ (∀ k, cap_hooks_on_ack pm !!! k
          ≡ₚ hooks_at k (key_pairs (λ h, casefold <$> caps h)
                           (loaded_hooks pm "on_cap_ack")))
  ∧ connect_hooks pm ≡ₚ loaded_hooks pm "on_connect"
  ∧ out_sieves pm ≡ₚ loaded_hooks pm "irc_out"
  ∧ (∀ k, hook_hooks pm !!! k
          ≡ₚ hooks_at k (key_pairs (λ _, ["post"%string])
                           (loaded_hooks pm "post_hook")))
  ∧ (∀ k, perm_hooks pm !!! k
          ≡ₚ hooks_at k (key_pairs perms (loaded_hooks pm "perm_check")))
  ∧ (∀ path p, plugins pm !! path = Some p →
               file_path p = path ∧ hooks p !! "on_start"%string = None).

(** The states of a bot whose manager is new and on which [load_plugin],
    [unload_plugin] and [launch] have been called one after the other, each
    call having returned before the next. *)
Section driver.
Context {World : Type}.
Variable hook_function : Hook → Event → World → outcome pyval * World.
Variable sieve_function :
  Hook → Event → Hook → World → outcome (option Event) * World.
Variable casefold : string → string.
Variable config : Config.

(** [unload_all]: an [unload_plugin] for every key of [plugins].  [paths]
    is what iterating over the dict yields when the coroutines are made;
    they are run here one after the other, each to its return, which is
    how [asyncio.gather] runs coroutines that never wait for each other. *)
Fixpoint unload_all (paths : list string) : M World () :=
  match paths with
  | [] => mret ()
  | path :: paths' =>
      _ ← unload_plugin hook_function sieve_function casefold config path;
      unload_all paths'
  end.

Inductive reachable : State World → Prop :=
| reach_new w n :
    reachable {| mgr := PluginManager_init; world := w; trace := [];
                 next_future := n |}
| reach_load path name ttl module s s' :
    reachable s →
    load_plugin hook_function sieve_function casefold config
      path name ttl module s = Ok () s' →
    reachable s'
| reach_unload path s b s' :
    reachable s →
    unload_plugin hook_function sieve_function casefold config path s
    = Ok b s' →
    reachable s'
| reach_launch hook event s b s' :
    reachable s →
    launch hook_function sieve_function hook event s = Ok b s' →
    reachable s'.
End driver.

(** ** The serialization queue of one key

    The invocations of the [single_thread] hooks of one key, as [launch]
    drives them: an arriving invocation runs [acquire] and either goes on or
    is parked on its future; an invocation that has gone on runs the hook
    and then [release], which may wake a parked one.  Neither [acquire] nor
    [release] has a suspension point inside, so the steps are atomic.
    [running] counts the invocations between their admission and their
    [release]; [parked] lists the futures of the suspended ones in arrival
    order. *)
Record KeyRun (World : Type) := {
  bot : State World;
  running : nat;
  parked : list positive
}.
Arguments bot {World} k.
Arguments running {World} k.
Arguments parked {World} k.

Definition entry {World} (key : string * string) (c : KeyRun World)
  : option (option (list positive)) :=
  _hook_waiting_queues (mgr (bot c)) !! key.

Inductive key_step {World} (key : string * string)
  : KeyRun World → KeyRun World → Prop :=
| step_admit s s' n p :
    acquire key s = Ok () s' →
    key_step key {| bot := s; running := n; parked := p |}
                 {| bot := s'; running := S n; parked := p |}
| step_park s s' f n p :
    acquire key s = Await f s' →
    key_step key {| bot := s; running := n; parked := p |}
                 {| bot := s'; running := n; parked := p ++ [f] |}
| step_done s s' n p :
    release key s = Ok None s' →
    key_step key {| bot := s; running := S n; parked := p |}
                 {| bot := s'; running := n; parked := p |}
| step_wake s s' f n p :
    release key s = Ok (Some f) s' →
    key_step key {| bot := s; running := S n; parked := p |}
                 {| bot := s'; running := S n;
                    parked := default p (list_remove f p) |}
| step_elsewhere s s' n p :
    _hook_waiting_queues (mgr s') !! key = _hook_waiting_queues (mgr s) !! key →
    key_step key {| bot := s; running := n; parked := p |}
                 {| bot := s'; running := n; parked := p |}.

Definition key_idle {World} (key : string * string) (c : KeyRun World) : Prop :=
  entry key c = None ∧ running c = 0%nat ∧ parked c = [].

(** While the key is in use, one invocation runs and the entry holds the
    futures of the parked ones; otherwise there is no entry. *)
Definition key_inv {World} (key : string * string) (c : KeyRun World) : Prop :=
  match entry key c with
  | None => running c = 0%nat ∧ parked c = []
  | Some q => running c = 1%nat ∧ parked c = default [] q
  end.

(** ** A small bot to run the manager on

    Hook functions that behave by their name: ["fail"] raises, ["stop"]
    returns [False], ["reject"] (a sieve) returns [None], anything else
    returns [None] (a hook) or the event unchanged (a sieve).  The world
    counts the calls. *)
Module demo.
Local Open Scope string_scope.

Definition hook_function (h : Hook) (ev : Event) (w : nat)
  : outcome pyval * nat :=
  (if decide (function_name h = "fail") then raised "boom"
   else if decide (function_name h = "stop") then returned (PyBool false)
   else returned PyNone, S w).

Definition sieve_function (sv : Hook) (ev : Event) (h : Hook) (w : nat)
  : outcome (option Event) * nat :=
  (if decide (function_name sv = "fail") then raised "boom"
   else if decide (function_name sv = "reject") then returned None
   else returned (Some ev), S w).

(** ASCII lower-casing stands in for [str.casefold]. *)
Definition lower (c : Ascii.ascii) : Ascii.ascii :=
  let n := Ascii.nat_of_ascii c in
  if (65 <=? n)%nat && (n <=? 90)%nat
  then Ascii.ascii_of_nat (n + 32) else c.

Fixpoint casefold (s : string) : string :=
  match s with
  | EmptyString => EmptyString
  | String c s' => String (lower c) (casefold s')
  end.

Definition config : Config :=
  {| plugin_loading := None; show_plugin_loading := false |}.

(** A hook of plugin [owner] with no trigger data. *)
Definition plain (u : positive) (t owner fn : string) (p : Z) (excl : bool)
  : Hook :=
  {| uid := u; type := t; plugin_title := owner; function_name := fn;
     priority := p; threaded := false; single_thread := excl;
     aliases := []; triggers := []; catch_all := false; types := [];
     regexes := []; caps := []; perms := [] |}.

Definition with_aliases (l : list string) (h : Hook) : Hook :=
  {| uid := uid h; type := type h; plugin_title := plugin_title h;
     function_name := function_name h; priority := priority h;
     threaded := threaded h; single_thread := single_thread h;
     aliases := l; triggers := triggers h; catch_all := catch_all h;
     types := types h; regexes := regexes h; caps := caps h;
     perms := perms h |}.

Definition with_caps (l : list string) (h : Hook) : Hook :=
  {| uid := uid h; type := type h; plugin_title := plugin_title h;
     function_name := function_name h; priority := priority h;
     threaded := threaded h; single_thread := single_thread h;
     aliases := aliases h; triggers := triggers h; catch_all := catch_all h;
     types := types h; regexes := regexes h; caps := l;
     perms := perms h |}.

Definition with_perms (l : list string) (h : Hook) : Hook :=
  {| uid := uid h; type := type h; plugin_title := plugin_title h;
     function_name := function_name h; priority := priority h;
     threaded := threaded h; single_thread := single_thread h;
     aliases := aliases h; triggers := triggers h; catch_all := catch_all h;
     types := types h; regexes := regexes h; caps := caps h;
     perms := l |}.

Definition with_triggers (l : list string) (h : Hook) : Hook :=
  {| uid := uid h; type := type h; plugin_title := plugin_title h;
     function_name := function_name h; priority := priority h;
     threaded := threaded h; single_thread := single_thread h;
     aliases := aliases h; triggers := l; catch_all := catch_all h;
     types := types h; regexes := regexes h; caps := caps h;
     perms := perms h |}.

Definition idle : State nat :=
  {| mgr := PluginManager_init; world := 0%nat; trace := [];
     next_future := 1%positive |}.

Definition with_mgr (pm : PluginManager) : State nat :=
  {| mgr := pm; world := 0%nat; trace := []; next_future := 1%positive |}.

Definition launch := launch hook_function sieve_function.
Definition load_plugin := load_plugin hook_function sieve_function casefold config.
Definition unload_plugin :=
  unload_plugin hook_function sieve_function casefold config.

(** Hooks of the dispatch examples. *)
Definition cmd : Hook := plain 1 "command" "greeter" "hi" 0 false.
Definition s_low : Hook := plain 2 "sieve" "filters" "pass" 0 false.
Definition s_reject : Hook := plain 3 "sieve" "filters" "reject" 5 false.
Definition s_high : Hook := plain 4 "sieve" "filters" "pass" 9 false.
Definition p_fail : Hook := plain 5 "post_hook" "audit" "fail" 0 false.
Definition p_stop : Hook := plain 6 "post_hook" "audit" "stop" 1 false.
Definition p_last : Hook := plain 7 "post_hook" "audit" "log" 2 false.
Definition p_excl : Hook := plain 8 "post_hook" "audit" "log" 0 true.
Definition starter : Hook := plain 9 "on_start" "greeter" "init" 0 false.

Definition ev0 : Event := mk_Event None "hello".

Definition filtering : State nat :=
  with_mgr (set_hook_hooks {["post" := [p_fail; p_stop; p_last]]}
              (set_sieves [s_low; s_reject; s_high] PluginManager_init)).

Definition notifying : State nat :=
  with_mgr (set_hook_hooks {["post" := [p_fail; p_stop; p_last]]}
              PluginManager_init).

(** [p_excl] is registered as a post hook while an invocation of it is
    running (its key holds the marker). *)
Definition busy : State nat :=
  with_mgr (set_hook_waiting_queues {[hook_key p_excl := None]}
              (set_hook_hooks {["post" := [p_excl]]} PluginManager_init)).

(** Modules to load.  [caps] declares the later-running capability hook
    first; [greeter] has an [on_start] hook, a sieve and two commands;
    [perms] a permission check and a post hook; [broken] an [on_start]
    hook that raises. *)
Definition c_late : Hook :=
  with_caps ["SASL"] (plain 10 "on_cap_available" "caps" "late" 5 false).
Definition c_early : Hook :=
  with_caps ["sasl"] (plain 11 "on_cap_available" "caps" "early" 1 false).
Definition caps_module : gmap string (list Hook) :=
  {["on_cap_available" := [c_late; c_early]]}.

Definition hi : Hook :=
  with_aliases ["hi"; "hello"] (plain 12 "command" "greeter" "hi" 0 false).
Definition bye : Hook :=
  with_aliases ["bye"] (plain 13 "command" "greeter" "bye" 0 false).
Definition greeter_module : gmap string (list Hook) :=
  {["on_start" := [starter]; "command" := [hi; bye]; "sieve" := [s_low]]}.

Definition perm_op : Hook :=
  with_perms ["op"] (plain 14 "perm_check" "perms" "check" 0 false).
Definition audit : Hook := plain 15 "post_hook" "perms" "log" 0 false.
Definition perms_module : gmap string (list Hook) :=
  {["perm_check" := [perm_op]; "post_hook" := [audit]]}.

Definition hello2 : Hook :=
  with_aliases ["hello"; "hey"] (plain 16 "command" "salute" "hello" 0 false).
Definition salute_module : gmap string (list Hook) :=
  {["command" := [hello2]]}.

Definition bad_start : Hook := plain 17 "on_start" "broken" "fail" 0 false.
Definition broken_cmd : Hook :=
  with_aliases ["oops"] (plain 18 "command" "broken" "oops" 0 false).
Definition broken_module : gmap string (list Hook) :=
  {["on_start" := [bad_start]; "command" := [broken_cmd]]}.

Definition load_greeter := load_plugin "/bot/plugins/greeter.py" "greeter.py"
                             "greeter" (Some greeter_module).
Definition load_salute := load_plugin "/bot/plugins/salute.py" "salute.py"
                            "salute" (Some salute_module).
Definition load_caps := load_plugin "/bot/plugins/caps.py" "caps.py" "caps"
                          (Some caps_module).
Definition load_perms := load_plugin "/bot/plugins/perms.py" "perms.py"
                           "perms" (Some perms_module).
Definition load_broken := load_plugin "/bot/plugins/broken.py" "broken.py"
                            "broken" (Some broken_module).

(** The bot with [greeter] loaded, and with [salute] loaded after it. *)
Definition greeting : State nat := res_state (load_greeter idle).
Definition saluting : State nat := res_state (load_salute greeting).

(** The plugin object of [greeter] as the manager holds it. *)
Definition greeter_plugin : Plugin :=
  {| file_path := "/bot/plugins/greeter.py"; file_name := "greeter.py";
     title := "greeter"; hooks := delete "on_start" greeter_module;
     tasks := [] |}.

(** The plugin object of [salute] as the manager holds it. *)
Definition salute_plugin : Plugin :=
  {| file_path := "/bot/plugins/salute.py"; file_name := "salute.py";
     title := "salute"; hooks := delete "on_start" salute_module;
     tasks := [] |}.

(** The bot after [salute] is unloaded again. *)
Definition unsaluted : State nat :=
  res_state (unload_plugin "/bot/plugins/salute.py" saluting).

(** The bot after [greeter] is unloaded again. *)
Definition parted : State nat :=
  res_state (unload_plugin "/bot/plugins/greeter.py" greeting).

(** What is left when three invocations of [p_excl] have arrived and the
    first has finished: the second runs, the third waits. *)
Definition handed_over : State nat :=
  {| mgr := set_hook_waiting_queues {[hook_key p_excl := Some [2%positive]]}
              PluginManager_init;
     world := 0%nat; trace := []; next_future := 3%positive |}.
End demo.

(** ** More of the small bot: a configuration with a [plugin_loading]
    section, and further modules. *)
Module scenes.
Local Open Scope string_scope.

(** A whitelist that names [salute] only; the blacklist is there but not
    in use. *)
Definition picky : Config :=
  {| plugin_loading :=
       Some {| use_whitelist := true; whitelist := ["salute"];
               blacklist := ["salute"; "greeter"] |};
     show_plugin_loading := false |}.

(** [clock] has an [on_start] hook, a periodic hook, and two [on_stop]
    hooks of which the first raises. *)
Definition opener : Hook := demo.plain 20 "on_start" "clock" "init" 0 false.
Definition ticker : Hook := demo.plain 21 "periodic" "clock" "tick" 0 false.
Definition closer : Hook := demo.plain 22 "on_stop" "clock" "fail" 0 false.
Definition sweeper : Hook := demo.plain 23 "on_stop" "clock" "sweep" 0 false.
Definition clock_module : gmap string (list Hook) :=
  {["on_start" := [opener]; "periodic" := [ticker];
    "on_stop" := [closer; sweeper]]}.

Definition load_clock :=
  demo.load_plugin "/bot/plugins/clock.py" "clock.py" "clock"
    (Some clock_module).

(** The bot with [clock] loaded, and the plugin object it holds. *)
Definition ticking : State nat := res_state (load_clock demo.idle).

Definition clock_plugin : Plugin :=
  {| file_path := "/bot/plugins/clock.py"; file_name := "clock.py";
     title := "clock"; hooks := delete "on_start" clock_module;
     tasks := [periodic_task ticker] |}.

(** [fragile] has three [on_start] hooks; the second raises. *)
Definition first_start : Hook :=
  demo.plain 24 "on_start" "fragile" "init" 0 false.
Definition failing_start : Hook :=
  demo.plain 25 "on_start" "fragile" "fail" 0 false.
Definition never_start : Hook :=
  demo.plain 26 "on_start" "fragile" "late" 0 false.
Definition fragile_module : gmap string (list Hook) :=
  {["on_start" := [first_start; failing_start; never_start];
    "sieve" := [demo.s_high]]}.

(** Sieves that rewrite the event: each hands on an event that carries its
    own name. *)
Definition stamping (sv : Hook) (ev : Event) (h : Hook) (w : nat)
  : outcome (option Event) * nat :=
  (returned (Some (mk_Event (Some sv) (function_name sv))), S w).

Definition stamp_first : Hook := demo.plain 27 "sieve" "stamps" "first" 0 false.
Definition stamp_last : Hook := demo.plain 28 "sieve" "stamps" "last" 1 false.

Definition stamped : State nat :=
  demo.with_mgr (set_sieves [stamp_first; stamp_last] PluginManager_init).

(** A registry in which [greeter] is loaded but its sieve has been taken
    out of the sieve list behind the manager's back. *)
Definition tampered : State nat :=
  demo.with_mgr (set_sieves [] (mgr demo.greeting)).
End scenes.

(** * Properties *)

(** ** Lists: removal and the stable sort *)

Section py_list_facts.
Context {A : Type} `{EqDecision A}.
Variable key : A → Z.

Implicit Types (x y a : A) (l : list A).

Local Abbreviation sorted_by := (sorted_by key).
Local Abbreviation sort_by := (sort_by key).
Local Abbreviation insert_by := (insert_by key).
Local Abbreviation key_le := (key_le key).

Lemma list_remove_elem_of x l l' : list_remove x l = Some l' → x ∈ l.
Proof.
  revert l'. induction l as [|y l IH]; intros l'; simpl; [done|].
  case_decide as Hxy; [subst; left|].
  destruct (list_remove x l) eqn:E; [|done]. right. eauto.
Qed.

Lemma list_remove_is_Some x l : x ∈ l → is_Some (list_remove x l).
Proof.
  induction l as [|y l IH]; [by intros ?%elem_of_nil|].
  intros Hin. simpl. case_decide; [eauto|].
  apply elem_of_cons in Hin as [?|Hin]; [done|].
  destruct (IH Hin) as [l' ->]. eauto.
Qed.

Lemma list_remove_app_fresh x l rest :
  x ∉ l → list_remove x (l ++ x :: rest) = Some (l ++ rest).
Proof.
  induction l as [|y l IH]; intros Hx; simpl.
  - by rewrite decide_True.
  - apply not_elem_of_cons in Hx as [? ?].
    rewrite decide_False by done. by rewrite IH.
Qed.

Lemma list_remove_subseteq x l l' :
  list_remove x l = Some l' → l' ⊆ l.
Proof.
  revert l'. induction l as [|y l IH]; intros l'; simpl; [done|].
  case_decide.
  - intros [= <-] z Hz. by right.
  - destruct (list_remove x l) as [l0|] eqn:E; [|done].
    intros [= <-] z [->|Hz]%elem_of_cons; [left|right]. by apply (IH l0).
Qed.

Lemma list_remove_filter (P : A → Prop) `{!∀ a, Decision (P a)} x l l' :
  ¬ P x → list_remove x l = Some l' → filter P l' = filter P l.
Proof.
  intros HP. revert l'. induction l as [|y l IH]; intros l'; simpl; [done|].
  case_decide as Hxy.
  - intros [= <-]. subst y. by rewrite filter_cons_False.
  - destruct (list_remove x l) as [l0|] eqn:E; [|done].
    intros [= <-]. rewrite !filter_cons. by rewrite (IH l0).
Qed.

Lemma list_remove_sorted x l l' :
  sorted_by l → list_remove x l = Some l' → sorted_by l'.
Proof.
  unfold sorted_by. revert l'.
  induction l as [|y l IH]; intros l' Hs; simpl; [done|].
  apply StronglySorted_cons in Hs as [Hall Hs].
  case_decide.
  - by intros [= <-].
  - destruct (list_remove x l) as [l0|] eqn:E; [|done].
    intros [= <-]. apply StronglySorted_cons. split; [|by eapply IH].
    eapply Forall_forall. intros z Hz.
    eapply Forall_forall in Hall; [done|].
    by eapply list_remove_subseteq.
Qed.

(** *** The stable sort *)

Lemma insert_by_elem_of x y l : y ∈ insert_by x l ↔ y = x ∨ y ∈ l.
Proof.
  induction l as [|z l IH]; simpl.
  - rewrite list_elem_of_singleton, elem_of_nil. tauto.
  - case_decide.
    + by rewrite elem_of_cons.
    + rewrite !elem_of_cons, IH. tauto.
Qed.

Lemma insert_by_sorted x l : sorted_by l → sorted_by (insert_by x l).
Proof.
  unfold sorted_by. induction l as [|y l IH]; intros Hs; simpl.
  - repeat constructor.
  - pose proof Hs as Hs0.
    apply StronglySorted_cons in Hs as [Hall Hs].
    case_decide as Hle.
    + apply StronglySorted_cons. split; [|done].
      constructor; [done|].
      eapply Forall_impl; [exact Hall|]. unfold key_le. intros; simpl in *. lia.
    + apply StronglySorted_cons. split; [|by apply IH].
      apply Forall_forall. intros z [->|Hz]%insert_by_elem_of.
      * unfold key_le. lia.
      * by eapply Forall_forall in Hall.
Qed.

Lemma sort_by_sorted l : sorted_by (sort_by l).
Proof.
  induction l as [|x l IH]; simpl; [constructor|by apply insert_by_sorted].
Qed.

Lemma insert_by_perm x l : insert_by x l ≡ₚ x :: l.
Proof.
  induction l as [|y l IH]; simpl; [done|].
  case_decide; [done|]. rewrite IH. apply Permutation_swap.
Qed.

Lemma sort_by_perm l : sort_by l ≡ₚ l.
Proof.
  induction l as [|x l IH]; simpl; [done|].
  by rewrite insert_by_perm, IH.
Qed.

Lemma sort_by_elem_of x l : x ∈ sort_by l ↔ x ∈ l.
Proof. by rewrite sort_by_perm. Qed.

Lemma insert_by_head x l : Forall (key_le x) l → insert_by x l = x :: l.
Proof.
  destruct l as [|y l]; [done|]. intros [Hxy _]%Forall_cons. simpl.
  by rewrite decide_True.
Qed.

(** An already sorted list is left as it is. *)
Lemma sort_by_id l : sorted_by l → sort_by l = l.
Proof.
  unfold sorted_by. induction l as [|x l IH]; intros Hs; simpl; [done|].
  apply StronglySorted_cons in Hs as [Hall Hs].
  rewrite IH by done. by apply insert_by_head.
Qed.

(** Stability: the elements of any one key keep their relative order. *)
Lemma insert_by_filter_key k x l :
  sorted_by l →
  filter (λ a, key a = k) (insert_by x l) = filter (λ a, key a = k) (x :: l).
Proof.
  unfold sorted_by. induction l as [|y l IH]; intros Hs; simpl; [done|].
  apply StronglySorted_cons in Hs as [Hall Hs].
  case_decide as Hle; [done|].
  rewrite filter_cons, IH by done. rewrite !filter_cons.
  repeat case_decide; try done. unfold key_le in *. lia.
Qed.

Lemma sort_by_stable k l :
  filter (λ a, key a = k) (sort_by l) = filter (λ a, key a = k) l.
Proof.
  induction l as [|x l IH]; simpl; [done|].
  rewrite insert_by_filter_key by apply sort_by_sorted.
  by rewrite !filter_cons, IH.
Qed.

(** Removing an element commutes with sorting. *)
Lemma list_remove_insert_by_eq x l :
  list_remove x (insert_by x l) = Some l.
Proof.
  induction l as [|y l IH]; simpl.
  - by rewrite decide_True.
  - case_decide as Hle; simpl.
    + by rewrite decide_True.
    + rewrite decide_False by (intros ->; lia). by rewrite IH.
Qed.

Lemma list_remove_insert_by_ne x a l l' :
  x ≠ a → sorted_by l → list_remove x l = Some l' →
  list_remove x (insert_by a l) = Some (insert_by a l').
Proof.
  unfold sorted_by. intros Hne. revert l'.
  induction l as [|y l IH]; intros l' Hs; simpl; [done|].
  apply StronglySorted_cons in Hs as [Hall Hs].
  case_decide as Hxy.
  - intros [= <-]. subst y. case_decide as Hle; simpl.
    + rewrite decide_False, decide_True by done. simpl.
      f_equal. symmetry. apply insert_by_head.
      eapply Forall_impl; [exact Hall|]. unfold key_le. intros; simpl in *. lia.
    + by rewrite decide_True.
  - destruct (list_remove x l) as [l0|] eqn:E; [|done].
    intros [= <-]. simpl. case_decide as Hle; simpl.
    + rewrite decide_False, decide_False, E by done. done.
    + rewrite decide_False by done. by rewrite (IH l0).
Qed.

Lemma list_remove_sort_by x l l' :
  list_remove x l = Some l' → list_remove x (sort_by l) = Some (sort_by l').
Proof.
  revert l'. induction l as [|y l IH]; intros l'; simpl; [done|].
  case_decide as Hxy.
  - intros [= <-]. subst y. apply list_remove_insert_by_eq.
  - destruct (list_remove x l) as [l0|] eqn:E; [|done].
    intros [= <-]. simpl.
    apply list_remove_insert_by_ne; [done|apply sort_by_sorted|by apply IH].
Qed.

Lemma sort_by_nil_inv l : sort_by l = [] → l = [].
Proof.
  intros Hs. apply Permutation_nil_r. by rewrite <-Hs, sort_by_perm.
Qed.
End py_list_facts.

Section dict_facts.
Context {K : Type} `{Countable K} {V : Type} `{EqDecision V}.
Implicit Types m : gmap K (list V).

Lemma dict_append_default k v m : dict_append k v m = defaultdict_append k v m.
Proof.
  unfold dict_append, defaultdict_append. rewrite lookup_total_alt.
  by destruct (m !! k).
Qed.
End dict_facts.

(** ** Facts about the dispatch pipeline *)

Lemma defaultdict_touch_lookup_total {K} `{Countable K} {V}
    (k k' : K) (m : gmap K (list V)) :
  defaultdict_touch k m !!! k' = m !!! k'.
Proof.
  unfold defaultdict_touch. destruct (m !! k) eqn:E; [done|].
  rewrite !lookup_total_alt, lookup_insert. case_decide; [|done].
  subst. by rewrite E.
Qed.

Lemma defaultdict_touch_idemp {K} `{Countable K} {V} (k : K) (m : gmap K (list V)) :
  defaultdict_touch k (defaultdict_touch k m) = defaultdict_touch k m.
Proof.
  unfold defaultdict_touch. destruct (m !! k) eqn:E; [by rewrite E|].
  by rewrite lookup_insert_eq.
Qed.

Lemma touch_post_idemp pm : touch_post (touch_post pm) = touch_post pm.
Proof.
  unfold touch_post. destruct pm; simpl. by rewrite defaultdict_touch_idemp.
Qed.

Section dispatch_facts.
Context {World : Type}.
Variable hook_function : Hook → Event → World → outcome pyval * World.
Variable sieve_function :
  Hook → Event → Hook → World → outcome (option Event) * World.

Implicit Types s : State World.

Lemma post_loop_spec post_event l s :
  ∃ log, trace (post_loop hook_function post_event l s) = trace s ++ log
         ∧ post_chain post_event l log
         ∧ mgr (post_loop hook_function post_event l s) = mgr s
         ∧ next_future (post_loop hook_function post_event l s) = next_future s.
Proof.
  revert s. induction l as [|ph l IH]; intros s; simpl.
  - exists []. by rewrite app_nil_r.
  - unfold internal_launch.
    destruct (hook_function ph (post_event ph) (world s)) as [out w] eqn:E.
    set (s1 := emit _ _).
    destruct (is_stop out) eqn:Hstop.
    + exists [run_hook (threaded ph) ph (post_event ph) out].
      assert (match out with
              | returned (PyBool false) => s1
              | _ => post_loop hook_function post_event l s1
              end = s1) as ->.
      { by destruct out as [[|[]| |]|]. }
      simpl. by rewrite Hstop.
    + destruct (IH s1) as (log & Htr & Hchain & Hmgr & Hfut).
      exists (run_hook (threaded ph) ph (post_event ph) out :: log).
      assert (match out with
              | returned (PyBool false) => s1
              | _ => post_loop hook_function post_event l s1
              end = post_loop hook_function post_event l s1) as ->.
      { by destruct out as [[|[]| |]|]. }
      rewrite Htr, Hmgr, Hfut. simpl. rewrite Hstop, <-app_assoc. done.
Qed.

Lemma run_post_hooks_spec post_event s :
  ∃ log, trace (run_post_hooks hook_function post_event s) = trace s ++ log
         ∧ post_chain post_event (hook_hooks (mgr s) !!! "post"%string) log
         ∧ mgr (run_post_hooks hook_function post_event s) = touch_post (mgr s)
         ∧ next_future (run_post_hooks hook_function post_event s)
           = next_future s.
Proof.
  unfold run_post_hooks.
  edestruct post_loop_spec as (log & Htr & Hchain & Hmgr & Hfut).
  exists log. rewrite Htr, Hmgr, Hfut. simpl in *.
  by rewrite defaultdict_touch_lookup_total in Hchain.
Qed.

Lemma _execute_hook_spec hook event s :
  let out := (hook_function hook event (world s)).1 in
  let r := _execute_hook hook_function hook event s in
  ∃ log,
    r.1 = succeeded out
    ∧ trace r.2 = trace s ++ run_hook (threaded hook) hook event out :: log
    ∧ post_chain (PostHookEvent hook event (result_of out) (error_of out))
        (hook_hooks (mgr s) !!! "post"%string) log
    ∧ mgr r.2 = touch_post (mgr s)
    ∧ next_future r.2 = next_future s.
Proof.
  unfold _execute_hook, internal_launch. simpl.
  destruct (hook_function hook event (world s)) as [out w]. simpl.
  set (s1 := emit _ _).
  assert (∃ post_event ok,
    (let '(ok, result, error) :=
       match out with
       | returned v => (true, v, None)
       | raised e => (false, PyNone, Some e)
       end in
     (ok, run_post_hooks hook_function (PostHookEvent hook event result error) s1))
    = (ok, run_post_hooks hook_function post_event s1)
    ∧ ok = succeeded out
    ∧ post_event = PostHookEvent hook event (result_of out) (error_of out))
    as (pe & ok & -> & -> & ->).
  { destruct out; eauto. }
  destruct (run_post_hooks_spec
              (PostHookEvent hook event (result_of out) (error_of out)) s1)
    as (log & Htr & Hchain & Hmgr & Hfut).
  exists log. simpl. rewrite Htr, Hmgr, Hfut. simpl.
  by rewrite <-app_assoc.
Qed.

(** The calls of a post chain are all reports on the launched hook. *)
Lemma post_chain_about launched ev r er l log :
  post_chain (PostHookEvent launched ev r er) l log →
  Forall (λ e, match e with
               | run_hook _ _ (PostHookEvent launched' _ _ _ _) _ =>
                   launched' = launched
               | _ => False
               end) log.
Proof.
  revert l. induction log as [|e log IH]; intros l; [constructor|].
  destruct e; simpl; try done. destruct l as [|ph l]; [done|].
  intros (-> & -> & -> & Hrest). constructor; [done|].
  destruct (is_stop out); [subst; constructor|by eapply IH].
Qed.

Lemma post_chain_prefix post_event l log :
  post_chain post_event l log → omap run_of log `prefix_of` l.
Proof.
  revert l. induction log as [|e log IH]; intros l; [intros _; apply prefix_nil|].
  destruct e; simpl; try done. destruct l as [|ph l]; [done|].
  intros (-> & _ & _ & Hrest). apply prefix_cons.
  destruct (is_stop out); [subst; apply prefix_nil|by apply IH].
Qed.

Lemma sieve_calls_post_log launched ev r er l log :
  post_chain (PostHookEvent launched ev r er) l log → sieve_calls log = [].
Proof.
  intros Hc%post_chain_about. unfold sieve_calls.
  induction Hc as [|e log He _ IH]; [done|].
  rewrite filter_cons. destruct e; try done.
Qed.

Lemma _sieve_spec sieve event hook s :
  let out := (sieve_function sieve event hook (world s)).1 in
  let r := _sieve hook_function sieve_function sieve event hook s in
  ∃ log,
    r.1 = passed_on out
    ∧ trace r.2
      = trace s ++ run_sieve (threaded sieve) sieve event hook out :: log
    ∧ sieve_calls log = []
    ∧ only_sieving [sieve] log
    ∧ mgr r.2 = touch_post (mgr s)
    ∧ next_future r.2 = next_future s.
Proof.
  unfold _sieve. simpl.
  destruct (sieve_function sieve event hook (world s)) as [out w]. simpl.
  destruct out as [[event'|]|exc]; simpl;
    (edestruct run_post_hooks_spec as (log & Htr & Hchain & Hmgr & Hfut);
     exists log; rewrite Htr, Hmgr, Hfut; simpl; rewrite <-app_assoc;
     split_and!; try done;
     [by eapply sieve_calls_post_log|
      eapply Forall_impl; [by eapply post_chain_about|];
      intros [] He; try done; destruct ev; try done; subst; by left]).
Qed.

Lemma only_sieving_mono l l' tr :
  l ⊆ l' → only_sieving l tr → only_sieving l' tr.
Proof.
  intros Hsub Htr. eapply Forall_impl; [exact Htr|].
  intros [] He; try done. destruct ev; try done. by apply Hsub.
Qed.

Lemma sieve_loop_spec l event hook s :
  let r := sieve_loop hook_function sieve_function l event hook s in
  ∃ tr,
    trace r.2 = trace s ++ tr
    ∧ sieve_chain l event hook (sieve_calls tr) r.1
    ∧ only_sieving l tr
    ∧ (mgr r.2 = mgr s ∨ mgr r.2 = touch_post (mgr s))
    ∧ next_future r.2 = next_future s.
Proof.
  revert event s. induction l as [|sieve l IH]; intros event s; simpl.
  - exists []. rewrite app_nil_r. split_and!; try done; [constructor|by left].
  - destruct (_sieve_spec sieve event hook s)
      as (log & Hres & Htr & Hcalls & Honly & Hmgr & Hfut).
    destruct (_sieve hook_function sieve_function sieve event hook s)
      as [res s1] eqn:E. simpl in *.
    assert (sieve_calls (run_sieve (threaded sieve) sieve event hook
              (sieve_function sieve event hook (world s)).1 :: log)
            = [run_sieve (threaded sieve) sieve event hook
                 (sieve_function sieve event hook (world s)).1]) as Hhead.
    { unfold sieve_calls in *. rewrite filter_cons. simpl. by rewrite Hcalls. }
    destruct res as [event'|].
    + destruct (IH event' s1) as (tr & Htr' & Hchain & Honly' & Hmgr' & Hfut').
      exists (run_sieve (threaded sieve) sieve event hook
                (sieve_function sieve event hook (world s)).1 :: log ++ tr).
      split_and!.
      * rewrite Htr', Htr, <-app_assoc. done.
      * unfold sieve_calls in *. rewrite filter_cons. simpl.
        rewrite filter_app, Hcalls. simpl. rewrite <-Hres. done.
      * constructor; [done|]. apply Forall_app. split.
        -- eapply only_sieving_mono; [|done].
           intros x ->%list_elem_of_singleton. by left.
        -- eapply only_sieving_mono; [|done]. intros x Hx. by right.
      * right. destruct Hmgr' as [->| ->]; rewrite Hmgr; [done|].
        apply touch_post_idemp.
      * by rewrite Hfut', Hfut.
    + exists (run_sieve (threaded sieve) sieve event hook
                (sieve_function sieve event hook (world s)).1 :: log).
      split_and!; try done.
      * rewrite Hhead. simpl. by rewrite <-Hres.
      * constructor; [done|].
        eapply only_sieving_mono; [|done].
           intros x ->%list_elem_of_singleton. by left.
      * by right.
Qed.

Lemma launch_unfold hook event s :
  launch hook_function sieve_function hook event s
  = match sieve_phase hook_function sieve_function hook event s with
    | (None, s1) => Ok false s1
    | (Some event', s1) =>
        if single_thread hook then
          match acquire (hook_key hook) s1 with
          | Ok _ s2 => launch_admitted hook_function hook event' s2
          | Raise e s2 => Raise e s2
          | Await f s2 => Await f s2
          end
        else
          let '(result, s2) := _execute_hook hook_function hook event' s1 in
          Ok result s2
    end.
Proof. reflexivity. Qed.

Lemma sieve_phase_spec hook event s :
  let r := sieve_phase hook_function sieve_function hook event s in
  ∃ tr,
    trace r.2 = trace s ++ tr
    ∧ (if exempt_from_sieves hook then tr = [] ∧ r.1 = Some event
       else sieve_chain (sieves (mgr s)) event hook (sieve_calls tr) r.1)
    ∧ only_sieving (sieves (mgr s)) tr
    ∧ (mgr r.2 = mgr s ∨ mgr r.2 = touch_post (mgr s))
    ∧ next_future r.2 = next_future s.
Proof.
  unfold sieve_phase. destruct (exempt_from_sieves hook).
  - exists []. simpl. rewrite app_nil_r. split_and!; try done; [constructor|by left].
  - apply sieve_loop_spec.
Qed.

Lemma dispatch_frame_refl pm : dispatch_frame pm pm.
Proof. exists false, (_hook_waiting_queues pm). by destruct pm. Qed.

Lemma dispatch_frame_trans pm1 pm2 pm3 :
  dispatch_frame pm1 pm2 → dispatch_frame pm2 pm3 → dispatch_frame pm1 pm3.
Proof.
  intros (b1 & q1 & ->) (b2 & q2 & ->). exists (b1 || b2), q2.
  destruct pm1, b1, b2; unfold touch_post; simpl;
    rewrite ?defaultdict_touch_idemp; done.
Qed.

Lemma dispatch_frame_touch pm pm' :
  pm' = pm ∨ pm' = touch_post pm → dispatch_frame pm pm'.
Proof.
  intros [->| ->]; [apply dispatch_frame_refl|].
  exists true, (_hook_waiting_queues pm). by destruct pm.
Qed.

Lemma dispatch_frame_queues pm pm' q :
  dispatch_frame pm pm' → dispatch_frame pm (set_hook_waiting_queues q pm').
Proof. intros (b & q' & ->). exists b, q. by destruct pm, b. Qed.

Lemma launch_admitted_spec hook event s :
  let out := (hook_function hook event (world s)).1 in
  let r := launch_admitted hook_function hook event s in
  ∃ log,
    trace (res_state r)
    = trace s ++ run_hook (threaded hook) hook event out :: log
    ∧ post_chain (PostHookEvent hook event (result_of out) (error_of out))
        (hook_hooks (mgr s) !!! "post"%string) log
    ∧ dispatch_frame (mgr s) (mgr (res_state r))
    ∧ (is_Some (_hook_waiting_queues (mgr s) !! hook_key hook) →
       ∃ woken s', r = Ok (succeeded out) s'
         ∧ release (hook_key hook)
             (_execute_hook hook_function hook event s).2 = Ok woken s').
Proof.
  simpl. unfold launch_admitted.
  destruct (_execute_hook_spec hook event s)
    as (log & Hok & Htr & Hchain & Hmgr & Hfut).
  destruct (_execute_hook hook_function hook event s) as [ok s1]. simpl in *.
  exists log. unfold mbind, M_bind, release, set_queues.
  assert (_hook_waiting_queues (mgr s1) = _hook_waiting_queues (mgr s)) as Hq.
  { rewrite Hmgr. by destruct (mgr s). }
  rewrite Hq.
  assert (dispatch_frame (mgr s) (mgr s1)) as Hfr.
  { apply dispatch_frame_touch. by right. }
  destruct (_hook_waiting_queues (mgr s) !! hook_key hook) as [[[|f q]|]|];
    simpl; (split_and!; [done|done|by try apply dispatch_frame_queues|]);
    [intros _; subst ok; eauto..|by intros [? ?]].
Qed.

Lemma dispatch_frame_post pm pm' k :
  dispatch_frame pm pm' → hook_hooks pm' !!! k = hook_hooks pm !!! k.
Proof.
  intros (b & q & ->). destruct pm, b; simpl; [|done].
  apply defaultdict_touch_lookup_total.
Qed.

Lemma dispatch_frame_sieves pm pm' :
  dispatch_frame pm pm' → sieves pm' = sieves pm.
Proof. intros (b & q & ->). by destruct pm, b. Qed.

(** Every way a [launch] can go. *)
Lemma launch_spec hook event s :
  let r := launch hook_function sieve_function hook event s in
  ∃ pre final,
    (if exempt_from_sieves hook then pre = [] ∧ final = Some event
     else sieve_chain (sieves (mgr s)) event hook (sieve_calls pre) final)
    ∧ only_sieving (sieves (mgr s)) pre
    ∧ dispatch_frame (mgr s) (mgr (res_state r))
    ∧ match final with
      | None => r = Ok false (res_state r)
                ∧ trace (res_state r) = trace s ++ pre
                ∧ _hook_waiting_queues (mgr (res_state r))
                  = _hook_waiting_queues (mgr s)
      | Some event' =>
          match r with
          | Ok b s' =>
              (single_thread hook = false
               ∨ _hook_waiting_queues (mgr s) !! hook_key hook = None)
              ∧ _hook_waiting_queues (mgr s') = _hook_waiting_queues (mgr s)
              ∧ next_future s' = next_future s
              ∧ ∃ out log,
                  b = succeeded out
                  ∧ trace s' = trace s ++ pre
                               ++ run_hook (threaded hook) hook event' out :: log
                  ∧ post_chain
                      (PostHookEvent hook event' (result_of out) (error_of out))
                      (hook_hooks (mgr s) !!! "post"%string) log
          | Await f s' =>
              single_thread hook = true
              ∧ is_Some (_hook_waiting_queues (mgr s) !! hook_key hook)
              ∧ trace s' = trace s ++ pre
          | Raise _ _ => False
          end
      end.
Proof.
  simpl. rewrite launch_unfold.
  destruct (sieve_phase_spec hook event s)
    as (pre & Htr & Hchain & Honly & Hmgr & Hfut).
  destruct (sieve_phase hook_function sieve_function hook event s) as [final s1]. simpl in *.
  exists pre, final.
  assert (_hook_waiting_queues (mgr s1) = _hook_waiting_queues (mgr s)) as Hq.
  { destruct Hmgr as [->| ->]; [done|]. by destruct (mgr s). }
  apply dispatch_frame_touch in Hmgr.
  split_and!; [done|done|..].
  - destruct final as [event'|]; [|done].
    destruct (single_thread hook) eqn:Hst.
    + unfold acquire. rewrite Hq.
      destruct (_hook_waiting_queues (mgr s) !! hook_key hook) eqn:Hk; simpl.
      * by apply dispatch_frame_queues.
      * edestruct launch_admitted_spec as (log & _ & _ & Hfr & _).
        eapply dispatch_frame_trans; [|exact Hfr].
        by apply dispatch_frame_queues.
    + destruct (_execute_hook_spec hook event' s1)
        as (log & _ & _ & _ & Hm & _).
      destruct (_execute_hook hook_function hook event' s1) as [ok s2].
      simpl in *. eapply dispatch_frame_trans; [exact Hmgr|].
      apply dispatch_frame_touch. by right.
  - destruct final as [event'|]; [|done].
    destruct (single_thread hook) eqn:Hst.
    + unfold acquire. rewrite Hq.
      destruct (_hook_waiting_queues (mgr s) !! hook_key hook) eqn:Hk; simpl.
      { split_and!; by eauto. }
      set (s2 := set_queues _ s1).
      destruct (launch_admitted_spec hook event' s2)
        as (log & Htr2 & Hchain2 & Hfr & Hrel).
      destruct Hrel as (woken & s' & Hr & Hrel).
      { subst s2. simpl. rewrite lookup_insert_eq. eauto. }
      rewrite Hr in *. simpl in *.
      destruct (_execute_hook_spec hook event' s2)
        as (log' & _ & _ & _ & Hm' & Hf').
      unfold release in Hrel.
      assert (_hook_waiting_queues
                (mgr (_execute_hook hook_function hook event' s2).2)
              = <[hook_key hook := None]> (_hook_waiting_queues (mgr s)))
        as Hq2.
      { rewrite Hm'. subst s2. simpl. rewrite <-Hq. by destruct (mgr s1). }
      rewrite Hq2, lookup_insert_eq in Hrel. injection Hrel as <- <-.
      split_and!.
      * by right.
      * simpl. destruct (mgr _). simpl.
        rewrite delete_insert_eq. by apply delete_id.
      * simpl. rewrite Hf'. by subst s2.
      * eexists _, log. split; [done|]. rewrite Htr2. subst s2. simpl.
        rewrite Htr, <-app_assoc. split; [done|].
        erewrite <-(dispatch_frame_post (mgr s)); [exact Hchain2|].
        exact Hmgr.
    + destruct (_execute_hook_spec hook event' s1)
        as (log & Hok & Htr2 & Hchain2 & Hm & Hf).
      destruct (_execute_hook hook_function hook event' s1) as [ok s2].
      simpl in *. split_and!.
      * by left.
      * rewrite Hm, <-Hq. by destruct (mgr s1).
      * by rewrite Hf.
      * eexists _, log. split; [done|]. rewrite Htr2, Htr, <-app_assoc.
        split; [done|].
        by erewrite <-(dispatch_frame_post (mgr s)).
Qed.
End dispatch_facts.

(** ** The dispatch claims *)

Section dispatch_claims.
Context {World : Type}.
Variable hook_function : Hook → Event → World → outcome pyval * World.
Variable sieve_function :
  Hook → Event → Hook → World → outcome (option Event) * World.

Implicit Types s : State World.

Lemma sieve_chain_prefix l event hook calls final :
  sieve_chain l event hook calls final → omap sieve_of calls `prefix_of` l.
Proof.
  revert l event. induction calls as [|e calls IH]; intros l event.
  { intros _. apply prefix_nil. }
  destruct e; simpl; try done. destruct l as [|first l]; [done|].
  intros (-> & _ & _ & _ & Hrest). apply prefix_cons.
  destruct (passed_on out) as [event'|]; [by eapply IH|].
  destruct Hrest as [-> _]. apply prefix_nil.
Qed.

Lemma sorted_by_prefix {A} (key : A → Z) (l1 l2 : list A) :
  l1 `prefix_of` l2 → sorted_by key l2 → sorted_by key l1.
Proof. intros [k ->]. apply StronglySorted_app_1_l. Qed.

Lemma sieve_calls_app tr1 tr2 :
  sieve_calls (tr1 ++ tr2) = sieve_calls tr1 ++ sieve_calls tr2.
Proof. apply filter_app. Qed.

Lemma sieve_calls_run_hook in_executor h ev out tr :
  sieve_calls (run_hook in_executor h ev out :: tr) = sieve_calls tr.
Proof. done. Qed.

Lemma no_sieve_call_post_log launched ev r er l log :
  post_chain (PostHookEvent launched ev r er) l log → no_sieve_call log.
Proof.
  intros Hc%post_chain_about. eapply Forall_impl; [exact Hc|].
  by intros [].
Qed.

Lemma length_omap_run_of post_event l log :
  post_chain post_event l log → length (omap run_of log) = length log.
Proof.
  revert l. induction log as [|e log IH]; intros l; [done|].
  destruct e; simpl; try done. destruct l as [|ph l]; [done|].
  intros (_ & _ & _ & Hrest). f_equal.
  destruct (is_stop out); [by subst|by eapply IH].
Qed.


(** In a post chain a stop signal ends the calls, and the calls end
    before the list does only on a stop signal. *)
Lemma post_chain_stops post_event l log :
  post_chain post_event l log →
  (∀ i e, log !! i = Some e → is_stop (out_of e) = true → length log = S i)
  ∧ ((length log < length l)%nat →
     ∃ e, last log = Some e ∧ is_stop (out_of e) = true).
Proof.
  revert l. induction log as [|e log IH]; intros l.
  { simpl. intros ->. split; [done|]. simpl. lia. }
  destruct e; simpl; try done. destruct l as [|ph l]; [done|].
  intros (-> & -> & -> & Hrest).
  destruct (is_stop out) eqn:Hstop.
  - subst log. split.
    + intros [|i] e; simpl; [done|]. by rewrite lookup_nil.
    + intros _. eexists. split; [done|]. done.
  - destruct (IH l Hrest) as [IH1 IH2]. split.
    + intros [|i] e; simpl.
      * intros [= <-]. simpl. congruence.
      * intros Hi He. f_equal. by eapply IH1.
    + simpl. intros Hlen. destruct IH2 as (e & Hlast & He); [lia|].
      exists e. split; [|done]. destruct log; [done|]. done.
Qed.


(** C9, as the code has it: the post hooks are called through
    [internal_launch] alone.  Each call runs in the post hook's own mode
    (executor or coroutine) and is one call on the report of the launched
    hook, so no post hook is called on the report of a post-hook call; and
    the calls neither read nor change the waiting queues nor create a
    future, also for a post hook that is [single_thread]. *)
Theorem C9_post_hooks_run_unserialized hook event s :
  let r := _execute_hook hook_function hook event s in
  ∃ out log,
    trace r.2 = trace s ++ run_hook (threaded hook) hook event out :: log
    ∧ post_chain (PostHookEvent hook event (result_of out) (error_of out))
        (hook_hooks (mgr s) !!! "post"%string) log
    ∧ Forall (λ e, match e with
                   | run_hook in_executor ph
                       (PostHookEvent launched ev _ _ ph') _ =>
                       in_executor = threaded ph ∧ ph' = ph
                       ∧ launched = hook ∧ ev = event
                   | _ => False
                   end) log
    ∧ (length log ≤ length (hook_hooks (mgr s) !!! "post"%string))%nat
    ∧ _hook_waiting_queues (mgr r.2) = _hook_waiting_queues (mgr s)
    ∧ next_future r.2 = next_future s.
Proof.
  simpl. destruct (_execute_hook_spec hook_function hook event s)
    as (log & _ & Htr & Hchain & Hmgr & Hfut).
  eexists _, log. split_and!; try done.
  - clear -Hchain. revert Hchain.
    generalize (hook_hooks (mgr s) !!! "post"%string).
    induction log as [|e log IH]; intros l; [constructor|].
    destruct e; simpl; try done. destruct l as [|ph l]; [done|].
    intros (-> & -> & -> & Hrest). constructor; [done|].
    destruct (is_stop out); [subst; constructor|by eapply IH].
  - pose proof (length_omap_run_of _ _ _ Hchain) as <-.
    by apply prefix_length, post_chain_prefix with (post_event := PostHookEvent hook event (result_of (hook_function hook event (world s)).1) (error_of (hook_function hook event (world s)).1)).
  - rewrite Hmgr. by destruct (mgr s).
Qed.
End dispatch_claims.


(** The dispatch of the witness, run: the second sieve rejects, the third
    sieve and the command are never called. *)
Example C3_rejected_run :
  demo.launch demo.cmd demo.ev0 demo.filtering
  = Ok false (res_state (demo.launch demo.cmd demo.ev0 demo.filtering))
  ∧ omap sieve_of
      (sieve_calls (trace (res_state
                             (demo.launch demo.cmd demo.ev0 demo.filtering))))
    = [demo.s_low; demo.s_reject].
Proof. split; vm_compute; reflexivity. Qed.


(** The same dispatch, run: the failing post hook does not end the chain,
    the one that returns [False] does, and [launch] still returns [True]. *)
Example C4_chain_run :
  ∃ s', demo.launch demo.cmd demo.ev0 demo.notifying = Ok true s'
        ∧ omap run_of (trace s') = [demo.cmd; demo.p_fail; demo.p_stop].
Proof. eexists. split; vm_compute; reflexivity. Qed.

(** C9, as stated, fails: [p_excl] is a [single_thread] post hook whose key
    holds the marker, so a launch of it would be parked on a future; the
    post chain calls it all the same and leaves the entry as it was. *)
Lemma C9_counterexample :
  let r := _execute_hook demo.hook_function demo.cmd demo.ev0 demo.busy in
  (demo.p_excl ∈ hook_hooks (mgr demo.busy) !!! "post"%string)
  ∧ single_thread demo.p_excl = true
  ∧ (∃ f s', acquire (hook_key demo.p_excl) demo.busy = Await f s')
  ∧ omap run_of (trace r.2) = [demo.cmd; demo.p_excl]
  ∧ _hook_waiting_queues (mgr r.2) = _hook_waiting_queues (mgr demo.busy)
  ∧ next_future r.2 = next_future demo.busy.
Proof.
  simpl. split_and!.
  - apply (proj1 (bool_decide_eq_true _)). vm_compute. reflexivity.
  - reflexivity.
  - eexists _, _. vm_compute. reflexivity.
  - vm_compute. reflexivity.
  - vm_compute. reflexivity.
  - vm_compute. reflexivity.
Qed.

(** ** The serialization queue *)

Section queue_claims.
Context {World : Type}.
Variable key : string * string.

Implicit Types (s : State World) (c : KeyRun World).

Lemma key_step_inv c c' : key_inv key c → key_step key c c' → key_inv key c'.
Proof.
  unfold key_inv, entry. intros Hinv Hstep.
  destruct Hstep as [s s' n p Ha|s s' f n p Ha|s s' n p Hr|s s' f n p Hr
                    |s s' n p Hsame]; simpl in *.
  - unfold acquire in Ha.
    destruct (_hook_waiting_queues (mgr s) !! key) as [q|] eqn:E; [done|].
    injection Ha as <-. simpl.
    destruct (mgr s); simpl in *. rewrite lookup_insert_eq.
    destruct Hinv as [-> ->]. done.
  - unfold acquire in Ha.
    destruct (_hook_waiting_queues (mgr s) !! key) as [q|] eqn:E; [|done].
    injection Ha as <- <-. simpl.
    destruct (mgr s); simpl in *. rewrite lookup_insert_eq.
    destruct Hinv as [-> ->]. done.
  - unfold release in Hr.
    destruct (_hook_waiting_queues (mgr s) !! key) as [[[|f q]|]|] eqn:E;
      try done; injection Hr as <-; simpl;
      destruct (mgr s); simpl in *; rewrite lookup_delete_eq;
      destruct Hinv as [[= ->] ->]; done.
  - unfold release in Hr.
    destruct (_hook_waiting_queues (mgr s) !! key) as [[[|g q]|]|] eqn:E;
      try done. injection Hr as <- <-. simpl.
    destruct (mgr s); simpl in *. rewrite lookup_insert_eq.
    destruct Hinv as [[= ->] ->]. simpl. by rewrite decide_True.
  - by rewrite Hsame.
Qed.

Lemma key_run_inv c0 c : key_idle key c0 → rtc (key_step key) c0 c → key_inv key c.
Proof.
  intros (He & Hr & Hp) Hrun.
  assert (key_inv key c0) as Hinv by (unfold key_inv; by rewrite He).
  clear He Hr Hp. induction Hrun as [|c1 c2 c3 Hstep _ IH]; [done|].
  apply IH. by eapply key_step_inv.
Qed.

End queue_claims.


(** ** Folds over the hooks of a plugin *)

Lemma fold_exn_app {A C} (f : C → A → exn + C) (l1 l2 : list A) (c : C) :
  fold_exn f (l1 ++ l2) c = exn_bind (fold_exn f l1 c) (fold_exn f l2).
Proof.
  revert c. induction l1 as [|a l1 IH]; intros c; [done|].
  simpl. destruct (f c a); simpl; [done|apply IH].
Qed.

Section fold_facts.
Context {A B C : Type}.

Lemma foldl_nested (f : C → A → B → C) (g : A → list B) (l : list A) (c : C) :
  foldl (λ c a, foldl (λ c b, f c a b) c (g a)) c l
  = foldl (λ c ba, f c ba.2 ba.1) c (l ≫= λ a, (λ b, (b, a)) <$> g a).
Proof.
  revert c. induction l as [|a l IH]; intros c; [done|].
  rewrite bind_cons, foldl_app, <-IH. simpl. f_equal.
  generalize (g a). intros bs. revert c.
  induction bs as [|b bs IHb]; intros c; [done|]. simpl. by rewrite IHb.
Qed.

Lemma fold_exn_nested (f : C → A → B → exn + C) (g : A → list B)
    (l : list A) (c : C) :
  fold_exn (λ c a, fold_exn (λ c b, f c a b) (g a) c) l c
  = fold_exn (λ c ba, f c ba.2 ba.1) (l ≫= λ a, (λ b, (b, a)) <$> g a) c.
Proof.
  revert c. induction l as [|a l IH]; intros c; [done|].
  rewrite bind_cons, fold_exn_app. simpl.
  assert (fold_exn (λ c b, f c a b) (g a) c
          = fold_exn (λ c ba, f c ba.2 ba.1) ((λ b, (b, a)) <$> g a) c) as ->.
  { generalize (g a). intros bs. revert c.
    induction bs as [|b bs IHb]; intros c; [done|]. simpl.
    destruct (f c a b); simpl; [done|apply IHb]. }
  destruct (fold_exn _ (_ <$> g a) c); simpl; [done|apply IH].
Qed.
End fold_facts.

Lemma append_all_app hs l : append_all hs l = l ++ hs.
Proof.
  unfold append_all. revert l. induction hs as [|h hs IH]; intros l; simpl.
  - by rewrite app_nil_r.
  - by rewrite IH, <-app_assoc.
Qed.

(** ** Dicts of lists *)

Section keyed_facts.
Context {K : Type} `{Countable K}.
Implicit Types (d : gmap K (list Hook)) (prs : list (K * Hook)).

Lemma hooks_at_cons k k' h prs :
  hooks_at k ((k', h) :: prs)
  = if decide (k' = k) then h :: hooks_at k prs else hooks_at k prs.
Proof. unfold hooks_at. rewrite filter_cons. simpl. by case_decide. Qed.

Lemma no_empty_eq d1 d2 :
  no_empty d1 → no_empty d2 → (∀ k, d1 !!! k = d2 !!! k) → d1 = d2.
Proof.
  intros H1 H2 Heq. apply map_eq. intros k. specialize (Heq k).
  rewrite !lookup_total_alt in Heq.
  destruct (d1 !! k) as [l1|] eqn:E1, (d2 !! k) as [l2|] eqn:E2;
    simpl in *; try done.
  - by subst.
  - subst. by destruct (H1 _ _ E1).
  - subst. by destruct (H2 _ _ E2).
Qed.

Lemma defaultdict_append_lookup_total k k' h d :
  defaultdict_append k h d !!! k'
  = if decide (k = k') then d !!! k ++ [h] else d !!! k'.
Proof.
  unfold defaultdict_append. rewrite !lookup_total_alt, lookup_insert.
  by case_decide.
Qed.

Lemma defaultdict_append_no_empty k h d :
  no_empty d → no_empty (defaultdict_append k h d).
Proof.
  intros Hne k' l. unfold defaultdict_append. rewrite lookup_insert.
  case_decide; [|by apply Hne]. intros [= <-]. by destruct (d !!! k).
Qed.

(** Registration, key by key. *)
Lemma register_pairs_lookup_total prs d k :
  foldl (λ d kh, defaultdict_append kh.1 kh.2 d) d prs !!! k
  = d !!! k ++ hooks_at k prs.
Proof.
  revert d. induction prs as [|[k' h] prs IH]; intros d; simpl.
  - by rewrite app_nil_r.
  - rewrite IH, defaultdict_append_lookup_total, hooks_at_cons.
    case_decide; [subst; by rewrite <-app_assoc|done].
Qed.

Lemma register_pairs_no_empty prs d :
  no_empty d → no_empty (foldl (λ d kh, defaultdict_append kh.1 kh.2 d) d prs).
Proof.
  revert d. induction prs as [|[k' h] prs IH]; intros d Hne; [done|].
  simpl. by apply IH, defaultdict_append_no_empty.
Qed.

Lemma register_keyed_pairs (keys : Hook → list K) hs d :
  register_keyed keys hs d
  = foldl (λ d kh, defaultdict_append kh.1 kh.2 d) d (key_pairs keys hs).
Proof.
  unfold register_keyed, key_pairs.
  by rewrite (foldl_nested (λ d h k, defaultdict_append k h d)).
Qed.

Lemma fmap_lookup_total_sorted (f : list Hook → list Hook) d k :
  f [] = [] → (f <$> d) !!! k = f (d !!! k).
Proof.
  intros Hf. rewrite !lookup_total_alt, lookup_fmap. by destruct (d !! k).
Qed.

Lemma fmap_no_empty (f : list Hook → list Hook) d :
  (∀ l, f l = [] → l = []) → no_empty d → no_empty (f <$> d).
Proof.
  intros Hf Hne k l. rewrite lookup_fmap.
  destruct (d !! k) as [l0|] eqn:E; [|done]. simpl. intros [= <-].
  intros ?%Hf. by eapply Hne.
Qed.
End keyed_facts.

Section unregister_facts.
Context {K : Type} `{Countable K}.
Implicit Types (d : gmap K (list Hook)) (prs : list (K * Hook)).

Lemma pruned_lookup_total k k' l d :
  pruned k l d !!! k' = if decide (k = k') then l else d !!! k'.
Proof.
  unfold pruned. destruct l; simpl.
  - rewrite !lookup_total_alt, lookup_delete. by case_decide.
  - rewrite !lookup_total_alt, lookup_insert. by case_decide.
Qed.

Lemma pruned_no_empty k l d : no_empty d → no_empty (pruned k l d).
Proof.
  intros Hne k' l'. unfold pruned. destruct l; simpl.
  - rewrite lookup_delete. case_decide; [done|]. apply Hne.
  - rewrite lookup_insert. case_decide; [by intros [= <-]|apply Hne].
Qed.

Lemma dict_remove_del_inr asserted k h d d' :
  dict_remove_del asserted k h d = inr d' ↔
  ∃ l, list_remove h (d !!! k) = Some l ∧ d' = pruned k l d.
Proof.
  unfold dict_remove_del. split.
  - destruct (asserted && bool_decide (d !! k = None)); [done|].
    destruct (list_remove h (d !!! k)) as [[|x l]|]; [| |done];
      intros [= <-]; eauto.
  - intros (l & Hl & ->). rewrite Hl.
    assert (d !! k ≠ None) as Hk.
    { intros Hk. apply list_remove_elem_of in Hl.
      rewrite lookup_total_alt, Hk in Hl. by apply elem_of_nil in Hl. }
    rewrite (bool_decide_eq_false_2 _ Hk), andb_false_r. by destruct l.
Qed.

Lemma defaultdict_remove_Some k h d d' :
  defaultdict_remove k h d = Some d' ↔
  ∃ l, list_remove h (d !!! k) = Some l ∧ d' = <[k := l]> d.
Proof.
  unfold defaultdict_remove. split.
  - destruct (list_remove h (d !!! k)) as [l|]; [|done].
    simpl. intros [= <-]. eauto.
  - intros (l & -> & ->). done.
Qed.

Lemma removal_step_del asserted :
  removal_step (λ d kh, dict_remove_del asserted kh.1 kh.2 d) no_empty.
Proof.
  intros d k h. simpl. split.
  - intros d' (l & Hl & ->)%dict_remove_del_inr. exists l. split; [done|].
    intros k'. apply pruned_lookup_total.
  - intros l Hl. exists (pruned k l d). split_and!.
    + apply dict_remove_del_inr. eauto.
    + intros k'. apply pruned_lookup_total.
    + apply pruned_no_empty.
Qed.

Lemma removal_step_keep :
  removal_step (λ d kh, of_option ValueError (defaultdict_remove kh.1 kh.2 d))
    (λ _, True).
Proof.
  intros d k h. simpl. split.
  - intros d'. destruct (defaultdict_remove k h d) as [d''|] eqn:E; [|done].
    simpl. intros [= <-]. apply defaultdict_remove_Some in E as (l & Hl & ->).
    exists l. split; [done|]. intros k'.
    rewrite !lookup_total_alt, lookup_insert. by case_decide.
  - intros l Hl. exists (<[k := l]> d). split_and!; [|intros k'|done].
    + assert (defaultdict_remove k h d = Some (<[k := l]> d)) as ->; [|done].
      apply defaultdict_remove_Some. eauto.
    + rewrite !lookup_total_alt, lookup_insert. by case_decide.
Qed.

Section with_step.
Variable step : gmap K (list Hook) → K * Hook → exn + gmap K (list Hook).
Variable I : gmap K (list Hook) → Prop.
Hypothesis Hstep : removal_step step I.

(** Unregistering what was registered (and then mapped through [f], the
    sort or nothing) gives back the lists there were. *)
Lemma unregister_pairs_roundtrip (f : list Hook → list Hook) prs d0 d :
  (∀ h l l', list_remove h l = Some l' → list_remove h (f l) = Some (f l')) →
  (∀ k h, (k, h) ∈ prs → h ∉ d0 !!! k) →
  (∀ k, d !!! k = f (d0 !!! k ++ hooks_at k prs)) →
  I d →
  ∃ d', fold_exn step prs d = inr d' ∧ I d' ∧ ∀ k, d' !!! k = f (d0 !!! k).
Proof.
  intros Hf. revert d. induction prs as [|[k h] prs IH]; intros d Hfresh Hd HI.
  - exists d. split_and!; [done|done|]. intros k. rewrite Hd.
    unfold hooks_at. simpl. by rewrite app_nil_r.
  - simpl.
    assert (list_remove h (d !!! k)
            = Some (f (d0 !!! k ++ hooks_at k prs))) as Hrm.
    { rewrite Hd, hooks_at_cons, decide_True by done. apply Hf.
      apply list_remove_app_fresh. apply Hfresh. by left. }
    destruct (proj2 (Hstep d k h) _ Hrm) as (d1 & -> & Hd1 & HI1). simpl.
    apply IH; [|intros k'|by apply HI1].
    + intros k' h' Hin. apply Hfresh. by right.
    + rewrite Hd1. case_decide; [by subst|].
      rewrite Hd, hooks_at_cons, decide_False by done. done.
Qed.

(** Whatever is unregistered, the hooks outside [P] stay, in order. *)
Lemma unregister_pairs_frame (P : Hook → Prop) `{!∀ h, Decision (P h)} prs d d' :
  (∀ k h, (k, h) ∈ prs → ¬ P h) →
  fold_exn step prs d = inr d' →
  ∀ k, filter P (d' !!! k) = filter P (d !!! k).
Proof.
  revert d. induction prs as [|[k h] prs IH]; intros d HP; simpl.
  { by intros [= <-]. }
  destruct (step d (k, h)) as [e|d1] eqn:E; [done|]. simpl. intros Hfold k'.
  rewrite (IH d1); [|intros k0 h0 Hin; eapply HP; by right|done].
  destruct (proj1 (Hstep d k h) _ E) as (l & Hl & Hd1). rewrite Hd1.
  case_decide; [subst|done]. eapply list_remove_filter; [|done].
  eapply HP. by left.
Qed.

Lemma unregister_pairs_sorted prs d d' :
  (∀ k, sorted_by priority (d !!! k)) →
  fold_exn step prs d = inr d' →
  ∀ k, sorted_by priority (d' !!! k).
Proof.
  revert d. induction prs as [|[k h] prs IH]; intros d Hs; simpl.
  { by intros [= <-]. }
  destruct (step d (k, h)) as [e|d1] eqn:E; [done|]. simpl. intros Hfold.
  apply (IH d1); [|done]. intros k'.
  destruct (proj1 (Hstep d k h) _ E) as (l & Hl & Hd1). rewrite Hd1.
  case_decide; [|done]. by eapply list_remove_sorted.
Qed.

Lemma unregister_pairs_inv prs d d' :
  (∀ d k h d', step d (k, h) = inr d' → I d → I d') →
  I d → fold_exn step prs d = inr d' → I d'.
Proof.
  intros HI. revert d. induction prs as [|[k h] prs IH]; intros d Hd; simpl.
  { by intros [= <-]. }
  destruct (step d (k, h)) as [e|d1] eqn:E; [done|]. simpl.
  apply IH. by eapply HI.
Qed.
End with_step.

Lemma dict_remove_del_no_empty asserted d k h d' :
  dict_remove_del asserted k h d = inr d' → no_empty d → no_empty d'.
Proof. intros (l & _ & ->)%dict_remove_del_inr. apply pruned_no_empty. Qed.

Lemma all_sorted_lookup_total d :
  all_sorted d ↔ ∀ k, sorted_by priority (d !!! k).
Proof.
  unfold all_sorted. split.
  - intros Hs k. rewrite lookup_total_alt.
    destruct (d !! k) eqn:E; [by eapply Hs|constructor].
  - intros Hs k l Hk. specialize (Hs k).
    by rewrite lookup_total_alt, Hk in Hs.
Qed.

Lemma unregister_keyed_pairs asserted (keys : Hook → list K) hs d :
  unregister_keyed asserted keys hs d
  = fold_exn (λ d kh, dict_remove_del asserted kh.1 kh.2 d) (key_pairs keys hs) d.
Proof.
  unfold unregister_keyed, key_pairs.
  by rewrite (fold_exn_nested (λ d h k, dict_remove_del asserted k h d)).
Qed.

Lemma unregister_keyed_keep_pairs (keys : Hook → list K) hs d :
  unregister_keyed_keep keys hs d
  = fold_exn (λ d kh, of_option ValueError (defaultdict_remove kh.1 kh.2 d))
      (key_pairs keys hs) d.
Proof.
  unfold unregister_keyed_keep, key_pairs.
  by rewrite (fold_exn_nested
                (λ d h k, of_option ValueError (defaultdict_remove k h d))).
Qed.
End unregister_facts.

(** ** Plain lists of hooks *)

Section remove_all_facts.
Context {A : Type} `{EqDecision A}.
Implicit Types (x : A) (l xs : list A).

Lemma remove_all_roundtrip (f : list A → list A) xs l :
  (∀ x l l', list_remove x l = Some l' → list_remove x (f l) = Some (f l')) →
  (∀ x, x ∈ xs → x ∉ l) →
  remove_all xs (f (l ++ xs)) = inr (f l).
Proof.
  intros Hf. unfold remove_all.
  induction xs as [|x xs IH]; intros Hfresh; simpl.
  - by rewrite app_nil_r.
  - rewrite (Hf x _ (l ++ xs)); simpl.
    + apply IH. intros y Hy. apply Hfresh. by right.
    + apply list_remove_app_fresh, Hfresh. by left.
Qed.

Lemma remove_all_frame (P : A → Prop) `{!∀ x, Decision (P x)} xs l l' :
  (∀ x, x ∈ xs → ¬ P x) →
  remove_all xs l = inr l' → filter P l' = filter P l.
Proof.
  unfold remove_all. revert l. induction xs as [|x xs IH]; intros l HP; simpl.
  { by intros [= <-]. }
  destruct (list_remove x l) as [l1|] eqn:E; [|done]. simpl. intros Hrest.
  rewrite (IH l1); [|intros y Hy; apply HP; by right|done].
  eapply list_remove_filter; [|done]. apply HP. by left.
Qed.

Lemma remove_all_sorted (key : A → Z) xs l l' :
  sorted_by key l → remove_all xs l = inr l' → sorted_by key l'.
Proof.
  unfold remove_all. revert l. induction xs as [|x xs IH]; intros l Hs; simpl.
  { by intros [= <-]. }
  destruct (list_remove x l) as [l1|] eqn:E; [|done]. simpl.
  apply IH. by eapply list_remove_sorted.
Qed.
End remove_all_facts.

(** ** The command map *)

Section command_facts.
Variable config : Config.
Variable ttl : string.
Implicit Types (cmds : gmap string Hook) (prs : list (string * Hook)).

Lemma alias_step_lookup acc a h b :
  ((alias_step ttl) acc (a, h)).1 !! b
  = match acc.1 !! b with
    | Some o => Some o
    | None => if decide (a = b) then Some h else None
    end.
Proof.
  unfold alias_step, register_alias. simpl.
  destruct (acc.1 !! a) as [o|] eqn:E; simpl.
  - destruct (acc.1 !! b) eqn:Eb; [done|]. case_decide; [congruence|done].
  - rewrite lookup_insert. case_decide; [subst; by rewrite E|].
    by destruct (acc.1 !! b).
Qed.

Lemma alias_steps_lookup prs acc b :
  (foldl (alias_step ttl) acc prs).1 !! b = owner_after acc.1 prs b.
Proof.
  unfold owner_after. revert acc.
  induction prs as [|[a h] prs IH]; intros acc; simpl.
  - unfold hooks_at. simpl. by destruct (acc.1 !! b).
  - rewrite IH, alias_step_lookup, hooks_at_cons.
    destruct (acc.1 !! b); [done|]. by case_decide.
Qed.

Lemma alias_step_log acc kh e : e ∈ acc.2 → e ∈ ((alias_step ttl) acc kh).2.
Proof.
  unfold alias_step, register_alias. destruct (acc.1 !! kh.1); simpl; [|done].
  intros ?. apply elem_of_app. by left.
Qed.

Lemma alias_steps_log prs acc e :
  e ∈ acc.2 → e ∈ (foldl (alias_step ttl) acc prs).2.
Proof.
  revert acc. induction prs as [|kh prs IH]; intros acc; [done|].
  simpl. intros ?. by apply IH, alias_step_log.
Qed.

(** A pair whose alias is held when its turn comes is logged. *)
Lemma alias_steps_conflict pre a h post acc o :
  owner_after acc.1 pre a = Some o →
  log_conflict ttl a (plugin_title o)
  ∈ (foldl (alias_step ttl) acc (pre ++ (a, h) :: post)).2.
Proof.
  intros Ho. rewrite foldl_app. simpl. apply alias_steps_log.
  rewrite <-alias_steps_lookup in Ho.
  unfold alias_step at 1, register_alias. simpl. rewrite Ho. simpl.
  apply elem_of_app. right. by left.
Qed.

Lemma register_commands_steps hs acc :
  let r := foldl (λ acc command_hook,
                    let acc' := foldl (register_alias ttl command_hook) acc
                                  (aliases command_hook) in
                    (acc'.1, acc'.2 ++ _log_hook config command_hook))
             acc hs in
  r.1 = (foldl (alias_step ttl) acc (key_pairs aliases hs)).1
  ∧ ∀ e, e ∈ (foldl (alias_step ttl) acc (key_pairs aliases hs)).2 → e ∈ r.2.
Proof.
  simpl. revert acc. induction hs as [|h hs IH]; intros acc; [done|].
  unfold key_pairs in *. rewrite bind_cons, foldl_app. simpl.
  set (inner := foldl (register_alias ttl h) acc (aliases h)).
  assert (foldl (alias_step ttl) acc ((λ k, (k, h)) <$> aliases h) = inner) as Hin.
  { subst inner. generalize (aliases h). intros l. revert acc.
    induction l as [|a l IHl]; intros acc; [done|]. simpl. apply IHl. }
  rewrite Hin. destruct (IH (inner.1, inner.2 ++ _log_hook config h)) as [IH1 IH2].
  rewrite IH1. clear IH1.
  assert (∀ prs (acc1 acc2 : gmap string Hook * list effect),
            acc1.1 = acc2.1 → (∀ e, e ∈ acc1.2 → e ∈ acc2.2) →
            (foldl (alias_step ttl) acc1 prs).1 = (foldl (alias_step ttl) acc2 prs).1
            ∧ ∀ e, e ∈ (foldl (alias_step ttl) acc1 prs).2
                   → e ∈ (foldl (alias_step ttl) acc2 prs).2) as Hmono.
  { clear. induction prs as [|kh prs IHp]; intros acc1 acc2 H1 H2; [done|].
    simpl. apply IHp.
    - unfold alias_step, register_alias. rewrite H1.
      by destruct (acc2.1 !! kh.1).
    - unfold alias_step, register_alias. rewrite H1.
      destruct (acc2.1 !! kh.1); simpl; [|done].
      intros e [?|?]%elem_of_app; apply elem_of_app; auto. }
  destruct (Hmono (hs ≫= λ h0, (λ k, (k, h0)) <$> aliases h0) inner
              (inner.1, inner.2 ++ _log_hook config h)) as [Hm1 Hm2];
    [done|intros e ?; apply elem_of_app; by left|].
  split; [by rewrite Hm1|]. intros e He. by apply IH2, Hm2.
Qed.

Lemma register_commands_lookup hs cmds a :
  (register_commands config ttl hs cmds).1 !! a
  = owner_after cmds (key_pairs aliases hs) a.
Proof.
  destruct (register_commands_steps hs (cmds, [])) as [H1 _].
  cbv zeta in H1. unfold register_commands. rewrite H1.
  apply alias_steps_lookup.
Qed.

Lemma register_commands_conflict hs cmds pre a h post o :
  key_pairs aliases hs = pre ++ (a, h) :: post →
  owner_after cmds pre a = Some o →
  log_conflict ttl a (plugin_title o) ∈ (register_commands config ttl hs cmds).2.
Proof.
  intros Hprs Ho. destruct (register_commands_steps hs (cmds, [])) as [_ H2].
  cbv zeta in H2. unfold register_commands. apply H2.
  rewrite Hprs. by apply alias_steps_conflict.
Qed.

(** Unregistration, alias by alias. *)
Lemma unregister_commands_lookup hs cmds a :
  unregister_commands hs cmds !! a
  = match cmds !! a with
    | Some h => if decide (h ∈ hooks_at a (key_pairs aliases hs))
                then None else Some h
    | None => None
    end.
Proof.
  unfold unregister_commands.
  rewrite (foldl_nested
             (λ cmds command_hook alias,
                if bool_decide (cmds !! alias = Some command_hook)
                then delete alias cmds else cmds)).
  fold (key_pairs aliases hs). generalize (key_pairs aliases hs).
  intros prs. revert cmds. induction prs as [|[b h] prs IH]; intros cmds.
  - simpl. destruct (cmds !! a); [|done]. unfold hooks_at. simpl.
    done.
  - simpl. rewrite IH, hooks_at_cons. case_bool_decide as Hb.
    + rewrite lookup_delete. case_decide as Hab.
      * subst b. rewrite Hb. rewrite decide_True; [done|by left].
      * done.
    + case_decide as Hab; [|done]. subst b.
      destruct (cmds !! a) as [o|] eqn:E; [|done].
      assert (o ≠ h) as Hoh by congruence.
      destruct (decide (o ∈ hooks_at a prs)) as [Hin|Hin].
      * rewrite decide_True; [done|by right].
      * rewrite decide_False; [done|].
        by intros [?|?]%elem_of_cons.
Qed.
End command_facts.

(** ** The raw hooks: catch-all list and trigger dict together *)

Ltac setters :=
  unfold set_plugins, set_plugin_name_map, set_commands, set_raw_triggers,
    set_catch_all_triggers, set_event_type_hooks, set_regex_hooks, set_sieves,
    set_cap_hooks_on_available, set_cap_hooks_on_ack, set_connect_hooks,
    set_out_sieves, set_hook_hooks, set_perm_hooks, set_hook_waiting_queues;
  simpl.

(** Call-by-value reduction of the field assignments and projections
    only: the nested assignments of a long block stay small. *)
Ltac fields :=
  cbv beta iota zeta delta
    [sort_indices register_hooks
     set_plugins set_plugin_name_map set_commands set_raw_triggers
     set_catch_all_triggers set_event_type_hooks set_regex_hooks set_sieves
     set_cap_hooks_on_available set_cap_hooks_on_ack set_connect_hooks
     set_out_sieves set_hook_hooks set_perm_hooks set_hook_waiting_queues
     plugins _plugin_name_map commands raw_triggers catch_all_triggers
     event_type_hooks regex_hooks sieves cap_hooks_on_available
     cap_hooks_on_ack connect_hooks out_sieves hook_hooks perm_hooks
     _hook_waiting_queues].

Lemma register_keyed_cons {K} `{Countable K} (keys : Hook → list K) h hs
    (d : gmap K (list Hook)) :
  register_keyed keys (h :: hs) d
  = register_keyed keys hs (foldl (λ d k, defaultdict_append k h d) d (keys h)).
Proof. done. Qed.

Lemma unregister_keyed_cons {K} `{Countable K} asserted (keys : Hook → list K)
    h hs (d : gmap K (list Hook)) :
  unregister_keyed asserted keys (h :: hs) d
  = exn_bind (fold_exn (λ d k, dict_remove_del asserted k h d) (keys h) d)
      (unregister_keyed asserted keys hs).
Proof. done. Qed.

Lemma register_raw_spec hs pm :
  register_raw hs pm
  = set_raw_triggers (register_keyed raw_keys hs (raw_triggers pm))
      (set_catch_all_triggers
         (catch_all_triggers pm ++ filter (λ h, catch_all h) hs) pm).
Proof.
  unfold register_raw. revert pm. induction hs as [|h hs IH]; intros pm.
  - simpl. rewrite app_nil_r. by destruct pm.
  - rewrite filter_cons, register_keyed_cons. cbn [foldl]. rewrite IH. clear IH.
    assert (raw_keys h = if catch_all h then [] else triggers h) as -> by done.
    destruct (catch_all h); simpl.
    + destruct pm; setters. by rewrite <-app_assoc.
    + destruct pm as [? ? ? raw ? ? ? ? ? ? ? ? ? ? ?]; setters. f_equal.
      generalize (triggers h). intros l. revert raw.
      induction l as [|t l IHl]; intros d; [done|]. simpl.
      by rewrite <-IHl, dict_append_default.
Qed.

Lemma register_events_spec hs d :
  register_events hs d = register_keyed types hs d.
Proof.
  unfold register_events, register_keyed. revert d.
  induction hs as [|h hs IH]; intros d; [done|]. simpl. rewrite <-IH. f_equal.
  generalize (types h). intros l. revert d.
  induction l as [|t l IHl]; intros d; [done|]. simpl.
  by rewrite <-IHl, dict_append_default.
Qed.

Lemma register_regexes_spec hs l :
  register_regexes hs l = l ++ (hs ≫= λ h, (λ r, (r, h)) <$> regexes h).
Proof.
  unfold register_regexes. revert l. induction hs as [|h hs IH]; intros l.
  - simpl. by rewrite app_nil_r.
  - rewrite bind_cons. simpl. rewrite IH, app_assoc. f_equal.
    generalize (regexes h). intros rs. revert l.
    induction rs as [|r rs IHr]; intros l; simpl.
    + by rewrite app_nil_r.
    + by rewrite IHr, <-app_assoc.
Qed.

Lemma unregister_raw_spec hs pm pm' :
  unregister_raw hs pm = inr pm' ↔
  ∃ l d,
    remove_all (filter (λ h, catch_all h) hs) (catch_all_triggers pm) = inr l
    ∧ unregister_keyed true raw_keys hs (raw_triggers pm) = inr d
    ∧ pm' = set_raw_triggers d (set_catch_all_triggers l pm).
Proof.
  unfold unregister_raw, remove_all.
  revert pm. induction hs as [|h hs IH]; intros pm.
  - simpl. split.
    + intros [= <-]. eexists _, _. split_and!; try done. by destruct pm.
    + intros (l & d & [= <-] & [= <-] & ->). by destruct pm.
  - rewrite filter_cons, unregister_keyed_cons. cbn [fold_exn].
    assert (raw_keys h = if catch_all h then [] else triggers h) as -> by done.
    destruct (catch_all h) eqn:Hc; simpl.
    + destruct (list_remove h (catch_all_triggers pm)) as [l1|]; simpl.
      * rewrite IH. simpl. split; intros (l & d & ? & ? & ->);
          exists l, d; split_and!; try done; by destruct pm.
      * split; [done|]. by intros (l & d & ? & _).
    + destruct (fold_exn _ (triggers h) (raw_triggers pm)) as [e|d1]; simpl.
      * split; [done|]. by intros (l & d & _ & ? & _).
      * rewrite IH. simpl. split; intros (l & d & ? & ? & ->);
          exists l, d; split_and!; try done; by destruct pm.
Qed.

(** ** Registration and unregistration, field by field *)

Section registry_facts.
Variable casefold : string → string.
Variable config : Config.

Lemma sort_hooks_idemp l : sort_hooks (sort_by priority l) = sort_hooks l.
Proof. unfold sort_hooks. apply sort_by_id, sort_by_sorted. Qed.

(** The manager after lines 169-259, in terms of the manager before. *)
Lemma registered_fields plugin pm :
  let hs (t : string) := hooks plugin !!! t in
  sort_indices (register_hooks casefold config plugin pm)
  = {| plugins := plugins pm;
       _plugin_name_map := _plugin_name_map pm;
       commands :=
         (register_commands config (title plugin) (hs "command"%string)
            (commands pm)).1;
       raw_triggers :=
         sort_hooks <$> register_keyed raw_keys (hs "irc_raw"%string)
                          (raw_triggers pm);
       catch_all_triggers :=
         sort_hooks (catch_all_triggers pm
                     ++ filter (λ h, catch_all h) (hs "irc_raw"%string));
       event_type_hooks :=
         sort_hooks <$> register_keyed types (hs "event"%string)
                          (event_type_hooks pm);
       regex_hooks :=
         sort_by (λ x, priority x.2)
           (regex_hooks pm
            ++ (hs "regex"%string ≫= λ h, (λ r, (r, h)) <$> regexes h));
       sieves := sort_hooks (sieves pm ++ hs "sieve"%string);
       cap_hooks_on_available :=
         register_keyed (λ h, casefold <$> caps h)
           (hs "on_cap_available"%string) (cap_hooks_on_available pm);
       cap_hooks_on_ack :=
         register_keyed (λ h, casefold <$> caps h) (hs "on_cap_ack"%string)
           (cap_hooks_on_ack pm);
       connect_hooks := sort_hooks (connect_hooks pm ++ hs "on_connect"%string);
       out_sieves := sort_hooks (out_sieves pm ++ hs "irc_out"%string);
       hook_hooks :=
         sort_hooks <$> register_keyed (λ _, ["post"%string])
                          (hs "post_hook"%string) (hook_hooks pm);
       perm_hooks :=
         sort_hooks <$> register_keyed perms (hs "perm_check"%string)
                          (perm_hooks pm);
       _hook_waiting_queues := _hook_waiting_queues pm |}.
Proof.
  cbv zeta. destruct pm. fields. rewrite register_raw_spec. fields.
  rewrite register_events_spec, register_regexes_spec.
  rewrite !append_all_app, !sort_hooks_idemp. done.
Qed.

Local Ltac failed_stage :=
  split; [done|];
  let Hx := fresh in
  intros (?&?&?&?&?&?&?&?&?&?&?&Hx); decompose [and] Hx; congruence.

(** [unregister_hooks] succeeds exactly when each of its removals does. *)
Lemma unregister_hooks_spec plugin pm pm' :
  let hs (t : string) := hooks plugin !!! t in
  unregister_hooks casefold plugin pm = inr pm' ↔
  ∃ avail ack raw catch ev rx sv cn out post perm,
    unregister_keyed false (λ h, casefold <$> caps h)
      (hs "on_cap_available"%string) (cap_hooks_on_available pm) = inr avail
    ∧ unregister_keyed false (λ h, casefold <$> caps h)
        (hs "on_cap_ack"%string) (cap_hooks_on_ack pm) = inr ack
    ∧ remove_all (filter (λ h, catch_all h) (hs "irc_raw"%string))
        (catch_all_triggers pm) = inr catch
    ∧ unregister_keyed true raw_keys (hs "irc_raw"%string) (raw_triggers pm)
      = inr raw
    ∧ unregister_keyed true types (hs "event"%string) (event_type_hooks pm)
      = inr ev
    ∧ remove_all (hs "regex"%string ≫= λ h, (λ r, (r, h)) <$> regexes h)
        (regex_hooks pm) = inr rx
    ∧ remove_all (hs "sieve"%string) (sieves pm) = inr sv
    ∧ remove_all (hs "on_connect"%string) (connect_hooks pm) = inr cn
    ∧ remove_all (hs "irc_out"%string) (out_sieves pm) = inr out
    ∧ unregister_keyed_keep (λ _, ["post"%string]) (hs "post_hook"%string)
        (hook_hooks pm) = inr post
    ∧ unregister_keyed_keep perms (hs "perm_check"%string) (perm_hooks pm)
      = inr perm
    ∧ pm' = {| plugins := plugins pm;
               _plugin_name_map := _plugin_name_map pm;
               commands := unregister_commands (hs "command"%string) (commands pm);
               raw_triggers := raw;
               catch_all_triggers := catch;
               event_type_hooks := ev;
               regex_hooks := rx;
               sieves := sv;
               cap_hooks_on_available := avail;
               cap_hooks_on_ack := ack;
               connect_hooks := cn;
               out_sieves := out;
               hook_hooks := post;
               perm_hooks := perm;
               _hook_waiting_queues := _hook_waiting_queues pm |}.
Proof.
  cbv zeta. destruct pm. unfold unregister_hooks. fields.
  destruct (unregister_keyed false _ (hooks plugin !!! "on_cap_available"%string) _)
    as [e|avail]; cbn [exn_bind]; [failed_stage|].
  destruct (unregister_keyed false _ (hooks plugin !!! "on_cap_ack"%string) _)
    as [e|ack]; cbn [exn_bind]; [failed_stage|].
  destruct (unregister_raw (hooks plugin !!! "irc_raw"%string) _)
    as [e|pm1] eqn:Eraw; cbn [exn_bind].
  { split; [done|].
    intros (?&?&raw&catch&?&?&?&?&?&?&?&Hx). decompose [and] Hx. simplify_eq.
    match type of Eraw with
    | ?t = _ => assert (∃ pm1, t = inr pm1) as [pm1 Hpm1]
    end; [|congruence].
    eexists. apply unregister_raw_spec. eexists _, _. fields.
    split_and!; done. }
  apply unregister_raw_spec in Eraw as (catch & raw & Hc & Hr & ->).
  revert Hc Hr. fields. intros -> ->.
  destruct (unregister_keyed true types _ _) as [e|ev]; cbn [exn_bind];
    [failed_stage|].
  destruct (remove_all (hooks plugin !!! "regex"%string ≫= _) _) as [e|rx];
    cbn [exn_bind]; [failed_stage|].
  destruct (remove_all (hooks plugin !!! "sieve"%string) _) as [e|sv];
    cbn [exn_bind]; [failed_stage|].
  destruct (remove_all (hooks plugin !!! "on_connect"%string) _) as [e|cn];
    cbn [exn_bind]; [failed_stage|].
  destruct (remove_all (hooks plugin !!! "irc_out"%string) _) as [e|out];
    cbn [exn_bind]; [failed_stage|].
  destruct (unregister_keyed_keep _ (hooks plugin !!! "post_hook"%string) _)
    as [e|post]; cbn [exn_bind]; [failed_stage|].
  destruct (unregister_keyed_keep perms _ _) as [e|perm]; cbn [exn_bind];
    [failed_stage|].
  split.
  - intros [= <-]. by eexists _, _, _, _, _, _, _, _, _, _, _.
  - intros (?&?&?&?&?&?&?&?&?&?&?&Hx). decompose [and] Hx. by simplify_eq.
Qed.
End registry_facts.

(** ** The loops over the on_start and on_stop hooks *)

Section lifecycle_facts.
Context {World : Type}.
Variable hook_function : Hook → Event → World → outcome pyval * World.
Variable sieve_function :
  Hook → Event → Hook → World → outcome (option Event) * World.
Variable casefold : string → string.
Variable config : Config.

Implicit Types s : State World.

Lemma launch_basic hook event s :
  let r := launch hook_function sieve_function hook event s in
  dispatch_frame (mgr s) (mgr (res_state r))
  ∧ is_raise r = false
  ∧ (∃ tr, trace (res_state r) = trace s ++ tr)
  ∧ (_hook_waiting_queues (mgr s) = ∅ →
     ∃ b s', r = Ok b s' ∧ _hook_waiting_queues (mgr s') = ∅).
Proof.
  simpl. destruct (launch_spec hook_function sieve_function hook event s)
    as (pre & final & _ & _ & Hfr & Hres).
  split; [done|]. destruct final as [event'|].
  - destruct (launch _ _ hook event s) as [b s'|e s'|f s']; [|done|].
    + destruct Hres as (_ & Hq & _ & out & log & _ & Htr & _).
      split_and!; [done|by eauto|]. intros Hidle. exists b, s'.
      by rewrite Hq.
    + destruct Hres as (_ & [q Hq] & Htr). split_and!; [done|by eauto|].
      intros Hidle. by rewrite Hidle, lookup_empty in Hq.
  - simpl in Hres. destruct Hres as (Hr & Htr & Hq). rewrite Hr. simpl in *.
    split_and!; [done|by eauto|]. intros Hidle. eexists _, _.
    split; [done|]. by rewrite Hq.
Qed.

Lemma on_start_loop_spec hs s :
  let r := on_start_loop hook_function sieve_function hs s in
  dispatch_frame (mgr s) (mgr (res_state r))
  ∧ is_raise r = false
  ∧ (∃ tr, trace (res_state r) = trace s ++ tr)
  ∧ (_hook_waiting_queues (mgr s) = ∅ →
     ∃ b s', r = Ok b s' ∧ _hook_waiting_queues (mgr s') = ∅).
Proof.
  simpl. revert s. induction hs as [|h hs IH]; intros s.
  - simpl. split_and!; [apply dispatch_frame_refl|done|exists []|by eauto].
    by rewrite app_nil_r.
  - simpl. unfold mbind, M_bind.
    destruct (launch_basic h (mk_Event (Some h) EmptyString) s)
      as (Hfr & Hnr & [tr Htr] & Hidle).
    destruct (launch _ _ h _ s) as [b s1|e s1|f s1]; [|done|]; simpl in *.
    + destruct b.
      * destruct (IH s1) as (Hfr' & Hnr' & [tr' Htr'] & Hidle').
        split_and!; [by eapply dispatch_frame_trans|done| |].
        -- exists (tr ++ tr'). by rewrite Htr', Htr, <-app_assoc.
        -- intros Hq. destruct (Hidle Hq) as (? & ? & [= <- <-] & Hq1). eauto.
      * split_and!; [done|done|by eauto|].
        intros Hq. destruct (Hidle Hq) as (? & ? & [= <- <-] & Hq1). eauto.
    + split_and!; [done|done|by eauto|].
      intros Hq. by destruct (Hidle Hq) as (? & ? & ? & _).
Qed.

Lemma on_stop_loop_spec hs s :
  let r := on_stop_loop hook_function sieve_function hs s in
  dispatch_frame (mgr s) (mgr (res_state r))
  ∧ is_raise r = false
  ∧ (∃ tr, trace (res_state r) = trace s ++ tr)
  ∧ (_hook_waiting_queues (mgr s) = ∅ →
     ∃ s', r = Ok () s' ∧ _hook_waiting_queues (mgr s') = ∅).
Proof.
  simpl. revert s. induction hs as [|h hs IH]; intros s.
  - simpl. split_and!; [apply dispatch_frame_refl|done|exists []|by eauto].
    by rewrite app_nil_r.
  - simpl. unfold mbind, M_bind.
    destruct (launch_basic h (mk_Event (Some h) EmptyString) s)
      as (Hfr & Hnr & [tr Htr] & Hidle).
    destruct (launch _ _ h _ s) as [b s1|e s1|f s1]; [|done|]; simpl in *.
    + destruct (IH s1) as (Hfr' & Hnr' & [tr' Htr'] & Hidle').
      split_and!; [by eapply dispatch_frame_trans|done| |].
      * exists (tr ++ tr'). by rewrite Htr', Htr, <-app_assoc.
      * intros Hq. destruct (Hidle Hq) as (? & ? & [= <- <-] & Hq1). eauto.
    + split_and!; [done|done|by eauto|].
      intros Hq. by destruct (Hidle Hq) as (? & ? & ? & _).
Qed.

(** ** [unload_plugin] and [load_plugin], case by case *)

Lemma unload_plugin_unfold path s :
  unload_plugin hook_function sieve_function casefold config path s
  = match plugins (mgr s) !! path with
    | None => Ok false s
    | Some plugin =>
        match unregister_hooks casefold plugin (mgr s) with
        | inl e => Raise e s
        | inr pm =>
            match on_stop_loop hook_function sieve_function
                    (hooks plugin !!! "on_stop"%string) (upd_mgr (λ _, pm) s)
            with
            | Ok _ s1 => finish_unload config plugin s1
            | Raise e s1 => Raise e s1
            | Await f s1 => Await f s1
            end
        end
    end.
Proof. reflexivity. Qed.

(** An unload that returns [True] has unregistered the plugin's hooks, run
    a few dispatches, and deleted the plugin's entry. *)
Lemma unload_plugin_Ok path s b s' :
  unload_plugin hook_function sieve_function casefold config path s = Ok b s' →
  (plugins (mgr s) !! path = None ∧ b = false ∧ s' = s)
  ∨ ∃ plugin pm pm1,
      plugins (mgr s) !! path = Some plugin
      ∧ b = true
      ∧ unregister_hooks casefold plugin (mgr s) = inr pm
      ∧ dispatch_frame pm pm1
      ∧ is_Some (plugins pm1 !! file_path plugin)
      ∧ mgr s' = set_plugins (delete (file_path plugin) (plugins pm1)) pm1
      ∧ ∃ tr, trace s' = trace s ++ tr.
Proof.
  rewrite unload_plugin_unfold.
  destruct (plugins (mgr s) !! path) as [plugin|] eqn:Hp.
  2:{ intros [= <- <-]. by left. }
  destruct (unregister_hooks casefold plugin (mgr s)) as [e|pm] eqn:Hu; [done|].
  destruct (on_stop_loop_spec (hooks plugin !!! "on_stop"%string)
              (upd_mgr (λ _, pm) s)) as (Hfr & _ & [tr Htr] & _).
  destruct (on_stop_loop _ _ _ _) as [[] s1|e s1|f s1]; [|done..].
  simpl in Hfr, Htr. unfold finish_unload. simpl.
  destruct (plugins (mgr s1) !! file_path plugin) eqn:Hk; [|done].
  intros [= <- <-]. right. exists plugin, pm, (mgr s1).
  split_and!; eauto. simpl. rewrite Htr, <-!app_assoc. eauto.
Qed.

(** With no [single_thread] hook in flight an unload runs to its end. *)
Lemma unload_plugin_returns path s plugin pm :
  _hook_waiting_queues (mgr s) = ∅ →
  plugins (mgr s) !! path = Some plugin →
  file_path plugin = path →
  unregister_hooks casefold plugin (mgr s) = inr pm →
  ∃ s' pm1,
    unload_plugin hook_function sieve_function casefold config path s
    = Ok true s'
    ∧ dispatch_frame pm pm1
    ∧ mgr s' = set_plugins (delete path (plugins pm1)) pm1
    ∧ _hook_waiting_queues (mgr s') = ∅.
Proof.
  intros Hq Hp Hpath Hu. rewrite unload_plugin_unfold, Hp, Hu.
  assert (_hook_waiting_queues pm = ∅ ∧ plugins pm = plugins (mgr s))
    as [Hqpm Hppm].
  { apply unregister_hooks_spec in Hu
      as (?&?&?&?&?&?&?&?&?&?&?&?&?&?&?&?&?&?&?&?&?&?&->). done. }
  destruct (on_stop_loop_spec (hooks plugin !!! "on_stop"%string)
              (upd_mgr (λ _, pm) s)) as (Hfr & _ & _ & Hidle).
  destruct (Hidle Hqpm) as (s1 & Hr & Hq1). rewrite Hr in *. simpl in Hfr.
  unfold finish_unload. simpl.
  assert (plugins (mgr s1) = plugins (mgr s)) as Hp1.
  { destruct Hfr as (b & q & ->). rewrite <-Hppm. by destruct pm, b. }
  rewrite Hpath, Hp1, Hp. eexists _, (mgr s1). split; [done|]. simpl.
  split_and!; [done|done|]. by destruct (mgr s1).
Qed.

Lemma prepare_load_unfold path ttl s :
  prepare_load hook_function sieve_function casefold config path ttl s
  = let s0 := emits (should_load config ttl).2 s in
    if negb (should_load config ttl).1 then Ok false s0
    else if bool_decide (is_Some (plugins (mgr s) !! path)) then
      match unload_plugin hook_function sieve_function casefold config path s0
      with
      | Ok _ s1 => Ok true s1
      | Raise e s1 => Raise e s1
      | Await f s1 => Await f s1
      end
    else Ok true s0.
Proof.
  unfold prepare_load. destruct (should_load config ttl) as [go lg]. simpl.
  destruct go; simpl; [|done]. unfold mbind, M_bind.
  by destruct (bool_decide _).
Qed.

Lemma start_plugin_unfold plugin s :
  start_plugin hook_function sieve_function casefold config plugin s
  = match on_start_loop hook_function sieve_function
            (hooks plugin !!! "on_start"%string)
            (emit (create_tables (title plugin)) s) with
    | Ok true s1 => register_plugin casefold config plugin s1
    | Ok false s1 =>
        Ok () (emits [log_on_start_errored (title plugin);
                      unregister_tables (title plugin)] s1)
    | Raise e s1 => Raise e s1
    | Await f s1 => Await f s1
    end.
Proof.
  unfold start_plugin, mbind, M_bind.
  by destruct (on_start_loop _ _ _ _) as [[] ?|?|?].
Qed.

Lemma load_plugin_unfold path name ttl module s :
  load_plugin hook_function sieve_function casefold config path name ttl module s
  = match prepare_load hook_function sieve_function casefold config path ttl s
    with
    | Ok true s1 =>
        match module with
        | None => Ok () (emit (log_import_error ttl) s1)
        | Some found =>
            start_plugin hook_function sieve_function casefold config
              {| file_path := path; file_name := name; title := ttl;
                 hooks := found; tasks := [] |} s1
        end
    | Ok false s1 => Ok () s1
    | Raise e s1 => Raise e s1
    | Await f s1 => Await f s1
    end.
Proof.
  unfold load_plugin, mbind, M_bind, mret, M_ret.
  by destruct (prepare_load _ _ _ _ _ _ _) as [[] ?|?|?], module.
Qed.
End lifecycle_facts.

(** ** The invariants under dispatch, registration and unregistration *)

Lemma remove_all_subseteq {A} `{EqDecision A} (xs l l' : list A) :
  remove_all xs l = inr l' → l' ⊆ l.
Proof.
  unfold remove_all. revert l. induction xs as [|x xs IH]; intros l; simpl.
  { by intros [= <-]. }
  destruct (list_remove x l) as [l1|] eqn:E; [|done]. simpl. intros Hrest.
  etrans; [by apply IH|]. by eapply list_remove_subseteq.
Qed.

Lemma unregister_pairs_subseteq {K} `{Countable K}
    (step : gmap K (list Hook) → K * Hook → exn + gmap K (list Hook)) I
    prs (d d' : gmap K (list Hook)) :
  removal_step step I →
  fold_exn step prs d = inr d' → ∀ k, d' !!! k ⊆ d !!! k.
Proof.
  intros Hstep. revert d. induction prs as [|[k h] prs IH]; intros d; simpl.
  { by intros [= <-]. }
  destruct (step d (k, h)) as [e|d1] eqn:E; [done|]. simpl. intros Hfold k'.
  etrans; [by apply IH|].
  destruct (proj1 (Hstep d k h) _ E) as (l & Hl & Hd1). rewrite Hd1.
  case_decide; [subst|done]. by eapply list_remove_subseteq.
Qed.

Lemma all_sorted_touch {K} `{Countable K} k (d : gmap K (list Hook)) :
  all_sorted d → all_sorted (defaultdict_touch k d).
Proof.
  intros Hs k' l. unfold defaultdict_touch.
  destruct (d !! k) eqn:E; [apply Hs|]. rewrite lookup_insert.
  case_decide; [|apply Hs]. intros [= <-]. constructor.
Qed.

Lemma all_sorted_fmap_sort {K} `{Countable K} (d : gmap K (list Hook)) :
  all_sorted (sort_hooks <$> d).
Proof.
  intros k l. rewrite lookup_fmap. destruct (d !! k); [|done].
  simpl. intros [= <-]. apply sort_by_sorted.
Qed.

Lemma dispatch_frame_sorted pm pm' :
  dispatch_frame pm pm' → indices_sorted pm → indices_sorted pm'.
Proof.
  intros (b & q & ->). destruct pm, b; unfold indices_sorted; simpl; [|done].
  intros (?&?&?&?&?&?&?&?&?). split_and!; try done. by apply all_sorted_touch.
Qed.

Lemma dispatch_frame_pruned pm pm' :
  dispatch_frame pm pm' → maps_pruned pm → maps_pruned pm'.
Proof. intros (b & q & ->). by destruct pm, b. Qed.

Lemma dispatch_frame_plugins pm pm' :
  dispatch_frame pm pm' →
  plugins pm' = plugins pm ∧ _plugin_name_map pm' = _plugin_name_map pm.
Proof. intros (b & q & ->). by destruct pm, b. Qed.

Lemma dispatch_frame_indexed pm pm' h :
  dispatch_frame pm pm' → indexed pm' h ↔ indexed pm h.
Proof.
  intros (b & q & ->). destruct pm, b; unfold indexed; simpl; [|done].
  by setoid_rewrite defaultdict_touch_lookup_total.
Qed.

Lemma dispatch_frame_same_indices pm pm' :
  dispatch_frame pm pm' → same_indices pm pm'.
Proof.
  intros (b & q & ->). destruct pm, b; unfold same_indices; simpl;
    split_and!; try done.
  apply defaultdict_touch_lookup_total.
Qed.

Section registry_invariants.
Variable casefold : string → string.
Variable config : Config.

(** Whatever the lists were, lines 248-259 leave them sorted. *)
Lemma registered_sorted plugin pm :
  indices_sorted (sort_indices (register_hooks casefold config plugin pm)).
Proof.
  rewrite registered_fields. unfold indices_sorted. cbn -[sort_hooks sort_by].
  split_and!; try apply sort_by_sorted; apply all_sorted_fmap_sort.
Qed.

Lemma register_keyed_no_empty {K} `{Countable K} (keys : Hook → list K) hs
    (d : gmap K (list Hook)) :
  no_empty d → no_empty (register_keyed keys hs d).
Proof. rewrite register_keyed_pairs. apply register_pairs_no_empty. Qed.

Lemma registered_pruned plugin pm :
  maps_pruned pm →
  maps_pruned (sort_indices (register_hooks casefold config plugin pm)).
Proof.
  rewrite registered_fields. unfold maps_pruned. cbn -[sort_hooks sort_by].
  intros (?&?&?&?).
  split_and!; try (apply fmap_no_empty; [apply sort_by_nil_inv|]);
    by apply register_keyed_no_empty.
Qed.

Lemma unregister_keyed_sorted {K} `{Countable K} asserted
    (keys : Hook → list K) hs (d d' : gmap K (list Hook)) :
  unregister_keyed asserted keys hs d = inr d' → all_sorted d → all_sorted d'.
Proof.
  rewrite unregister_keyed_pairs, !all_sorted_lookup_total. intros Hu Hs.
  eapply unregister_pairs_sorted; [apply removal_step_del|done|done].
Qed.

Lemma unregister_keyed_keep_sorted {K} `{Countable K}
    (keys : Hook → list K) hs (d d' : gmap K (list Hook)) :
  unregister_keyed_keep keys hs d = inr d' → all_sorted d → all_sorted d'.
Proof.
  rewrite unregister_keyed_keep_pairs, !all_sorted_lookup_total. intros Hu Hs.
  eapply unregister_pairs_sorted; [apply removal_step_keep|done|done].
Qed.

Lemma unregister_keyed_no_empty {K} `{Countable K} asserted
    (keys : Hook → list K) hs (d d' : gmap K (list Hook)) :
  unregister_keyed asserted keys hs d = inr d' → no_empty d → no_empty d'.
Proof.
  rewrite unregister_keyed_pairs. intros Hu Hne.
  eapply (unregister_pairs_inv _ no_empty); [|done|done].
  intros d0 k h d1. apply dict_remove_del_no_empty.
Qed.

Lemma unregister_hooks_sorted plugin pm pm' :
  unregister_hooks casefold plugin pm = inr pm' →
  indices_sorted pm → indices_sorted pm'.
Proof.
  intros (avail&ack&raw&catch&ev&rx&sv&cn&out&post&perm&Hx)%unregister_hooks_spec.
  decompose [and] Hx. subst pm'. unfold indices_sorted. simpl.
  intros (?&?&?&?&?&?&?&?&?).
  split_and!; eauto using remove_all_sorted, unregister_keyed_sorted,
                unregister_keyed_keep_sorted.
Qed.

Lemma unregister_hooks_pruned plugin pm pm' :
  unregister_hooks casefold plugin pm = inr pm' →
  maps_pruned pm → maps_pruned pm'.
Proof.
  intros (avail&ack&raw&catch&ev&rx&sv&cn&out&post&perm&Hx)%unregister_hooks_spec.
  decompose [and] Hx. subst pm'. unfold maps_pruned. simpl.
  intros (?&?&?&?). split_and!; eauto using unregister_keyed_no_empty.
Qed.

Lemma unregister_keyed_subseteq {K} `{Countable K} asserted
    (keys : Hook → list K) hs (d d' : gmap K (list Hook)) k :
  unregister_keyed asserted keys hs d = inr d' → d' !!! k ⊆ d !!! k.
Proof.
  rewrite unregister_keyed_pairs. intros Hu.
  eapply unregister_pairs_subseteq; [apply removal_step_del|done].
Qed.

Lemma unregister_keyed_keep_subseteq {K} `{Countable K}
    (keys : Hook → list K) hs (d d' : gmap K (list Hook)) k :
  unregister_keyed_keep keys hs d = inr d' → d' !!! k ⊆ d !!! k.
Proof.
  rewrite unregister_keyed_keep_pairs. intros Hu.
  eapply unregister_pairs_subseteq; [apply removal_step_keep|done].
Qed.

(** Unregistration puts no hook into an index. *)
Lemma unregister_hooks_indexed plugin pm pm' h :
  unregister_hooks casefold plugin pm = inr pm' →
  indexed pm' h → indexed pm h.
Proof.
  intros (avail&ack&raw&catch&ev&rx&sv&cn&out&post&perm&Hx)%unregister_hooks_spec.
  decompose [and] Hx. subst pm'. unfold indexed. simpl.
  intros [[a Ha]|[[k Hk]|[Hk|[[k Hk]|[[r Hk]|[Hk|[[k Hk]|[[k Hk]|[Hk|[Hk|[[k Hk]|[k Hk]]]]]]]]]]]].
  - left. exists a. rewrite unregister_commands_lookup in Ha.
    destruct (commands pm !! a); [|done]. by case_decide; simplify_eq.
  - right; left. exists k. eapply unregister_keyed_subseteq; done.
  - do 2 right; left. eapply remove_all_subseteq; done.
  - do 3 right; left. exists k. eapply unregister_keyed_subseteq; done.
  - do 4 right; left. exists r. eapply remove_all_subseteq; done.
  - do 5 right; left. eapply remove_all_subseteq; done.
  - do 6 right; left. exists k. eapply unregister_keyed_subseteq; done.
  - do 7 right; left. exists k. eapply unregister_keyed_subseteq; done.
  - do 8 right; left. eapply remove_all_subseteq; done.
  - do 9 right; left. eapply remove_all_subseteq; done.
  - do 10 right; left. exists k. eapply unregister_keyed_keep_subseteq; done.
  - do 11 right. exists k. eapply unregister_keyed_keep_subseteq; done.
Qed.
End registry_invariants.

(** ** What a load that returns has done *)

Section load_facts.
Context {World : Type}.
Variable hook_function : Hook → Event → World → outcome pyval * World.
Variable sieve_function :
  Hook → Event → Hook → World → outcome (option Event) * World.
Variable casefold : string → string.
Variable config : Config.

Implicit Types s : State World.

Local Abbreviation unload_plugin :=
  (unload_plugin hook_function sieve_function casefold config).
Local Abbreviation load_plugin :=
  (load_plugin hook_function sieve_function casefold config).
Local Abbreviation prepare_load :=
  (prepare_load hook_function sieve_function casefold config).

Lemma prepare_load_Ok path ttl s go s1 :
  prepare_load path ttl s = Ok go s1 →
  (∃ tr, trace s1 = trace s ++ tr)
  ∧ ((mgr s1 = mgr s ∧ (go = true → plugins (mgr s) !! path = None))
     ∨ (go = true ∧ is_Some (plugins (mgr s) !! path)
        ∧ ∃ b s0, mgr s0 = mgr s ∧ unload_plugin path s0 = Ok b s1)).
Proof.
  rewrite prepare_load_unfold. simpl.
  destruct (should_load config ttl) as [[] lg]; simpl.
  - case_bool_decide as Hl.
    + destruct (unload_plugin path (emits lg s)) as [b s2|?|?] eqn:Hu; [|done..].
      intros [= <- <-]. split.
      * apply unload_plugin_Ok in Hu
          as [(_ & _ & ->)|(?&?&?&_&_&_&_&_&_&[tr Htr])].
        -- simpl. eauto.
        -- simpl in Htr. rewrite Htr, <-app_assoc. eauto.
      * right. split_and!; [done|done|]. by exists b, (emits lg s).
    + intros [= <- <-]. split; [simpl; eauto|]. left. split; [done|].
      intros _. by apply eq_None_not_Some.
  - intros [= <- <-]. split; [simpl; eauto|]. by left.
Qed.

Lemma load_plugin_Ok path name ttl module s s' :
  load_plugin path name ttl module s = Ok () s' →
  ∃ go s1,
    prepare_load path ttl s = Ok go s1
    ∧ ((go = false ∧ s' = s1)
       ∨ (go = true ∧ module = None ∧ s' = emit (log_import_error ttl) s1)
       ∨ (go = true
          ∧ ∃ found b s2,
              let plugin := {| file_path := path; file_name := name;
                               title := ttl; hooks := found; tasks := [] |} in
              module = Some found
              ∧ on_start_loop hook_function sieve_function
                  (found !!! "on_start"%string) (emit (create_tables ttl) s1)
                = Ok b s2
              ∧ dispatch_frame (mgr s1) (mgr s2)
              ∧ (∃ tr, trace s2 = trace s1 ++ tr)
              ∧ if b then register_plugin casefold config plugin s2 = Ok () s'
                else s' = emits [log_on_start_errored ttl;
                                 unregister_tables ttl] s2)).
Proof.
  rewrite load_plugin_unfold.
  destruct (prepare_load path ttl s) as [[] s1|?|?] eqn:Hp; [| |done..].
  2:{ intros [= <-]. eexists _, _. split; [done|]. by left. }
  destruct module as [found|].
  2:{ intros [= <-]. eexists _, _. split; [done|]. right; left. done. }
  rewrite start_plugin_unfold. simpl.
  destruct (on_start_loop_spec hook_function sieve_function
              (found !!! "on_start"%string) (emit (create_tables ttl) s1))
    as (Hfr & _ & [tr Htr] & _).
  destruct (on_start_loop _ _ _ _) as [b s2|?|?] eqn:Hs; [|done..].
  simpl in Hfr, Htr. intros Hreg. eexists _, _. split; [done|].
  do 2 right. split; [done|]. exists found, b, s2. simpl.
  split_and!; try done.
  - rewrite Htr, <-app_assoc. eauto.
  - destruct b; [done|]. by injection Hreg as <-.
Qed.

Lemma register_plugin_Ok plugin s s' :
  register_plugin casefold config plugin s = Ok () s' →
  ∃ pm,
    mgr s' = sort_indices (register_hooks casefold config plugin pm)
    ∧ plugins pm
      = <[file_path plugin :=
            {| file_path := file_path plugin; file_name := file_name plugin;
               title := title plugin;
               hooks := delete "on_start"%string (hooks plugin);
               tasks := tasks plugin
                        ++ (periodic_task <$> hooks plugin !!! "periodic"%string)
            |}]> (plugins (mgr s))
    ∧ (∀ h, indexed pm h ↔ indexed (mgr s) h)
    ∧ same_indices (mgr s) pm
    ∧ perm_hooks pm = perm_hooks (mgr s)
    ∧ hook_hooks pm = hook_hooks (mgr s)
    ∧ _hook_waiting_queues pm = _hook_waiting_queues (mgr s)
    ∧ (indices_sorted (mgr s) → indices_sorted pm)
    ∧ (maps_pruned (mgr s) → maps_pruned pm)
    ∧ trace s' = trace s ++ register_effects config plugin (mgr s).
Proof.
  unfold register_plugin. intros [= <-]. simpl. eexists. split; [done|].
  destruct (mgr s); unfold same_indices, indexed, indices_sorted, maps_pruned.
  simpl. by split_and!.
Qed.

(** ** C7 and C6: sorted lists and pruned dicts *)

Lemma load_plugin_sorted path name ttl module s s' :
  load_plugin path name ttl module s = Ok () s' →
  indices_sorted (mgr s) → indices_sorted (mgr s').
Proof.
  intros (go & s1 & Hp & Hcase)%load_plugin_Ok Hs.
  assert (indices_sorted (mgr s1)) as Hs1.
  { apply prepare_load_Ok in Hp as [_ [[-> _]|(_ & _ & b & s0 & Hm & Hu)]];
      [done|].
    apply unload_plugin_Ok in Hu
      as [(_ & _ & ->)|(pl&pm&pm1&_&_&Hu&Hfr&_&->&_)]; [by rewrite Hm|].
    rewrite Hm in Hu. eapply unregister_hooks_sorted in Hu; [|done].
    eapply dispatch_frame_sorted in Hfr; [|done]. by destruct pm1. }
  destruct Hcase as [[_ ->]|[(_ & _ & ->)|(_ & found & b & s2 & Hc)]];
    [done|done|].
  simpl in Hc. destruct Hc as (_ & _ & Hfr & _ & Hb). destruct b.
  - apply register_plugin_Ok in Hb as (pm & -> & _). apply registered_sorted.
  - subst s'. simpl. eapply dispatch_frame_sorted; done.
Qed.

Lemma unload_plugin_sorted path s b s' :
  unload_plugin path s = Ok b s' →
  indices_sorted (mgr s) → indices_sorted (mgr s').
Proof.
  intros [(_ & _ & ->)|(pl&pm&pm1&_&_&Hu&Hfr&_&->&_)]%unload_plugin_Ok Hs;
    [done|].
  eapply unregister_hooks_sorted in Hu; [|done].
  eapply dispatch_frame_sorted in Hfr; [|done]. by destruct pm1.
Qed.

Lemma unload_plugin_pruned path s b s' :
  unload_plugin path s = Ok b s' → maps_pruned (mgr s) → maps_pruned (mgr s').
Proof.
  intros [(_ & _ & ->)|(pl&pm&pm1&_&_&Hu&Hfr&_&->&_)]%unload_plugin_Ok Hs;
    [done|].
  eapply unregister_hooks_pruned in Hu; [|done].
  eapply dispatch_frame_pruned in Hfr; [|done]. by destruct pm1.
Qed.

Lemma load_plugin_pruned path name ttl module s s' :
  load_plugin path name ttl module s = Ok () s' →
  maps_pruned (mgr s) → maps_pruned (mgr s').
Proof.
  intros (go & s1 & Hp & Hcase)%load_plugin_Ok Hs.
  assert (maps_pruned (mgr s1)) as Hs1.
  { apply prepare_load_Ok in Hp as [_ [[-> _]|(_ & _ & b & s0 & Hm & Hu)]];
      [done|].
    eapply unload_plugin_pruned; [done|]. by rewrite Hm. }
  destruct Hcase as [[_ ->]|[(_ & _ & ->)|(_ & found & b & s2 & Hc)]];
    [done|done|].
  simpl in Hc. destruct Hc as (_ & _ & Hfr & _ & Hb).
  eapply dispatch_frame_pruned in Hfr; [|done]. destruct b.
  - apply register_plugin_Ok in Hb as (pm & -> & _ & _ & _ & _ & _ & _ & _ & Hpr & _).
    by apply registered_pruned, Hpr.
  - by subst s'.
Qed.
End load_facts.

Section sorting_claims.
Context {World : Type}.
Variable hook_function : Hook → Event → World → outcome pyval * World.
Variable sieve_function :
  Hook → Event → Hook → World → outcome (option Event) * World.
Variable casefold : string → string.
Variable config : Config.

Local Abbreviation unload_plugin :=
  (unload_plugin hook_function sieve_function casefold config).
Local Abbreviation load_plugin :=
  (load_plugin hook_function sieve_function casefold config).

Lemma init_sorted : indices_sorted PluginManager_init.
Proof. unfold indices_sorted. simpl. split_and!; try constructor; by intros ??. Qed.

Lemma init_pruned : maps_pruned PluginManager_init.
Proof. unfold maps_pruned. simpl. split_and!; by intros ??. Qed.


End sorting_claims.





(** ** C10: what an unload leaves of the other plugins' hooks *)

Lemma elem_of_plugin_hooks p t h : h ∈ hooks p !!! t → h ∈ plugin_hooks p.
Proof.
  rewrite lookup_total_alt. destruct (hooks p !! t) as [l|] eqn:E; simpl.
  - intros Hh. unfold plugin_hooks. apply list_elem_of_join. exists l.
    split; [done|]. apply list_elem_of_fmap. exists (t, l).
    split; [done|]. by apply elem_of_map_to_list.
  - by intros ?%elem_of_nil.
Qed.

Lemma elem_of_key_pairs {K} (keys : Hook → list K) hs k h :
  (k, h) ∈ key_pairs keys hs ↔ h ∈ hs ∧ k ∈ keys h.
Proof.
  unfold key_pairs. rewrite list_elem_of_bind. split.
  - intros (h' & Hin & Hh'). apply list_elem_of_fmap in Hin as (k' & [= -> ->] & Hk).
    done.
  - intros [Hh Hk]. exists h. split; [|done]. apply list_elem_of_fmap. eauto.
Qed.

Lemma elem_of_hooks_at {K} `{EqDecision K} (keys : Hook → list K) hs k h :
  h ∈ hooks_at k (key_pairs keys hs) ↔ h ∈ hs ∧ k ∈ keys h.
Proof.
  unfold hooks_at. rewrite list_elem_of_fmap. split.
  - intros ([k' h'] & -> & [Heq Hin]%list_elem_of_filter). simpl in *. subst k'.
    by apply elem_of_key_pairs in Hin.
  - intros Hin%elem_of_key_pairs. exists (k, h). split; [done|].
    by apply list_elem_of_filter.
Qed.

Section frame_claims.
Context {World : Type}.
Variable hook_function : Hook → Event → World → outcome pyval * World.
Variable sieve_function :
  Hook → Event → Hook → World → outcome (option Event) * World.
Variable casefold : string → string.
Variable config : Config.

Local Abbreviation unload_plugin :=
  (unload_plugin hook_function sieve_function casefold config).

Lemma unregister_keyed_frame {K} `{Countable K} asserted (keys : Hook → list K)
    plugin t (d d' : gmap K (list Hook)) k :
  unregister_keyed asserted keys (hooks plugin !!! t) d = inr d' →
  filter (λ h, h ∉ plugin_hooks plugin) (d' !!! k)
  = filter (λ h, h ∉ plugin_hooks plugin) (d !!! k).
Proof.
  rewrite unregister_keyed_pairs. intros Hu.
  eapply unregister_pairs_frame; [apply removal_step_del| |done].
  intros k' h [Hh _]%elem_of_key_pairs Hn. by eapply Hn, elem_of_plugin_hooks.
Qed.

Lemma unregister_keyed_keep_frame {K} `{Countable K} (keys : Hook → list K)
    plugin t (d d' : gmap K (list Hook)) k :
  unregister_keyed_keep keys (hooks plugin !!! t) d = inr d' →
  filter (λ h, h ∉ plugin_hooks plugin) (d' !!! k)
  = filter (λ h, h ∉ plugin_hooks plugin) (d !!! k).
Proof.
  rewrite unregister_keyed_keep_pairs. intros Hu.
  eapply unregister_pairs_frame; [apply removal_step_keep| |done].
  intros k' h [Hh _]%elem_of_key_pairs Hn. by eapply Hn, elem_of_plugin_hooks.
Qed.

Lemma remove_all_hooks_frame plugin t (xs l l' : list Hook) :
  xs ⊆ hooks plugin !!! t →
  remove_all xs l = inr l' →
  filter (λ h, h ∉ plugin_hooks plugin) l'
  = filter (λ h, h ∉ plugin_hooks plugin) l.
Proof.
  intros Hsub. apply remove_all_frame.
  intros h Hh Hn. by eapply Hn, elem_of_plugin_hooks, Hsub.
Qed.

(** C10: an unload that returns has deleted an alias exactly when the alias
    mapped to a command hook of the unloaded plugin that declares it; every
    other alias still maps to the hook it mapped to, so the entry of a hook
    that won a conflict against the unloaded plugin stays.  In every other
    index the hooks of the other plugins are the same as before, in the
    same order. *)
Theorem C10_unload_leaves_other_hooks path (s : State World) plugin b s' :
  plugins (mgr s) !! path = Some plugin →
  unload_plugin path s = Ok b s' →
  let other := λ h, h ∉ plugin_hooks plugin in
  let kept {K} `{Countable K} (d d' : gmap K (list Hook)) :=
    ∀ k, filter other (d' !!! k) = filter other (d !!! k) in
  (∀ a, commands (mgr s') !! a
        = match commands (mgr s) !! a with
          | Some h =>
              if decide (h ∈ hooks plugin !!! "command"%string ∧ a ∈ aliases h)
              then None else Some h
          | None => None
          end)
  ∧ (∀ a h, commands (mgr s) !! a = Some h → other h →
            commands (mgr s') !! a = Some h)
  ∧ kept (raw_triggers (mgr s)) (raw_triggers (mgr s'))
  ∧ filter other (catch_all_triggers (mgr s'))
    = filter other (catch_all_triggers (mgr s))
  ∧ kept (event_type_hooks (mgr s)) (event_type_hooks (mgr s'))
  ∧ filter (λ x, other x.2) (regex_hooks (mgr s'))
    = filter (λ x, other x.2) (regex_hooks (mgr s))
  ∧ kept (cap_hooks_on_available (mgr s)) (cap_hooks_on_available (mgr s'))
  ∧ kept (cap_hooks_on_ack (mgr s)) (cap_hooks_on_ack (mgr s'))
  ∧ filter other (sieves (mgr s')) = filter other (sieves (mgr s))
  ∧ filter other (connect_hooks (mgr s')) = filter other (connect_hooks (mgr s))
  ∧ filter other (out_sieves (mgr s')) = filter other (out_sieves (mgr s))
  ∧ kept (hook_hooks (mgr s)) (hook_hooks (mgr s'))
  ∧ kept (perm_hooks (mgr s)) (perm_hooks (mgr s')).
Proof.
  intros Hp [(Hnone & _)|(pl&pm&pm1&Hp'&_&Hu&Hfr&_&Hm&_)]%unload_plugin_Ok;
    [congruence|].
  assert (pl = plugin) as -> by congruence.
  apply unregister_hooks_spec in Hu
    as (avail&ack&raw&catch&ev&rx&sv&cn&out&post&perm&Hx).
  decompose [and] Hx. clear Hx. subst pm.
  destruct Hfr as (touched & q & ->). rewrite Hm. clear Hm.
  assert (∀ a, unregister_commands (hooks plugin !!! "command"%string)
                 (commands (mgr s)) !! a
               = match commands (mgr s) !! a with
                 | Some h =>
                     if decide (h ∈ hooks plugin !!! "command"%string
                                ∧ a ∈ aliases h)
                     then None else Some h
                 | None => None
                 end) as Hcmd.
  { intros a. rewrite unregister_commands_lookup.
    destruct (commands (mgr s) !! a) as [h|]; [|done].
    destruct (decide (h ∈ hooks_at a (key_pairs aliases
                                         (hooks plugin !!! "command"%string))))
      as [Hin|Hin].
    - rewrite decide_True; [done|by apply elem_of_hooks_at in Hin].
    - rewrite decide_False; [done|]. intros Hin'. by apply Hin, elem_of_hooks_at. }
  cbv zeta. destruct touched; simpl.
  all: split_and!;
    [exact Hcmd
    |intros a h Ha Ho; rewrite Hcmd, Ha; rewrite decide_False; [done|];
     intros [Hh _]; by eapply Ho, elem_of_plugin_hooks
    |intros k; by eapply unregister_keyed_frame
    |by eapply remove_all_hooks_frame;
       [intros x [_ Hx]%list_elem_of_filter; exact Hx|]
    |intros k; by eapply unregister_keyed_frame
    |eapply remove_all_frame; [|done];
     intros [r h] [h' [Hh' Hr]]%list_elem_of_bind Hn; simpl in *;
     apply list_elem_of_fmap in Hh' as (r' & [= -> ->] & _);
     by eapply Hn, elem_of_plugin_hooks
    |intros k; by eapply unregister_keyed_frame
    |intros k; by eapply unregister_keyed_frame
    |by eapply remove_all_hooks_frame
    |by eapply remove_all_hooks_frame
    |by eapply remove_all_hooks_frame
    |intros k; rewrite ?defaultdict_touch_lookup_total;
     by eapply unregister_keyed_keep_frame
    |intros k; by eapply unregister_keyed_keep_frame].
Qed.
End frame_claims.

(** [salute] lost the alias "hello" to [greeter]: unloading it deletes its
    own alias "hey" and leaves "hello" with [greeter]. *)
Lemma C10_witness :
  let other := λ h, h ∉ plugin_hooks demo.salute_plugin in
  plugins (mgr demo.saluting) !! "/bot/plugins/salute.py"%string
  = Some demo.salute_plugin
  ∧ demo.unload_plugin "/bot/plugins/salute.py" demo.saluting
    = Ok true demo.unsaluted
  ∧ commands (mgr demo.saluting) !! "hello"%string = Some demo.hi
  ∧ commands (mgr demo.saluting) !! "hey"%string = Some demo.hello2
  ∧ other demo.hi
  ∧ commands (mgr demo.unsaluted) !! "hello"%string = Some demo.hi
  ∧ commands (mgr demo.unsaluted) !! "hey"%string = None
  ∧ filter other (sieves (mgr demo.unsaluted))
    = filter other (sieves (mgr demo.saluting)).
Proof.
  intros other.
  assert (plugins (mgr demo.saluting) !! "/bot/plugins/salute.py"%string
          = Some demo.salute_plugin) as Hp by (vm_compute; reflexivity).
  assert (demo.unload_plugin "/bot/plugins/salute.py" demo.saluting
          = Ok true demo.unsaluted) as Hu by (vm_compute; reflexivity).
  pose proof (C10_unload_leaves_other_hooks demo.hook_function
                demo.sieve_function demo.casefold demo.config
                "/bot/plugins/salute.py"%string demo.saluting
                demo.salute_plugin true demo.unsaluted Hp Hu) as Hc.
  cbv zeta in Hc. destruct Hc as (Hcmd & Hkeep & _ & _ & _ & _ & _ & _ & Hsv & _).
  assert (commands (mgr demo.saluting) !! "hello"%string = Some demo.hi) as Hhello
    by (vm_compute; reflexivity).
  assert (other demo.hi) as Hother.
  { apply (proj1 (bool_decide_eq_false _)). vm_compute. reflexivity. }
  split; [exact Hp|]. split; [exact Hu|]. split; [exact Hhello|].
  split; [vm_compute; reflexivity|]. split; [exact Hother|].
  split; [exact (Hkeep _ _ Hhello Hother)|].
  split; [vm_compute; reflexivity|]. exact Hsv.
Defined.

(** ** C5 and C2: what a load registers *)

Lemma owner_after_app cmds pre a h post :
  owner_after cmds (pre ++ (a, h) :: post) a
  = match owner_after cmds pre a with
    | Some o => Some o
    | None => Some h
    end.
Proof.
  unfold owner_after. destruct (cmds !! a); [done|].
  unfold hooks_at. rewrite filter_app, fmap_app, filter_cons. simpl.
  rewrite decide_True by done. simpl.
  by destruct ((filter (λ kh : string * Hook, kh.1 = a) pre).*2).
Qed.

Section load_claims.
Context {World : Type}.
Variable hook_function : Hook → Event → World → outcome pyval * World.
Variable sieve_function :
  Hook → Event → Hook → World → outcome (option Event) * World.
Variable casefold : string → string.
Variable config : Config.

Implicit Types s : State World.

Local Abbreviation unload_plugin :=
  (unload_plugin hook_function sieve_function casefold config).
Local Abbreviation load_plugin :=
  (load_plugin hook_function sieve_function casefold config).
Local Abbreviation prepare_load :=
  (prepare_load hook_function sieve_function casefold config).

(** A load from a path that was not loaded, after which the path is
    loaded, has run the registration on a manager with the same indices. *)
Lemma load_plugin_registered path name ttl found s s' :
  plugins (mgr s) !! path = None →
  load_plugin path name ttl (Some found) s = Ok () s' →
  is_Some (plugins (mgr s') !! path) →
  let plugin := {| file_path := path; file_name := name; title := ttl;
                   hooks := found; tasks := [] |} in
  ∃ pm tr,
    mgr s' = sort_indices (register_hooks casefold config plugin pm)
    ∧ same_indices (mgr s) pm
    ∧ trace s' = trace s ++ tr ++ register_effects config plugin pm.
Proof.
  intros Hnew (go & s1 & Hp & Hcase)%load_plugin_Ok Hloaded.
  apply prepare_load_Ok in Hp as [[tr1 Htr1] Hp].
  assert (mgr s1 = mgr s) as Hm1.
  { destruct Hp as [[? _]|(_ & [? Hs] & _)]; [done|congruence]. }
  destruct Hcase as [[_ ->]|[(_ & ? & _)|(_ & found' & b & s2 & Hc)]].
  - rewrite Hm1, Hnew in Hloaded. by destruct Hloaded.
  - done.
  - simpl in Hc. destruct Hc as ([= <-] & _ & Hfr & [tr2 Htr2] & Hb).
    destruct b.
    + simpl. apply register_plugin_Ok in Hb
        as (pm & Hm & _ & _ & Hsame & _ & _ & _ & _ & _ & Htr).
      assert (register_effects config
                {| file_path := path; file_name := name; title := ttl;
                   hooks := found; tasks := [] |} (mgr s2)
              = register_effects config
                  {| file_path := path; file_name := name; title := ttl;
                     hooks := found; tasks := [] |} pm) as Heff.
      { unfold register_effects. destruct Hsame as (-> & _). done. }
      exists pm, (tr1 ++ tr2). split; [done|]. split.
      * apply dispatch_frame_same_indices in Hfr. rewrite Hm1 in Hfr.
        unfold same_indices in *.
        destruct Hfr as (?&?&?&?&?&?&?&?&?&?&?), Hsame as (?&?&?&?&?&?&?&?&?&?&?).
        split_and!; congruence.
      * rewrite Htr, Htr2, Htr1, Heff, <-!app_assoc. done.
    + subst s'. simpl in Hloaded.
      apply dispatch_frame_plugins in Hfr as [Hpl _].
      rewrite Hpl, Hm1, Hnew in Hloaded. by destruct Hloaded.
Qed.


Lemma on_start_loop_false hs s s2 :
  on_start_loop hook_function sieve_function hs s = Ok false s2 →
  ∃ pre h post sa,
    hs = pre ++ h :: post
    ∧ on_start_loop hook_function sieve_function pre s = Ok true sa
    ∧ launch hook_function sieve_function h (mk_Event (Some h) EmptyString) sa
      = Ok false s2.
Proof.
  revert s. induction hs as [|h hs IH]; intros s; [done|].
  simpl. unfold mbind, M_bind.
  destruct (launch _ _ h _ s) as [[] s1|?|?] eqn:Hl; [| |done..].
  - intros (pre & h' & post & sa & -> & Hpre & Hf)%IH.
    exists (h :: pre), h', post, sa. split_and!; [done| |done].
    simpl. unfold mbind, M_bind. by rewrite Hl.
  - intros [= <-]. by exists [], h, hs, s.
Qed.

End load_claims.



(** ** C1: a load followed by the unload *)

Section roundtrip_facts.
Context {K : Type} `{Countable K}.
Implicit Types (d : gmap K (list Hook)).

Lemma unregister_keyed_roundtrip asserted (keys : Hook → list K) hs
    (f : list Hook → list Hook) d0 :
  (∀ h l l', list_remove h l = Some l' → list_remove h (f l) = Some (f l')) →
  (∀ l, f l = [] → l = []) →
  f [] = [] →
  no_empty d0 →
  (∀ k, f (d0 !!! k) = d0 !!! k) →
  (∀ k h, h ∈ hs → h ∉ d0 !!! k) →
  unregister_keyed asserted keys hs (f <$> register_keyed keys hs d0) = inr d0.
Proof.
  intros Hf Hnil Hf0 Hne Hid Hfresh.
  rewrite unregister_keyed_pairs, register_keyed_pairs.
  destruct (unregister_pairs_roundtrip _ _ (removal_step_del asserted) f
              (key_pairs keys hs) d0
              (f <$> foldl (λ d kh, defaultdict_append kh.1 kh.2 d) d0
                       (key_pairs keys hs)))
    as (d' & -> & Hne' & Hd'); try done.
  - intros k h [Hh _]%elem_of_key_pairs. by apply Hfresh.
  - intros k. by rewrite fmap_lookup_total_sorted, register_pairs_lookup_total.
  - by apply fmap_no_empty, register_pairs_no_empty.
  - f_equal. apply no_empty_eq; [done|done|].
    intros k. by rewrite Hd', Hid.
Qed.

Lemma unregister_keyed_keep_roundtrip (keys : Hook → list K) hs
    (f : list Hook → list Hook) d0 :
  (∀ h l l', list_remove h l = Some l' → list_remove h (f l) = Some (f l')) →
  f [] = [] →
  (∀ k h, h ∈ hs → h ∉ d0 !!! k) →
  ∃ d', unregister_keyed_keep keys hs (f <$> register_keyed keys hs d0) = inr d'
        ∧ ∀ k, d' !!! k = f (d0 !!! k).
Proof.
  intros Hf Hf0 Hfresh.
  rewrite unregister_keyed_keep_pairs, register_keyed_pairs.
  destruct (unregister_pairs_roundtrip _ _ removal_step_keep f
              (key_pairs keys hs) d0
              (f <$> foldl (λ d kh, defaultdict_append kh.1 kh.2 d) d0
                       (key_pairs keys hs)))
    as (d' & -> & _ & Hd'); try done; [| |by eauto].
  - intros k h [Hh _]%elem_of_key_pairs. by apply Hfresh.
  - intros k. by rewrite fmap_lookup_total_sorted, register_pairs_lookup_total.
Qed.
End roundtrip_facts.

Lemma sort_hooks_id_total {K} `{Countable K} (d : gmap K (list Hook)) k :
  all_sorted d → sort_hooks (d !!! k) = d !!! k.
Proof.
  intros Hs. apply sort_by_id. by apply all_sorted_lookup_total.
Qed.

Lemma delete_on_start_lookup (found : gmap string (list Hook)) (t : string) :
  t ≠ "on_start"%string →
  delete "on_start"%string found !!! t = found !!! t.
Proof. intros Ht. by rewrite !lookup_total_alt, lookup_delete_ne. Qed.

Lemma commands_roundtrip config ttl hs (cmds : gmap string Hook) :
  (∀ a o, cmds !! a = Some o → o ∉ hs) →
  unregister_commands hs (register_commands config ttl hs cmds).1 = cmds.
Proof.
  intros Hfresh. apply map_eq. intros a.
  rewrite unregister_commands_lookup, register_commands_lookup.
  unfold owner_after. destruct (cmds !! a) as [o|] eqn:E.
  - rewrite decide_False; [done|].
    intros [Ho _]%elem_of_hooks_at. by eapply Hfresh.
  - destruct (hooks_at a (key_pairs aliases hs)) as [|h l]; [done|].
    simpl. rewrite decide_True; [done|by left].
Qed.

Section roundtrip.
Variable casefold : string → string.
Variable config : Config.

(** Unregistering a plugin right after its registration undoes it. *)
Lemma register_unregister_roundtrip plugin loaded pm0 :
  hooks loaded = delete "on_start"%string (hooks plugin) →
  indices_sorted pm0 → maps_pruned pm0 → fresh_for (hooks plugin) pm0 →
  ∃ pm3,
    unregister_hooks casefold loaded
      (sort_indices (register_hooks casefold config plugin pm0)) = inr pm3
    ∧ same_indices pm0 pm3
    ∧ plugins pm3 = plugins pm0
    ∧ _plugin_name_map pm3 = _plugin_name_map pm0
    ∧ _hook_waiting_queues pm3 = _hook_waiting_queues pm0
    ∧ ∀ k, perm_hooks pm3 !!! k = perm_hooks pm0 !!! k.
Proof.
  intros Hl (Hs1&Hs2&Hs3&Hs4&Hs5&Hs6&Hs7&Hs8&Hs9) (Hp1&Hp2&Hp3&Hp4) Hfresh.
  assert (∀ t h, h ∈ hooks plugin !!! t → ¬ indexed pm0 h) as Hfr by done.
  unfold indexed in Hfr.
  destruct (unregister_keyed_keep_roundtrip (λ _, ["post"%string])
              (hooks plugin !!! "post_hook"%string) sort_hooks (hook_hooks pm0))
    as (post & Hpost & Hpostv);
    [apply list_remove_sort_by|done|intros k h Hh Hin; eapply Hfr; [done|];
     do 10 right; left; eauto|].
  destruct (unregister_keyed_keep_roundtrip perms
              (hooks plugin !!! "perm_check"%string) sort_hooks (perm_hooks pm0))
    as (perm & Hperm & Hpermv);
    [apply list_remove_sort_by|done|intros k h Hh Hin; eapply Hfr; [done|];
     do 11 right; eauto|].
  eexists. split.
  - apply unregister_hooks_spec. rewrite registered_fields.
    cbn -[sort_hooks sort_by]. rewrite Hl.
    rewrite !delete_on_start_lookup by done.
    exists (cap_hooks_on_available pm0), (cap_hooks_on_ack pm0),
      (raw_triggers pm0), (catch_all_triggers pm0), (event_type_hooks pm0),
      (regex_hooks pm0), (sieves pm0), (connect_hooks pm0), (out_sieves pm0),
      post, perm.
    split_and!; [..|reflexivity].
    + rewrite <-(map_fmap_id (register_keyed _ _ _)).
      apply unregister_keyed_roundtrip; try done.
      intros k h Hh Hin. eapply Hfr; [done|]. do 6 right; left; eauto.
    + rewrite <-(map_fmap_id (register_keyed _ _ _)).
      apply unregister_keyed_roundtrip; try done.
      intros k h Hh Hin. eapply Hfr; [done|]. do 7 right; left; eauto.
    + rewrite <-(sort_by_id priority (catch_all_triggers pm0)) at 2 by done.
      apply remove_all_roundtrip; [apply list_remove_sort_by|].
      intros h [_ Hh]%list_elem_of_filter Hin. eapply Hfr; [done|].
      do 2 right; left; eauto.
    + apply unregister_keyed_roundtrip;
        [apply list_remove_sort_by|apply sort_by_nil_inv|done|done
        |intros k; by apply sort_hooks_id_total|].
      intros k h Hh Hin. eapply Hfr; [done|]. right; left; eauto.
    + apply unregister_keyed_roundtrip;
        [apply list_remove_sort_by|apply sort_by_nil_inv|done|done
        |intros k; by apply sort_hooks_id_total|].
      intros k h Hh Hin. eapply Hfr; [done|]. do 3 right; left; eauto.
    + rewrite <-(sort_by_id (λ x, priority x.2) (regex_hooks pm0)) at 2 by done.
      apply remove_all_roundtrip; [apply list_remove_sort_by|].
      intros [r h] [h' [Hr Hh']]%list_elem_of_bind Hin.
      apply list_elem_of_fmap in Hr as (r' & [= -> ->] & _).
      eapply Hfr; [done|]. do 4 right; left; eauto.
    + rewrite <-(sort_by_id priority (sieves pm0)) at 2 by done.
      apply remove_all_roundtrip; [apply list_remove_sort_by|].
      intros h Hh Hin. eapply Hfr; [done|]. do 5 right; left; eauto.
    + rewrite <-(sort_by_id priority (connect_hooks pm0)) at 2 by done.
      apply remove_all_roundtrip; [apply list_remove_sort_by|].
      intros h Hh Hin. eapply Hfr; [done|]. do 8 right; left; eauto.
    + rewrite <-(sort_by_id priority (out_sieves pm0)) at 2 by done.
      apply remove_all_roundtrip; [apply list_remove_sort_by|].
      intros h Hh Hin. eapply Hfr; [done|]. do 9 right; left; eauto.
    + exact Hpost.
    + exact Hperm.
  - unfold same_indices. cbn -[sort_hooks sort_by]. split_and!; try done.
    + apply commands_roundtrip. intros a o Ha Ho. eapply Hfr; [done|].
      left; eauto.
    + rewrite Hpostv. by apply sort_hooks_id_total.
    + intros k. rewrite Hpermv. by apply sort_hooks_id_total.
Qed.
End roundtrip.
Lemma same_indices_refl pm : same_indices pm pm.
Proof. unfold same_indices. by split_and!. Qed.

Lemma same_indices_trans pm1 pm2 pm3 :
  same_indices pm1 pm2 → same_indices pm2 pm3 → same_indices pm1 pm3.
Proof.
  unfold same_indices.
  intros (?&?&?&?&?&?&?&?&?&?&?) (?&?&?&?&?&?&?&?&?&?&?).
  split_and!; congruence.
Qed.

Lemma elem_of_listed `{Countable K} (m : gmap K (list Hook)) k h :
  h ∈ m !!! k → h ∈ listed m.
Proof.
  rewrite lookup_total_alt. destruct (m !! k) as [l|] eqn:Hk; simpl.
  - intros Hh. apply list_elem_of_join. exists l. split; [done|].
    apply list_elem_of_fmap. exists (k, l). split; [done|].
    by apply elem_of_map_to_list.
  - by intros ?%elem_of_nil.
Qed.

Lemma indexed_listed pm h : indexed pm h → h ∈ indexed_hooks pm.
Proof.
  unfold indexed, indexed_hooks. rewrite !elem_of_app.
  intros [[a Ha]|[[k Hk]|[Hk|[[k Hk]|[[r Hk]|[Hk|[[k Hk]|[[k Hk]|[Hk|[Hk|[[k Hk]|[k Hk]]]]]]]]]]]];
    eauto 15 using elem_of_listed.
  - left. apply list_elem_of_fmap. exists (a, h). split; [done|].
    by apply elem_of_map_to_list.
  - do 4 right. left. apply list_elem_of_fmap. by exists (r, h).
Qed.

Lemma dispatch_frame_perm_hooks pm pm' :
  dispatch_frame pm pm' → perm_hooks pm' = perm_hooks pm.
Proof. intros (b & q & ->). by destruct pm, b. Qed.

Section roundtrip_claim.
Context {World : Type}.
Variable hook_function : Hook → Event → World → outcome pyval * World.
Variable sieve_function :
  Hook → Event → Hook → World → outcome (option Event) * World.
Variable casefold : string → string.
Variable config : Config.

Implicit Types s : State World.

Local Abbreviation unload_plugin :=
  (unload_plugin hook_function sieve_function casefold config).
Local Abbreviation load_plugin :=
  (load_plugin hook_function sieve_function casefold config).

Lemma unload_plugin_absent path s :
  plugins (mgr s) !! path = None → unload_plugin path s = Ok false s.
Proof. intros Hp. by rewrite unload_plugin_unfold, Hp. Qed.

End roundtrip_claim.


(** ** The registry against the loaded plugins *)

Lemma list_remove_perm {A} `{EqDecision A} (x : A) l l' :
  list_remove x l = Some l' → l ≡ₚ x :: l'.
Proof.
  revert l'. induction l as [|y l IH]; intros l'; [done|]. simpl.
  case_decide as Hxy.
  - intros [= <-]. by subst.
  - destruct (list_remove x l) as [l0|]; [|done]. simpl.
    intros [= <-]. rewrite (IH l0 eq_refl). apply Permutation_swap.
Qed.

Lemma remove_all_perm {A} `{EqDecision A} (xs l rest : list A) :
  l ≡ₚ xs ++ rest → ∃ l', remove_all xs l = inr l' ∧ l' ≡ₚ rest.
Proof.
  unfold remove_all. revert l. induction xs as [|x xs IH]; intros l Hl.
  - by exists l.
  - simpl. destruct (list_remove_is_Some x l) as [l1 Hl1].
    { rewrite Hl. by left. }
    rewrite Hl1. simpl. apply IH.
    apply list_remove_perm in Hl1. rewrite Hl1 in Hl. simpl in Hl.
    by apply Permutation_cons_inv in Hl.
Qed.

Lemma unregister_pairs_perm {K} `{Countable K}
    (step : gmap K (list Hook) → K * Hook → exn + gmap K (list Hook)) I
    prs (d : gmap K (list Hook)) (rest : K → list Hook) :
  removal_step step I →
  (∀ k, d !!! k ≡ₚ hooks_at k prs ++ rest k) →
  ∃ d', fold_exn step prs d = inr d'
        ∧ (∀ k, d' !!! k ≡ₚ rest k)
        ∧ (I d → I d').
Proof.
  intros Hstep. revert d. induction prs as [|[k0 h] prs IH]; intros d Hd.
  - exists d. by split_and!.
  - simpl. destruct (list_remove_is_Some h (d !!! k0)) as [l Hl].
    { rewrite Hd, hooks_at_cons, decide_True by done. by left. }
    destruct (Hstep d k0 h) as [_ Hex].
    destruct (Hex l Hl) as (d1 & Hd1 & Hlook & HI).
    rewrite Hd1. simpl.
    destruct (IH d1) as (d' & Hd' & Hrest & HI').
    { intros k. rewrite Hlook. case_decide as Hk.
      - subst k. apply list_remove_perm in Hl.
        specialize (Hd k0). rewrite hooks_at_cons, decide_True in Hd by done.
        rewrite Hl in Hd. simpl in Hd. by apply Permutation_cons_inv in Hd.
      - rewrite Hd, hooks_at_cons, decide_False by done. done. }
    exists d'. split_and!; [done|done|]. intros Hi. by apply HI', HI.
Qed.

Lemma hooks_at_app {K} `{EqDecision K} (k : K) (p1 p2 : list (K * Hook)) :
  hooks_at k (p1 ++ p2) = hooks_at k p1 ++ hooks_at k p2.
Proof. unfold hooks_at. by rewrite filter_app, fmap_app. Qed.

Lemma key_pairs_app {K} (keys : Hook → list K) l1 l2 :
  key_pairs keys (l1 ++ l2) = key_pairs keys l1 ++ key_pairs keys l2.
Proof. unfold key_pairs. by rewrite bind_app. Qed.

Lemma key_pairs_perm {K} (keys : Hook → list K) l1 l2 :
  l1 ≡ₚ l2 → key_pairs keys l1 ≡ₚ key_pairs keys l2.
Proof. intros Hl. unfold key_pairs. by rewrite Hl. Qed.

Lemma hooks_at_perm {K} `{EqDecision K} (k : K) (p1 p2 : list (K * Hook)) :
  p1 ≡ₚ p2 → hooks_at k p1 ≡ₚ hooks_at k p2.
Proof. intros Hp. unfold hooks_at. by rewrite Hp. Qed.

Lemma regex_pairs_app l1 l2 :
  regex_pairs (l1 ++ l2) = regex_pairs l1 ++ regex_pairs l2.
Proof. unfold regex_pairs. by rewrite bind_app. Qed.

Lemma regex_pairs_perm l1 l2 : l1 ≡ₚ l2 → regex_pairs l1 ≡ₚ regex_pairs l2.
Proof. intros Hl. unfold regex_pairs. by rewrite Hl. Qed.

(** The hooks of the loaded plugins when one is added or taken away. *)
Lemma loaded_hooks_insert pm path p t :
  plugins pm !! path = None →
  loaded_hooks (set_plugins (<[path := p]> (plugins pm)) pm) t
  ≡ₚ hooks p !!! t ++ loaded_hooks pm t.
Proof.
  intros Hnone. unfold loaded_hooks. destruct pm; simpl in *.
  by rewrite map_to_list_insert.
Qed.

Lemma loaded_hooks_delete pm path p t :
  plugins pm !! path = Some p →
  loaded_hooks pm t
  ≡ₚ hooks p !!! t
     ++ loaded_hooks (set_plugins (delete path (plugins pm)) pm) t.
Proof.
  intros Hp. unfold loaded_hooks. destruct pm; simpl in *.
  by rewrite <-(map_to_list_delete _ _ _ Hp).
Qed.
Lemma hooks_at_key_pairs_perm {K} `{EqDecision K} (keys : Hook → list K) k
    l l1 l2 :
  l ≡ₚ l1 ++ l2 →
  hooks_at k (key_pairs keys l)
  ≡ₚ hooks_at k (key_pairs keys l1) ++ hooks_at k (key_pairs keys l2).
Proof.
  intros Hl. rewrite <-hooks_at_app, <-key_pairs_app.
  by apply hooks_at_perm, key_pairs_perm.
Qed.

Lemma loaded_hooks_plugins pm pm' t :
  plugins pm' = plugins pm → loaded_hooks pm' t = loaded_hooks pm t.
Proof. unfold loaded_hooks. by intros ->. Qed.

Lemma sort_hooks_perm l : sort_hooks l ≡ₚ l.
Proof. apply sort_by_perm. Qed.

Lemma registered_list_perm (idx new old all : list Hook) :
  idx ≡ₚ old → all ≡ₚ new ++ old → sort_hooks (idx ++ new) ≡ₚ all.
Proof.
  intros H1 H2. rewrite sort_hooks_perm, H1, H2. apply Permutation_app_comm.
Qed.

Lemma registered_filter_perm (P : Hook → Prop) `{!∀ h, Decision (P h)}
    (idx new old all : list Hook) :
  idx ≡ₚ filter P old → all ≡ₚ new ++ old →
  sort_hooks (idx ++ filter P new) ≡ₚ filter P all.
Proof.
  intros H1 H2. rewrite sort_hooks_perm, H1, H2, filter_app.
  apply Permutation_app_comm.
Qed.

Lemma registered_regex_perm (idx : list (string * Hook)) (new old all : list Hook) :
  idx ≡ₚ regex_pairs old → all ≡ₚ new ++ old →
  sort_by (λ x, priority x.2) (idx ++ regex_pairs new) ≡ₚ regex_pairs all.
Proof.
  intros H1 H2. rewrite sort_by_perm, H1.
  rewrite (regex_pairs_perm _ _ H2), regex_pairs_app.
  apply Permutation_app_comm.
Qed.

Lemma registered_keyed_perm {K} `{EqDecision K} (keys : Hook → list K) k
    (idx new old all : list Hook) :
  idx ≡ₚ hooks_at k (key_pairs keys old) → all ≡ₚ new ++ old →
  idx ++ hooks_at k (key_pairs keys new) ≡ₚ hooks_at k (key_pairs keys all).
Proof.
  intros H1 H2. rewrite H1, (hooks_at_key_pairs_perm keys k _ _ _ H2).
  apply Permutation_app_comm.
Qed.

Section consistency.
Variable casefold : string → string.
Variable config : Config.

Lemma consistent_init : consistent casefold PluginManager_init.
Proof.
  unfold consistent, loaded_hooks. simpl. rewrite map_to_list_empty. simpl.
  split_and!; try done; intros ??; by rewrite ?lookup_total_empty.
Qed.

Lemma consistent_frame pm pm' :
  dispatch_frame pm pm' → consistent casefold pm → consistent casefold pm'.
Proof.
  intros (b & q & ->). unfold consistent, loaded_hooks.
  destruct pm, b; simpl; try done.
  all: intros (?&?&?&?&?&?&?&?&?&?&Hpost&?&?); split_and!; try done.
  intros k. by rewrite defaultdict_touch_lookup_total.
Qed.

(** Registration keeps the registry consistent. *)
Lemma consistent_register plugin loaded names pm :
  plugins pm !! file_path plugin = None →
  file_path loaded = file_path plugin →
  hooks loaded = delete "on_start"%string (hooks plugin) →
  consistent casefold pm →
  consistent casefold
    (sort_indices
       (register_hooks casefold config plugin
          (set_plugin_name_map names
             (set_plugins (<[file_path plugin := loaded]> (plugins pm)) pm)))).
Proof.
  intros Hnone Hpath Hhooks
    (Hcmd&Hraw&Hcatch&Hev&Hrx&Hsv&Hav&Hack&Hcn&Hout&Hpost&Hperm&Hpl).
  assert (∀ t, t ≠ "on_start"%string →
            ∀ pm', plugins pm' = <[file_path plugin := loaded]> (plugins pm) →
            loaded_hooks pm' t ≡ₚ hooks plugin !!! t ++ loaded_hooks pm t)
    as Hlh.
  { intros t Ht pm' Hpm'.
    rewrite (loaded_hooks_plugins
               (set_plugins (<[file_path plugin := loaded]> (plugins pm)) pm))
      by (rewrite Hpm'; by destruct pm).
    rewrite loaded_hooks_insert by done.
    by rewrite Hhooks, delete_on_start_lookup. }
  rewrite registered_fields. cbv zeta.
  match goal with |- consistent _ ?r => set (res := r) end.
  assert (plugins res = <[file_path plugin := loaded]> (plugins pm)) as Hres
    by (subst res; by destruct pm).
  pose proof (λ t Ht, Hlh t Ht res Hres) as Hl. clear Hlh.
  unfold consistent. subst res. cbn -[sort_hooks sort_by loaded_hooks].
  split_and!.
  - intros a h. rewrite register_commands_lookup. unfold owner_after.
    replace (commands (set_plugin_name_map names
               (set_plugins (<[file_path plugin:=loaded]> (plugins pm)) pm)))
      with (commands pm) by (by destruct pm).
    rewrite (Hl "command"%string (λ E, ltac:(discriminate E))).
    rewrite elem_of_app.
    destruct (commands pm !! a) as [o|] eqn:Ho.
    + intros [= <-]. destruct (Hcmd _ _ Ho). eauto.
    + intros Hh%head_Some_elem_of. apply elem_of_hooks_at in Hh as [??]. eauto.
  - intros k. rewrite fmap_lookup_total_sorted by done.
    etrans; [apply sort_hooks_perm|].
    rewrite register_keyed_pairs, register_pairs_lookup_total.
    apply registered_keyed_perm with (old := loaded_hooks pm "irc_raw"%string);
      [apply Hraw|apply Hl; discriminate].
  - apply registered_filter_perm with (old := loaded_hooks pm "irc_raw"%string);
      [apply Hcatch|apply Hl; discriminate].
  - intros k. rewrite fmap_lookup_total_sorted by done.
    etrans; [apply sort_hooks_perm|].
    rewrite register_keyed_pairs, register_pairs_lookup_total.
    apply registered_keyed_perm with (old := loaded_hooks pm "event"%string);
      [apply Hev|apply Hl; discriminate].
  - apply registered_regex_perm with (old := loaded_hooks pm "regex"%string);
      [apply Hrx|apply Hl; discriminate].
  - apply registered_list_perm with (old := loaded_hooks pm "sieve"%string);
      [apply Hsv|apply Hl; discriminate].
  - intros k. rewrite register_keyed_pairs, register_pairs_lookup_total.
    apply registered_keyed_perm
      with (old := loaded_hooks pm "on_cap_available"%string);
      [apply Hav|apply Hl; discriminate].
  - intros k. rewrite register_keyed_pairs, register_pairs_lookup_total.
    apply registered_keyed_perm
      with (old := loaded_hooks pm "on_cap_ack"%string);
      [apply Hack|apply Hl; discriminate].
  - apply registered_list_perm with (old := loaded_hooks pm "on_connect"%string);
      [apply Hcn|apply Hl; discriminate].
  - apply registered_list_perm with (old := loaded_hooks pm "irc_out"%string);
      [apply Hout|apply Hl; discriminate].
  - intros k. rewrite fmap_lookup_total_sorted by done.
    etrans; [apply sort_hooks_perm|].
    rewrite register_keyed_pairs, register_pairs_lookup_total.
    apply registered_keyed_perm with (old := loaded_hooks pm "post_hook"%string);
      [apply Hpost|apply Hl; discriminate].
  - intros k. rewrite fmap_lookup_total_sorted by done.
    etrans; [apply sort_hooks_perm|].
    rewrite register_keyed_pairs, register_pairs_lookup_total.
    apply registered_keyed_perm with (old := loaded_hooks pm "perm_check"%string);
      [apply Hperm|apply Hl; discriminate].
  - intros path p.
    destruct pm as [pl nm cm rw ca ev rx sv av ak cn ou hh ph qu]; simpl in *.
    destruct (decide (path = file_path plugin)) as [->|Hne].
    + rewrite lookup_insert_eq. intros [= <-]. split; [done|].
      rewrite Hhooks. apply lookup_delete_eq.
    + rewrite lookup_insert_ne by done. apply Hpl.
Qed.
End consistency.
Lemma unregister_keyed_perm {K} `{Countable K} asserted (keys : Hook → list K)
    hs (d : gmap K (list Hook)) old all :
  (∀ k, d !!! k ≡ₚ hooks_at k (key_pairs keys all)) →
  all ≡ₚ hs ++ old →
  ∃ d', unregister_keyed asserted keys hs d = inr d'
        ∧ ∀ k, d' !!! k ≡ₚ hooks_at k (key_pairs keys old).
Proof.
  intros Hd Hall. rewrite unregister_keyed_pairs.
  destruct (unregister_pairs_perm _ _ (key_pairs keys hs) d
              (λ k, hooks_at k (key_pairs keys old))
              (removal_step_del asserted)) as (d' & Hd' & Hrest & _).
  - intros k. rewrite Hd. by apply hooks_at_key_pairs_perm.
  - by exists d'.
Qed.

Lemma unregister_keyed_keep_perm {K} `{Countable K} (keys : Hook → list K)
    hs (d : gmap K (list Hook)) old all :
  (∀ k, d !!! k ≡ₚ hooks_at k (key_pairs keys all)) →
  all ≡ₚ hs ++ old →
  ∃ d', unregister_keyed_keep keys hs d = inr d'
        ∧ ∀ k, d' !!! k ≡ₚ hooks_at k (key_pairs keys old).
Proof.
  intros Hd Hall. rewrite unregister_keyed_keep_pairs.
  destruct (unregister_pairs_perm _ _ (key_pairs keys hs) d
              (λ k, hooks_at k (key_pairs keys old))
              removal_step_keep) as (d' & Hd' & Hrest & _).
  - intros k. rewrite Hd. by apply hooks_at_key_pairs_perm.
  - by exists d'.
Qed.

Lemma remove_all_hooks_perm (hs l old all : list Hook) :
  l ≡ₚ all → all ≡ₚ hs ++ old →
  ∃ l', remove_all hs l = inr l' ∧ l' ≡ₚ old.
Proof. intros H1 H2. apply remove_all_perm. by rewrite H1. Qed.

Section consistency_unload.
Variable casefold : string → string.

(** In a consistent registry the removals of [unload_plugin] find every
    hook of the plugin, and leave the hooks of the other plugins. *)
Lemma consistent_unregister path p pm :
  consistent casefold pm →
  plugins pm !! path = Some p →
  ∃ pm',
    unregister_hooks casefold p pm = inr pm'
    ∧ plugins pm' = plugins pm
    ∧ _plugin_name_map pm' = _plugin_name_map pm
    ∧ _hook_waiting_queues pm' = _hook_waiting_queues pm
    ∧ consistent casefold (set_plugins (delete path (plugins pm')) pm').
Proof.
  intros (Hcmd&Hraw&Hcatch&Hev&Hrx&Hsv&Hav&Hack&Hcn&Hout&Hpost&Hperm&Hpl) Hp.
  set (pmD := set_plugins (delete path (plugins pm)) pm).
  pose proof (λ t, loaded_hooks_delete pm path p t Hp) as Hd. fold pmD in Hd.
  destruct (unregister_keyed_perm false (λ h, casefold <$> caps h)
              (hooks p !!! "on_cap_available"%string)
              (cap_hooks_on_available pm) _ _ Hav (Hd _)) as (avail & Ea & Pa).
  destruct (unregister_keyed_perm false (λ h, casefold <$> caps h)
              (hooks p !!! "on_cap_ack"%string)
              (cap_hooks_on_ack pm) _ _ Hack (Hd _)) as (ack & Ek & Pk).
  destruct (unregister_keyed_perm true raw_keys
              (hooks p !!! "irc_raw"%string)
              (raw_triggers pm) _ _ Hraw (Hd _)) as (raw & Er & Pr).
  destruct (unregister_keyed_perm true types
              (hooks p !!! "event"%string)
              (event_type_hooks pm) _ _ Hev (Hd _)) as (ev & Ee & Pe).
  destruct (unregister_keyed_keep_perm (λ _, ["post"%string])
              (hooks p !!! "post_hook"%string)
              (hook_hooks pm) _ _ Hpost (Hd _)) as (post & Eo & Po).
  destruct (unregister_keyed_keep_perm perms
              (hooks p !!! "perm_check"%string)
              (perm_hooks pm) _ _ Hperm (Hd _)) as (perm & Em & Pm).
  destruct (remove_all_perm
              (filter (λ h, catch_all h) (hooks p !!! "irc_raw"%string))
              (catch_all_triggers pm)
              (filter (λ h, catch_all h) (loaded_hooks pmD "irc_raw"%string)))
    as (catch & Ec & Pc).
  { by rewrite Hcatch, (Hd "irc_raw"%string), filter_app. }
  destruct (remove_all_perm
              (regex_pairs (hooks p !!! "regex"%string)) (regex_hooks pm)
              (regex_pairs (loaded_hooks pmD "regex"%string)))
    as (rx & Ex & Px).
  { rewrite Hrx, <-regex_pairs_app. apply regex_pairs_perm, Hd. }
  destruct (remove_all_hooks_perm (hooks p !!! "sieve"%string) (sieves pm)
              _ _ Hsv (Hd _)) as (sv & Es & Ps).
  destruct (remove_all_hooks_perm (hooks p !!! "on_connect"%string)
              (connect_hooks pm) _ _ Hcn (Hd _)) as (cn & En & Pn).
  destruct (remove_all_hooks_perm (hooks p !!! "irc_out"%string)
              (out_sieves pm) _ _ Hout (Hd _)) as (out & Eu & Pu).
  eexists. split.
  { apply unregister_hooks_spec.
    exists avail, ack, raw, catch, ev, rx, sv, cn, out, post, perm.
    split_and!; try done. }
  cbn [plugins _plugin_name_map _hook_waiting_queues].
  split; [done|]. split; [done|]. split; [done|].
  match goal with |- consistent _ ?r => set (res := r) end.
  assert (∀ t, loaded_hooks res t = loaded_hooks pmD t) as Hres.
  { intros t. apply loaded_hooks_plugins. subst res pmD. by destruct pm. }
  unfold consistent. rewrite !Hres. subst res.
  cbn [commands raw_triggers catch_all_triggers event_type_hooks regex_hooks
       sieves cap_hooks_on_available cap_hooks_on_ack connect_hooks out_sieves
       hook_hooks perm_hooks plugins set_plugins].
  split_and!; try done.
  - intros a h. rewrite unregister_commands_lookup.
    destruct (commands pm !! a) as [o|] eqn:Ho; [|done].
    case_decide as Hin; [done|]. intros [= <-].
    destruct (Hcmd _ _ Ho) as [Hl Ha]. split; [|done].
    rewrite (Hd "command"%string) in Hl. apply elem_of_app in Hl as [Hl|Hl];
      [|done].
    destruct Hin. by apply elem_of_hooks_at.
  - intros path' p'. destruct (decide (path' = path)) as [->|Hne].
    + by rewrite lookup_delete_eq.
    + rewrite lookup_delete_ne by done. apply Hpl.
Qed.
End consistency_unload.
Lemma dispatch_frame_set_plugins v pm pm' :
  dispatch_frame pm pm' →
  dispatch_frame (set_plugins v pm) (set_plugins v pm').
Proof. intros (b & q & ->). exists b, q. by destruct pm, b. Qed.

Section registry_safety.
Context {World : Type}.
Variable hook_function : Hook → Event → World → outcome pyval * World.
Variable sieve_function :
  Hook → Event → Hook → World → outcome (option Event) * World.
Variable casefold : string → string.
Variable config : Config.

Implicit Types s : State World.

Local Abbreviation unload_plugin :=
  (unload_plugin hook_function sieve_function casefold config).
Local Abbreviation load_plugin :=
  (load_plugin hook_function sieve_function casefold config).
Local Abbreviation launch := (launch hook_function sieve_function).

Lemma unload_plugin_consistent path s :
  consistent casefold (mgr s) →
  _hook_waiting_queues (mgr s) = ∅ →
  ∃ b s',
    unload_plugin path s = Ok b s'
    ∧ b = bool_decide (is_Some (plugins (mgr s) !! path))
    ∧ plugins (mgr s') = delete path (plugins (mgr s))
    ∧ _plugin_name_map (mgr s') = _plugin_name_map (mgr s)
    ∧ consistent casefold (mgr s')
    ∧ _hook_waiting_queues (mgr s') = ∅.
Proof.
  intros Hc Hq. destruct (plugins (mgr s) !! path) as [p|] eqn:Hp.
  - destruct (consistent_unregister casefold path p (mgr s) Hc Hp)
      as (pm' & Hu & Hpl & Hnm & _ & Hc').
    destruct Hc as (_&_&_&_&_&_&_&_&_&_&_&_&Hkeyed).
    destruct (Hkeyed _ _ Hp) as [Hfp _].
    destruct (unload_plugin_returns hook_function sieve_function casefold
                config path s p pm' Hq Hp Hfp Hu)
      as (s' & pm1 & Hun & Hfr & Hm & Hq').
    exists true, s'. split; [done|].
    rewrite bool_decide_eq_true_2 by eauto.
    destruct (dispatch_frame_plugins _ _ Hfr) as [Hpl1 Hnm1].
    split_and!; try done.
    + rewrite Hm. destruct pm1; simpl in *. by rewrite Hpl1, Hpl.
    + rewrite Hm. destruct pm1; simpl in *. by rewrite Hnm1, Hnm.
    + rewrite Hm. eapply consistent_frame; [|exact Hc'].
      rewrite Hpl1. by apply dispatch_frame_set_plugins.
  - exists false, s. rewrite unload_plugin_unfold, Hp.
    rewrite bool_decide_eq_false_2 by (by intros [??]).
    split_and!; try done. by rewrite delete_id.
Qed.

Lemma load_plugin_consistent path name ttl module s :
  consistent casefold (mgr s) →
  _hook_waiting_queues (mgr s) = ∅ →
  ∃ s',
    load_plugin path name ttl module s = Ok () s'
    ∧ consistent casefold (mgr s')
    ∧ _hook_waiting_queues (mgr s') = ∅
    ∧ ∀ k p, plugins (mgr s') !! k = Some p →
             plugins (mgr s) !! k = Some p
             ∨ (k = path
                ∧ ∃ found,
                    module = Some found
                    ∧ hooks p = delete "on_start"%string found
                    ∧ tasks p = periodic_task <$> found !!! "periodic"%string).
Proof.
  intros Hc Hq. rewrite load_plugin_unfold, prepare_load_unfold.
  destruct (should_load config ttl) as [go lg]. cbn [fst snd].
  set (s0 := emits lg s).
  destruct go; cbn [negb]; [|exists s0; split_and!; try done; by left].
  assert (∃ s1, (if bool_decide (is_Some (plugins (mgr s) !! path))
                 then match unload_plugin path s0 with
                      | Ok _ s1 => Ok true s1
                      | Raise e s1 => Raise e s1
                      | Await f s1 => Await f s1
                      end
                 else Ok true s0) = Ok true s1
                ∧ consistent casefold (mgr s1)
                ∧ _hook_waiting_queues (mgr s1) = ∅
                ∧ plugins (mgr s1) !! path = None
                ∧ ∀ k p, plugins (mgr s1) !! k = Some p →
                         plugins (mgr s) !! k = Some p)
    as (s1 & -> & Hc1 & Hq1 & Hp1 & Hsub).
  { case_bool_decide as Hl.
    - destruct (unload_plugin_consistent path s0 Hc Hq)
        as (b & s1 & -> & _ & Hpl & _ & Hc1 & Hq1).
      exists s1. split_and!; try done.
      + rewrite Hpl. apply lookup_delete_eq.
      + intros k p. rewrite Hpl. by intros [_ ?]%lookup_delete_Some.
    - exists s0. split_and!; try done.
      change (mgr s0) with (mgr s).
      destruct (plugins (mgr s) !! path) eqn:E; [|done]. destruct Hl; eauto. }
  destruct module as [found|];
    [|eexists; split_and!; try done; intros k p Hk; left; by apply Hsub].
  rewrite start_plugin_unfold. cbn [hooks title].
  destruct (on_start_loop_spec hook_function sieve_function
              (found !!! "on_start"%string) (emit (create_tables ttl) s1))
    as (Hfr & _ & _ & Hret).
  destruct Hret as (b & sA & Hr & HqA); [done|].
  rewrite Hr in Hfr |- *. cbn [res_state] in Hfr.
  change (mgr (emit (create_tables ttl) s1)) with (mgr s1) in Hfr.
  pose proof (dispatch_frame_plugins _ _ Hfr) as [HplA _].
  pose proof (consistent_frame casefold _ _ Hfr Hc1) as HcA.
  destruct b.
  2:{ eexists. split_and!; try done. cbn [mgr emits]. rewrite HplA.
      intros k p Hk. left. by apply Hsub. }
  eexists. split; [reflexivity|]. cbn [mgr emits upd_mgr]. split_and!.
  - apply (consistent_register casefold config
             {| file_path := path; file_name := name; title := ttl;
                hooks := found; tasks := [] |}); try done.
    cbn [file_path]. by rewrite HplA.
  - rewrite registered_fields. cbn -[sort_hooks sort_by]. done.
  - rewrite registered_fields. cbn -[sort_hooks sort_by]. rewrite HplA.
    intros k p. destruct (decide (k = path)) as [->|Hne].
    + rewrite lookup_insert_eq. intros [= <-]. right. split; [done|].
      by exists found.
    + rewrite lookup_insert_ne by done. intros Hk. left. by apply Hsub.
Qed.

Lemma launch_consistent hook event s :
  consistent casefold (mgr s) →
  _hook_waiting_queues (mgr s) = ∅ →
  ∃ b s',
    launch hook event s = Ok b s'
    ∧ consistent casefold (mgr s')
    ∧ _hook_waiting_queues (mgr s') = ∅.
Proof.
  intros Hc Hq.
  destruct (launch_basic hook_function sieve_function hook event s)
    as (Hfr & _ & _ & Hret).
  destruct (Hret Hq) as (b & s' & Hl & Hq'). rewrite Hl in Hfr |- *.
  exists b, s'. split_and!; try done. by eapply consistent_frame.
Qed.

Lemma reachable_invariant s :
  reachable hook_function sieve_function casefold config s →
  consistent casefold (mgr s) ∧ _hook_waiting_queues (mgr s) = ∅.
Proof.
  induction 1 as [w n|path name ttl module s s' _ [Hc Hq] Hl
                 |path s b s' _ [Hc Hq] Hu|hook event s b s' _ [Hc Hq] Hl].
  - split; [apply consistent_init|done].
  - destruct (load_plugin_consistent path name ttl module s Hc Hq)
      as (s2 & Hl2 & ? & ? & _). rewrite Hl in Hl2. by injection Hl2 as <-.
  - destruct (unload_plugin_consistent path s Hc Hq)
      as (b2 & s2 & Hu2 & _ & _ & _ & ? & ?).
    rewrite Hu in Hu2. by injection Hu2 as <- <-.
  - destruct (launch_consistent hook event s Hc Hq)
      as (b2 & s2 & Hl2 & ? & ?). rewrite Hl in Hl2. by injection Hl2 as <- <-.
Qed.
End registry_safety.
Section registry_theorems.
Context {World : Type}.
Variable hook_function : Hook → Event → World → outcome pyval * World.
Variable sieve_function :
  Hook → Event → Hook → World → outcome (option Event) * World.
Variable casefold : string → string.
Variable config : Config.

Implicit Types s : State World.

Local Abbreviation unload_plugin :=
  (unload_plugin hook_function sieve_function casefold config).
Local Abbreviation load_plugin :=
  (load_plugin hook_function sieve_function casefold config).
Local Abbreviation launch := (launch hook_function sieve_function).
Local Abbreviation reachable :=
  (reachable hook_function sieve_function casefold config).

Lemma reachable_pruned s : reachable s → maps_pruned (mgr s).
Proof.
  induction 1 as [w n|path name ttl module s s' _ IH Hl
                 |path s b s' _ IH Hu|hook event s b s' _ IH Hl].
  - apply init_pruned.
  - by eapply (load_plugin_pruned hook_function sieve_function casefold config).
  - by eapply (unload_plugin_pruned hook_function sieve_function casefold
                 config).
  - destruct (launch_basic hook_function sieve_function hook event s)
      as (Hfr & _). rewrite Hl in Hfr. by eapply dispatch_frame_pruned.
Qed.

(** X2: [load_plugin], [unload_plugin] and [launch] never raise on a registry
    built by them: the removals of [unload_plugin] find every hook they
    look for, so no [ValueError], [KeyError] or failed [assert] comes out
    of it.  An unload returns [True] exactly when the path was loaded, and
    the path is not loaded afterwards, whatever the [on_stop] hooks did. *)
Theorem X2_loads_and_unloads_never_raise s :
  reachable s →
  (∀ path, ∃ b s',
     unload_plugin path s = Ok b s'
     ∧ b = bool_decide (is_Some (plugins (mgr s) !! path))
     ∧ plugins (mgr s') = delete path (plugins (mgr s)))
  ∧ (∀ path name ttl module, ∃ s',
       load_plugin path name ttl module s = Ok () s')
  ∧ (∀ hook event, ∃ b s', launch hook event s = Ok b s').
Proof.
  intros [Hc Hq]%reachable_invariant. split_and!.
  - intros path.
    destruct (unload_plugin_consistent hook_function sieve_function casefold
                config path s Hc Hq) as (b & s' & Hu & Hb & Hpl & _).
    by exists b, s'.
  - intros path name ttl module.
    destruct (load_plugin_consistent hook_function sieve_function casefold
                config path name ttl module s Hc Hq) as (s' & Hl & _).
    by exists s'.
  - intros hook event.
    destruct (launch_consistent hook_function sieve_function casefold
                hook event s Hc Hq) as (b & s' & Hl & _).
    by exists b, s'.
Qed.

(** X3: When the last plugin has been unloaded nothing stays registered: the
    command map, the pruned dicts and the lists are empty, and the
    permission and post-hook dicts list no hook under any key. *)
Theorem X3_nothing_registered_without_plugins s :
  reachable s →
  plugins (mgr s) = ∅ →
  commands (mgr s) = ∅
  ∧ raw_triggers (mgr s) = ∅
  ∧ catch_all_triggers (mgr s) = []
  ∧ event_type_hooks (mgr s) = ∅
  ∧ regex_hooks (mgr s) = []
  ∧ sieves (mgr s) = []
  ∧ cap_hooks_on_available (mgr s) = ∅
  ∧ cap_hooks_on_ack (mgr s) = ∅
  ∧ connect_hooks (mgr s) = []
  ∧ out_sieves (mgr s) = []
  ∧ (∀ k, hook_hooks (mgr s) !!! k = [])
  ∧ (∀ k, perm_hooks (mgr s) !!! k = []).
Proof.
  intros Hr Hnone. pose proof (reachable_pruned s Hr) as (Hp1&Hp2&Hp3&Hp4).
  apply reachable_invariant in Hr
    as [(Hcmd&Hraw&Hcatch&Hev&Hrx&Hsv&Hav&Hack&Hcn&Hout&Hpost&Hperm&_) _].
  assert (∀ t, loaded_hooks (mgr s) t = []) as Hl.
  { intros t. unfold loaded_hooks. by rewrite Hnone, map_to_list_empty. }
  rewrite ?Hl in *.
  assert (∀ {K} `{Countable K} (d : gmap K (list Hook)),
            no_empty d → (∀ k, d !!! k ≡ₚ []) → d = ∅) as Hempty.
  { intros K ?? d Hne Hd. apply no_empty_eq; [done|by intros ??|].
    intros k. rewrite lookup_total_empty. by apply Permutation_nil_r. }
  split_and!.
  - apply map_empty. intros a. destruct (commands (mgr s) !! a) as [h|] eqn:E;
      [|done].
    destruct (Hcmd _ _ E) as [Hin _]. by apply elem_of_nil in Hin.
  - by apply Hempty.
  - by apply Permutation_nil_r.
  - by apply Hempty.
  - by apply Permutation_nil_r.
  - by apply Permutation_nil_r.
  - by apply Hempty.
  - by apply Hempty.
  - by apply Permutation_nil_r.
  - by apply Permutation_nil_r.
  - intros k. by apply Permutation_nil_r.
  - intros k. by apply Permutation_nil_r.
Qed.
End registry_theorems.
(** The demo bot with [greeter] and [salute] loaded, and with [greeter]
    loaded and unloaded again, are states the calls reach. *)
Lemma demo_reach_greeting :
  reachable demo.hook_function demo.sieve_function demo.casefold demo.config
    demo.greeting.
Proof.
  apply (reach_load _ _ _ _ "/bot/plugins/greeter.py" "greeter.py" "greeter"
           (Some demo.greeter_module) demo.idle)%string.
  - apply (reach_new _ _ _ _ 0%nat 1%positive).
  - vm_compute. reflexivity.
Qed.

Lemma demo_reach_saluting :
  reachable demo.hook_function demo.sieve_function demo.casefold demo.config
    demo.saluting.
Proof.
  apply (reach_load _ _ _ _ "/bot/plugins/salute.py" "salute.py" "salute"
           (Some demo.salute_module) demo.greeting)%string.
  - apply demo_reach_greeting.
  - vm_compute. reflexivity.
Qed.

Lemma demo_reach_parted :
  reachable demo.hook_function demo.sieve_function demo.casefold demo.config
    demo.parted.
Proof.
  apply (reach_unload _ _ _ _ "/bot/plugins/greeter.py"%string demo.greeting
           true).
  - apply demo_reach_greeting.
  - vm_compute. reflexivity.
Qed.

Lemma X2_loads_and_unloads_never_raise_witness :
  reachable demo.hook_function demo.sieve_function demo.casefold demo.config
    demo.saluting
  ∧ ∃ b s',
      demo.unload_plugin "/bot/plugins/greeter.py" demo.saluting = Ok b s'
      ∧ b = bool_decide
              (is_Some (plugins (mgr demo.saluting)
                          !! "/bot/plugins/greeter.py"%string))
      ∧ plugins (mgr s')
        = delete "/bot/plugins/greeter.py"%string (plugins (mgr demo.saluting)).
Proof.
  split; [apply demo_reach_saluting|].
  apply (X2_loads_and_unloads_never_raise demo.hook_function
           demo.sieve_function demo.casefold demo.config demo.saluting
           demo_reach_saluting).
Defined.

Lemma X3_nothing_registered_without_plugins_witness :
  reachable demo.hook_function demo.sieve_function demo.casefold demo.config
    demo.parted
  ∧ plugins (mgr demo.parted) = ∅
  ∧ commands (mgr demo.parted) = ∅
  ∧ sieves (mgr demo.parted) = [].
Proof.
  assert (plugins (mgr demo.parted) = ∅) as Hnone by (vm_compute; reflexivity).
  pose proof (X3_nothing_registered_without_plugins demo.hook_function
                demo.sieve_function demo.casefold demo.config demo.parted
                demo_reach_parted Hnone) as (Hc & _ & _ & _ & _ & Hs & _).
  split; [apply demo_reach_parted|]. split; [exact Hnone|].
  split; [exact Hc|exact Hs].
Defined.
Section exclusive_launch.
Context {World : Type}.
Variable hook_function : Hook → Event → World → outcome pyval * World.
Variable sieve_function :
  Hook → Event → Hook → World → outcome (option Event) * World.

Implicit Types s : State World.

End exclusive_launch.

Lemma consistent_keyed casefold pm : consistent casefold pm → plugins_keyed pm.
Proof.
  intros (_&_&_&_&_&_&_&_&_&_&_&_&Hk) path p Hp. by destruct (Hk _ _ Hp).
Qed.

Section load_edges.
Context {World : Type}.
Variable hook_function : Hook → Event → World → outcome pyval * World.
Variable sieve_function :
  Hook → Event → Hook → World → outcome (option Event) * World.
Variable casefold : string → string.
Variable config : Config.

Implicit Types s : State World.

Local Abbreviation unload_plugin :=
  (unload_plugin hook_function sieve_function casefold config).
Local Abbreviation load_plugin :=
  (load_plugin hook_function sieve_function casefold).
Local Abbreviation reachable :=
  (reachable hook_function sieve_function casefold config).

(** X5: The [plugin_loading] section of the configuration only decides whether
    a load goes on.  With [use_whitelist] the title must be on the
    whitelist and the blacklist is not read; without it the title must not
    be on the blacklist and the whitelist is not read.  A title that does
    not pass is logged and nothing else happens: the manager is untouched,
    so what was loaded from the path stays loaded.  A title that passes is
    loaded exactly as under a configuration without the section. *)
Theorem X5_plugin_loading_only_gates path name ttl module s pl :
  plugin_loading config = Some pl →
  load_plugin config path name ttl module s
  = if (if use_whitelist pl then bool_decide (ttl ∈ whitelist pl)
        else bool_decide (ttl ∉ blacklist pl))
    then load_plugin {| plugin_loading := None;
                        show_plugin_loading := show_plugin_loading config |}
           path name ttl module s
    else Ok () (emit (log_not_loading ttl) s).
Proof.
  intros Hpl. destruct config as [plc shw]. simpl in Hpl. subst plc.
  rewrite !load_plugin_unfold, !prepare_load_unfold. unfold should_load.
  cbn [plugin_loading show_plugin_loading fst snd negb].
  destruct (use_whitelist pl).
  - destruct (decide (ttl ∈ whitelist pl)) as [Hin|Hin].
    + rewrite (bool_decide_eq_false_2 (ttl ∉ whitelist pl)) by (by intros ?).
      by rewrite (bool_decide_eq_true_2 (ttl ∈ whitelist pl)) by done.
    + rewrite (bool_decide_eq_true_2 (ttl ∉ whitelist pl)) by done.
      by rewrite (bool_decide_eq_false_2 (ttl ∈ whitelist pl)) by done.
  - destruct (decide (ttl ∈ blacklist pl)) as [Hin|Hin].
    + rewrite (bool_decide_eq_true_2 (ttl ∈ blacklist pl)) by done.
      by rewrite (bool_decide_eq_false_2 (ttl ∉ blacklist pl))
        by (by intros ?).
    + rewrite (bool_decide_eq_false_2 (ttl ∈ blacklist pl)) by done.
      by rewrite (bool_decide_eq_true_2 (ttl ∉ blacklist pl)) by done.
Qed.

(** X6: A reload whose import fails leaves the path unloaded: the plugin that
    was loaded from it has been unloaded before the import is tried, its
    hooks are out of every index, and the load ends with the log of the
    import error. *)
Theorem X6_failed_import_unloads_the_old_plugin path name ttl s :
  reachable s →
  is_Some (plugins (mgr s) !! path) →
  (should_load config ttl).1 = true →
  ∃ s',
    load_plugin config path name ttl None s = Ok () s'
    ∧ plugins (mgr s') = delete path (plugins (mgr s))
    ∧ consistent casefold (mgr s')
    ∧ last (trace s') = Some (log_import_error ttl).
Proof.
  intros [Hc Hq]%reachable_invariant Hsome Hgo.
  rewrite load_plugin_unfold, prepare_load_unfold.
  destruct (should_load config ttl) as [go lg]. simpl in Hgo. subst go.
  cbn [fst snd negb]. rewrite bool_decide_eq_true_2 by done.
  destruct (unload_plugin_consistent hook_function sieve_function casefold
              config path (emits lg s) Hc Hq)
    as (b & s1 & -> & _ & Hpl & _ & Hc1 & _).
  eexists. split; [done|]. cbn [mgr emit trace]. split_and!; try done.
  apply last_snoc.
Qed.

(** X7: Unloading twice: the second call finds the path not loaded, returns
    [False] and does nothing. *)
Theorem X7_second_unload_returns_false path s b s' :
  plugins_keyed (mgr s) →
  unload_plugin path s = Ok b s' →
  unload_plugin path s' = Ok false s'.
Proof.
  intros Hk [(Hnone & _ & ->)|(pl&pm&pm1&Hp&_&_&_&_&Hm&_)]%unload_plugin_Ok.
  - by rewrite unload_plugin_unfold, Hnone.
  - rewrite unload_plugin_unfold, Hm, (Hk _ _ Hp).
    destruct pm1; simpl. by rewrite lookup_delete_eq.
Qed.
End load_edges.

Lemma X5_plugin_loading_only_gates_witness :
  plugin_loading scenes.picky
  = Some {| use_whitelist := true; whitelist := ["salute"%string];
            blacklist := ["salute"; "greeter"]%string |}
  ∧ load_plugin demo.hook_function demo.sieve_function demo.casefold
      scenes.picky "/bot/plugins/greeter.py" "greeter.py" "greeter"
      (Some demo.greeter_module) demo.greeting
    = Ok () (emit (log_not_loading "greeter") demo.greeting)
  ∧ load_plugin demo.hook_function demo.sieve_function demo.casefold
      scenes.picky "/bot/plugins/salute.py" "salute.py" "salute"
      (Some demo.salute_module) demo.greeting
    = demo.load_salute demo.greeting.
Proof.
  split; [reflexivity|]. split.
  - rewrite (X5_plugin_loading_only_gates demo.hook_function demo.sieve_function
               demo.casefold scenes.picky "/bot/plugins/greeter.py"
               "greeter.py" "greeter" (Some demo.greeter_module) demo.greeting
               _ eq_refl)%string.
    reflexivity.
  - rewrite (X5_plugin_loading_only_gates demo.hook_function demo.sieve_function
               demo.casefold scenes.picky "/bot/plugins/salute.py"
               "salute.py" "salute" (Some demo.salute_module) demo.greeting
               _ eq_refl)%string.
    reflexivity.
Defined.

Lemma X6_failed_import_unloads_the_old_plugin_witness :
  reachable demo.hook_function demo.sieve_function demo.casefold demo.config
    demo.greeting
  ∧ is_Some (plugins (mgr demo.greeting) !! "/bot/plugins/greeter.py"%string)
  ∧ (should_load demo.config "greeter").1 = true
  ∧ ∃ s',
      demo.load_plugin "/bot/plugins/greeter.py" "greeter.py" "greeter" None
        demo.greeting = Ok () s'
      ∧ plugins (mgr s')
        = delete "/bot/plugins/greeter.py"%string (plugins (mgr demo.greeting))
      ∧ consistent demo.casefold (mgr s')
      ∧ last (trace s') = Some (log_import_error "greeter").
Proof.
  assert (is_Some (plugins (mgr demo.greeting)
                     !! "/bot/plugins/greeter.py"%string)) as Hsome.
  { exists demo.greeter_plugin. vm_compute. reflexivity. }
  split; [apply demo_reach_greeting|]. split; [exact Hsome|].
  split; [reflexivity|].
  exact (X6_failed_import_unloads_the_old_plugin demo.hook_function
           demo.sieve_function demo.casefold demo.config
           "/bot/plugins/greeter.py" "greeter.py" "greeter" demo.greeting
           demo_reach_greeting Hsome eq_refl)%string.
Defined.

Lemma X7_second_unload_returns_false_witness :
  plugins_keyed (mgr demo.greeting)
  ∧ demo.unload_plugin "/bot/plugins/greeter.py" demo.greeting
    = Ok true demo.parted
  ∧ demo.unload_plugin "/bot/plugins/greeter.py" demo.parted
    = Ok false demo.parted.
Proof.
  assert (plugins_keyed (mgr demo.greeting)) as Hk.
  { apply (consistent_keyed demo.casefold).
    apply (reachable_invariant demo.hook_function demo.sieve_function
             demo.casefold demo.config), demo_reach_greeting. }
  assert (demo.unload_plugin "/bot/plugins/greeter.py" demo.greeting
          = Ok true demo.parted) as Hu by (vm_compute; reflexivity).
  split; [exact Hk|]. split; [exact Hu|].
  exact (X7_second_unload_returns_false demo.hook_function demo.sieve_function
           demo.casefold demo.config "/bot/plugins/greeter.py"%string
           demo.greeting true demo.parted Hk Hu).
Defined.
(** ** What a load and an unload run *)

Lemma omap_dispatched_nil (l : list effect) :
  Forall (λ e, dispatched e = None) l → omap dispatched l = [].
Proof. induction 1 as [|e l He _ IH]; [done|]. simpl. by rewrite He. Qed.

Lemma foldl_invariant {A B} (P : B → Prop) (f : B → A → B) l b :
  (∀ b x, P b → P (f b x)) → P b → P (foldl f b l).
Proof. intros Hf. revert b. induction l; simpl; eauto. Qed.

(** Reading the effects of a registration with a reader that skips the
    log lines. *)
Section registration_log.
Context {X : Type} (f : effect → option X).
Hypothesis f_loaded : ∀ h, f (log_loaded h) = None.
Hypothesis f_conflict : ∀ p a o, f (log_conflict p a o) = None.
Variable config : Config.

Lemma _log_hook_omap h : omap f (_log_hook config h) = [].
Proof.
  unfold _log_hook. destruct (show_plugin_loading config); [|done].
  simpl. by rewrite f_loaded.
Qed.

Lemma bind_log_hook_omap hs : omap f (hs ≫= _log_hook config) = [].
Proof.
  induction hs as [|h hs IH]; [done|].
  by rewrite bind_cons, omap_app, _log_hook_omap, IH.
Qed.

Lemma register_commands_omap ttl hs cmds :
  omap f (register_commands config ttl hs cmds).2 = [].
Proof.
  unfold register_commands.
  apply (foldl_invariant
           (λ acc : gmap string Hook * list effect, omap f acc.2 = []));
    [|done].
  intros acc h Hacc. simpl. rewrite omap_app, _log_hook_omap, app_nil_r.
  apply (foldl_invariant
           (λ acc : gmap string Hook * list effect, omap f acc.2 = []));
    [|done].
  intros acc' a Hacc'. unfold register_alias.
  destruct (acc'.1 !! a); simpl; [|done].
  rewrite omap_app, Hacc'. simpl. by rewrite f_conflict.
Qed.

Lemma register_effects_omap plugin pm :
  omap f (register_effects config plugin pm)
  = omap f (start_periodic <$> hooks plugin !!! "periodic"%string).
Proof.
  unfold register_effects.
  rewrite !omap_app, !bind_log_hook_omap, register_commands_omap.
  rewrite !app_nil_r. simpl.
  induction (hooks plugin !!! "periodic"%string) as [|h hs IH]; [done|].
  rewrite bind_cons, fmap_cons. simpl.
  rewrite omap_app, _log_hook_omap, IH. simpl.
  by destruct (f (start_periodic h)).
Qed.
End registration_log.

Lemma register_effects_quiet config plugin pm :
  omap dispatched (register_effects config plugin pm) = [].
Proof.
  rewrite register_effects_omap by done.
  by induction (hooks plugin !!! "periodic"%string).
Qed.

Lemma should_load_true config ttl :
  (should_load config ttl).1 = true → should_load config ttl = (true, []).
Proof.
  unfold should_load. destruct (plugin_loading config) as [pl|]; [|done].
  destruct (use_whitelist pl); by case_bool_decide.
Qed.

Section runs.
Context {World : Type}.
Variable hook_function : Hook → Event → World → outcome pyval * World.
Variable sieve_function :
  Hook → Event → Hook → World → outcome (option Event) * World.

Implicit Types s : State World.

(** One launch of a hook that goes past the sieves, on its own event. *)
Lemma launch_exempt_run hook content s :
  exempt_from_sieves hook = true →
  _hook_waiting_queues (mgr s) = ∅ →
  ∃ b s' tr,
    launch hook_function sieve_function hook (mk_Event (Some hook) content) s
    = Ok b s'
    ∧ trace s' = trace s ++ tr
    ∧ omap dispatched tr = [(hook, b)]
    ∧ Forall (λ e, is_Some (run_of e)) tr
    ∧ dispatch_frame (mgr s) (mgr s')
    ∧ _hook_waiting_queues (mgr s') = ∅.
Proof.
  intros Hex Hq.
  destruct (launch_basic hook_function sieve_function hook
              (mk_Event (Some hook) content) s) as (_ & _ & _ & Hret).
  destruct (Hret Hq) as (b & s' & Hl & Hq').
  destruct (launch_spec hook_function sieve_function hook
              (mk_Event (Some hook) content) s)
    as (pre & final & Hphase & _ & Hfr & Hres).
  rewrite Hex in Hphase. destruct Hphase as [-> ->].
  rewrite Hl in Hres, Hfr. cbn [res_state] in Hfr.
  destruct Hres as (_ & _ & _ & out & log & -> & Htr & Hchain).
  exists (succeeded out), s', (run_hook (threaded hook) hook
                                 (mk_Event (Some hook) content) out :: log).
  split_and!; try done.
  - simpl. f_equal. apply omap_dispatched_nil.
    eapply Forall_impl; [by eapply post_chain_about|].
    intros [] He; try done. by destruct ev.
  - apply Forall_cons. split; [by eexists|].
    eapply Forall_impl; [by eapply post_chain_about|].
    by intros [] He.
Qed.

(** The [on_stop] hooks are all run, in order, whatever they return. *)
Lemma on_stop_loop_runs hs s :
  (∀ h, h ∈ hs → exempt_from_sieves h = true) →
  _hook_waiting_queues (mgr s) = ∅ →
  ∃ s' tr,
    on_stop_loop hook_function sieve_function hs s = Ok () s'
    ∧ trace s' = trace s ++ tr
    ∧ (omap dispatched tr).*1 = hs
    ∧ Forall (λ e, is_Some (run_of e)) tr
    ∧ dispatch_frame (mgr s) (mgr s')
    ∧ _hook_waiting_queues (mgr s') = ∅.
Proof.
  revert s. induction hs as [|h hs IH]; intros s Hex Hq.
  - exists s, []. rewrite app_nil_r.
    split_and!; try done. apply dispatch_frame_refl.
  - destruct (launch_exempt_run h EmptyString s)
      as (b & s1 & tr1 & Hl & Htr1 & Hd1 & Hn1 & Hfr1 & Hq1);
      [apply Hex; by left|done|].
    destruct (IH s1) as (s' & tr & Hr & Htr & Hd & Hn & Hfr & Hq');
      [intros h' Hh'; apply Hex; by right|done|].
    exists s', (tr1 ++ tr). simpl. unfold mbind, M_bind. rewrite Hl.
    split_and!; try done.
    + by rewrite Htr, Htr1, <-app_assoc.
    + by rewrite omap_app, fmap_app, Hd1, Hd.
    + by apply Forall_app.
    + by eapply dispatch_frame_trans.
Qed.

(** The [on_start] hooks are run in order up to the first that fails. *)
Lemma on_start_loop_runs hs s :
  (∀ h, h ∈ hs → exempt_from_sieves h = true) →
  _hook_waiting_queues (mgr s) = ∅ →
  ∃ b s' tr,
    on_start_loop hook_function sieve_function hs s = Ok b s'
    ∧ trace s' = trace s ++ tr
    ∧ Forall (λ e, is_Some (run_of e)) tr
    ∧ dispatch_frame (mgr s) (mgr s')
    ∧ _hook_waiting_queues (mgr s') = ∅
    ∧ if b then omap dispatched tr = (λ h, (h, true)) <$> hs
      else ∃ pre h post,
             hs = pre ++ h :: post
             ∧ omap dispatched tr
               = ((λ h, (h, true)) <$> pre) ++ [(h, false)].
Proof.
  revert s. induction hs as [|h hs IH]; intros s Hex Hq.
  - exists true, s, []. rewrite app_nil_r.
    split_and!; try done. apply dispatch_frame_refl.
  - destruct (launch_exempt_run h EmptyString s)
      as (b1 & s1 & tr1 & Hl & Htr1 & Hd1 & Hn1 & Hfr1 & Hq1);
      [apply Hex; by left|done|].
    simpl. unfold mbind, M_bind. rewrite Hl. destruct b1.
    + destruct (IH s1) as (b & s' & tr & Hr & Htr & Hn & Hfr & Hq' & Hruns);
        [intros h' Hh'; apply Hex; by right|done|].
      exists b, s', (tr1 ++ tr). split_and!; try done.
      * by rewrite Htr, Htr1, <-app_assoc.
      * by apply Forall_app.
      * by eapply dispatch_frame_trans.
      * rewrite omap_app, Hd1. destruct b.
        -- by rewrite Hruns.
        -- destruct Hruns as (pre & h' & post & -> & ->).
           by exists (h :: pre), h', post.
    + exists false, s1, tr1. split_and!; try done.
      exists [], h, hs. by rewrite Hd1.
Qed.
End runs.
Lemma omap_started_periodic (l : list Hook) :
  omap started (start_periodic <$> l) = l.
Proof. induction l as [|h l IH]; [done|]. rewrite fmap_cons. simpl. by f_equal. Qed.

Section lifecycle_runs.
Context {World : Type}.
Variable hook_function : Hook → Event → World → outcome pyval * World.
Variable sieve_function :
  Hook → Event → Hook → World → outcome (option Event) * World.
Variable casefold : string → string.
Variable config : Config.

Implicit Types s : State World.

Local Abbreviation unload_plugin :=
  (unload_plugin hook_function sieve_function casefold config).
Local Abbreviation load_plugin :=
  (load_plugin hook_function sieve_function casefold config).
Local Abbreviation reachable :=
  (reachable hook_function sieve_function casefold config).

(** The tasks a loaded plugin holds between calls are its periodic
    loops, one per periodic hook. *)
Lemma reachable_tasks s :
  reachable s →
  ∀ path p, plugins (mgr s) !! path = Some p →
            tasks p = periodic_task <$> hooks p !!! "periodic"%string.
Proof.
  induction 1 as [w n|path name ttl module s s' Hr IH Hl
                 |path s b s' Hr IH Hu|hook event s b s' Hr IH Hl].
  - intros path p. simpl. by rewrite lookup_empty.
  - destruct (reachable_invariant _ _ _ _ _ Hr) as [Hc Hq].
    destruct (load_plugin_consistent hook_function sieve_function casefold
                config path name ttl module s Hc Hq)
      as (s2 & Hl2 & _ & _ & Hst).
    rewrite Hl in Hl2. injection Hl2 as <-.
    intros k p [Hk|(-> & found & _ & Hh & Ht)]%Hst; [by eapply IH|].
    by rewrite Ht, Hh, delete_on_start_lookup.
  - destruct (reachable_invariant _ _ _ _ _ Hr) as [Hc Hq].
    destruct (unload_plugin_consistent hook_function sieve_function casefold
                config path s Hc Hq) as (b2 & s2 & Hu2 & _ & Hpl & _).
    rewrite Hu in Hu2. injection Hu2 as <- <-.
    intros k p. rewrite Hpl. intros [_ Hk]%lookup_delete_Some. by eapply IH.
  - destruct (launch_basic hook_function sieve_function hook event s)
      as (Hfr & _). rewrite Hl in Hfr. cbn [res_state] in Hfr.
    destruct (dispatch_frame_plugins _ _ Hfr) as [-> _]. apply IH.
Qed.

Lemma on_type_exempt (t : string) h :
  t ∈ ["on_start"; "on_stop"; "periodic"]%string →
  type h = t → exempt_from_sieves h = true.
Proof. intros Ht <-. by apply bool_decide_eq_true_2. Qed.

(** X9: What an unload does, in order.  The [on_stop] hooks of the plugin are
    each run once, in the order of the module and past the sieves; one
    that raises does not keep the others from running, nor the unload
    from going on.  Then the tables are unregistered and the tasks of the
    plugin cancelled, which are the loops of its periodic hooks, and the
    unload is logged. *)
Theorem X9_unload_runs_the_on_stop_hooks path s p :
  reachable s →
  plugins (mgr s) !! path = Some p →
  (∀ h, h ∈ hooks p !!! "on_stop"%string → type h = "on_stop"%string) →
  ∃ s' stops,
    unload_plugin path s = Ok true s'
    ∧ trace s'
      = trace s ++ stops
        ++ unregister_tables (title p) :: cancel_tasks p
        ++ (if show_plugin_loading config then [log_unloaded (title p)]
            else [])
    ∧ (omap dispatched stops).*1 = hooks p !!! "on_stop"%string
    ∧ Forall (λ e, is_Some (run_of e)) stops
    ∧ tasks p = periodic_task <$> hooks p !!! "periodic"%string.
Proof.
  intros Hr Hp Hty. pose proof (reachable_tasks s Hr path p Hp) as Htasks.
  apply reachable_invariant in Hr as [Hc Hq].
  destruct (consistent_unregister casefold path p (mgr s) Hc Hp)
    as (pm' & Hu & Hpl & _ & Hq' & _).
  pose proof (consistent_keyed _ _ Hc path p Hp) as Hfp.
  rewrite unload_plugin_unfold, Hp, Hu.
  destruct (on_stop_loop_runs hook_function sieve_function
              (hooks p !!! "on_stop"%string) (upd_mgr (λ _, pm') s))
    as (s1 & stops & Hs & Htr & Hd & Hn & Hfr & Hq1).
  { intros h Hh. apply (on_type_exempt "on_stop"); [|by apply Hty].
    right; by left. }
  { cbn [mgr upd_mgr]. by rewrite Hq'. }
  rewrite Hs. unfold finish_unload. cbn [mgr emits].
  destruct (dispatch_frame_plugins _ _ Hfr) as [Hpl1 _].
  cbn [mgr upd_mgr] in Hpl1. rewrite Hpl1, Hpl, Hfp, Hp.
  eexists _, stops. split; [reflexivity|]. cbn [trace emits upd_mgr].
  rewrite Htr. cbn [trace upd_mgr]. split_and!; try done.
  by rewrite <-!app_assoc.
Qed.

(** X8: What a load of a new path runs.  After the tables are created the
    [on_start] hooks are run in the order of the module, past the sieves,
    each after its predecessor has returned.  When all have returned the
    plugin is registered, and one loop is started per periodic hook.  With
    the first hook that raises the load ends: the hooks after it are never
    run, the failure is logged, the tables are unregistered, and the path
    is not loaded. *)
Theorem X8_on_start_hooks_run_until_one_fails path name ttl found s :
  reachable s →
  plugins (mgr s) !! path = None →
  (should_load config ttl).1 = true →
  (∀ h, h ∈ found !!! "on_start"%string → type h = "on_start"%string) →
  ∃ s' starts rest,
    load_plugin path name ttl (Some found) s = Ok () s'
    ∧ trace s' = trace s ++ create_tables ttl :: starts ++ rest
    ∧ Forall (λ e, is_Some (run_of e)) starts
    ∧ omap dispatched rest = []
    ∧ ((omap dispatched starts
        = (λ h, (h, true)) <$> found !!! "on_start"%string
        ∧ is_Some (plugins (mgr s') !! path)
        ∧ omap started rest = found !!! "periodic"%string)
       ∨ (∃ pre h post,
            found !!! "on_start"%string = pre ++ h :: post
            ∧ omap dispatched starts
              = ((λ h, (h, true)) <$> pre) ++ [(h, false)]
            ∧ plugins (mgr s') !! path = None
            ∧ rest = [log_on_start_errored ttl; unregister_tables ttl])).
Proof.
  intros [Hc Hq]%reachable_invariant Hnew Hgo Hty.
  rewrite load_plugin_unfold, prepare_load_unfold.
  rewrite (should_load_true _ _ Hgo). cbn [fst snd negb].
  rewrite bool_decide_eq_false_2 by (rewrite Hnew; by intros [??]).
  rewrite start_plugin_unfold. cbn [hooks title].
  destruct (on_start_loop_runs hook_function sieve_function
              (found !!! "on_start"%string)
              (emit (create_tables ttl) (emits [] s)))
    as (b & sA & starts & Hs & Htr & Hn & Hfr & HqA & Hruns).
  { intros h Hh. apply (on_type_exempt "on_start"); [|by apply Hty]. by left. }
  { done. }
  rewrite Hs. cbn [mgr emit emits] in Hfr.
  destruct (dispatch_frame_plugins _ _ Hfr) as [HplA _].
  cbn [trace emit emits] in Htr. rewrite app_nil_r in Htr.
  destruct b.
  - eexists _, starts, _. split; [reflexivity|].
    cbn [trace emits upd_mgr mgr]. rewrite Htr, <-!app_assoc.
    split; [reflexivity|]. split; [done|].
    split; [apply register_effects_quiet|]. left. split; [done|]. split.
    + rewrite registered_fields. cbn -[sort_hooks sort_by].
      rewrite lookup_insert_eq. eauto.
    + rewrite register_effects_omap by done. cbn [hooks].
      apply omap_started_periodic.
  - eexists _, starts, _. split; [reflexivity|].
    cbn [trace emits mgr]. rewrite Htr, <-!app_assoc.
    split; [reflexivity|]. split; [done|]. split; [done|]. right.
    destruct Hruns as (pre & h & post & Hhs & Hd).
    exists pre, h, post. split_and!; try done. by rewrite HplA.
Qed.
End lifecycle_runs.
Lemma demo_reach_idle :
  reachable demo.hook_function demo.sieve_function demo.casefold demo.config
    demo.idle.
Proof. apply (reach_new _ _ _ _ 0%nat 1%positive). Qed.

Lemma demo_reach_ticking :
  reachable demo.hook_function demo.sieve_function demo.casefold demo.config
    scenes.ticking.
Proof.
  apply (reach_load _ _ _ _ "/bot/plugins/clock.py" "clock.py" "clock"
           (Some scenes.clock_module) demo.idle)%string.
  - apply demo_reach_idle.
  - vm_compute. reflexivity.
Qed.

Lemma X9_unload_runs_the_on_stop_hooks_witness :
  reachable demo.hook_function demo.sieve_function demo.casefold demo.config
    scenes.ticking
  ∧ plugins (mgr scenes.ticking) !! "/bot/plugins/clock.py"%string
    = Some scenes.clock_plugin
  ∧ (∀ h, h ∈ hooks scenes.clock_plugin !!! "on_stop"%string →
          type h = "on_stop"%string)
  ∧ ∃ s' stops,
      demo.unload_plugin "/bot/plugins/clock.py" scenes.ticking = Ok true s'
      ∧ trace s'
        = trace scenes.ticking ++ stops
          ++ unregister_tables "clock"
          :: cancel_tasks scenes.clock_plugin
          ++ (if show_plugin_loading demo.config then [log_unloaded "clock"]
              else [])
      ∧ (omap dispatched stops).*1 = [scenes.closer; scenes.sweeper]
      ∧ Forall (λ e, is_Some (run_of e)) stops
      ∧ tasks scenes.clock_plugin = [periodic_task scenes.ticker].
Proof.
  assert (plugins (mgr scenes.ticking) !! "/bot/plugins/clock.py"%string
          = Some scenes.clock_plugin) as Hp by (vm_compute; reflexivity).
  assert (∀ h, h ∈ hooks scenes.clock_plugin !!! "on_stop"%string →
               type h = "on_stop"%string) as Hty.
  { intros h Hh. change (h ∈ [scenes.closer; scenes.sweeper]) in Hh.
    rewrite !elem_of_cons in Hh. destruct Hh as [->|[->|Hh]]; [done|done|].
    by apply elem_of_nil in Hh. }
  split; [apply demo_reach_ticking|]. split; [exact Hp|]. split; [exact Hty|].
  exact (X9_unload_runs_the_on_stop_hooks demo.hook_function demo.sieve_function
           demo.casefold demo.config "/bot/plugins/clock.py"%string
           scenes.ticking scenes.clock_plugin demo_reach_ticking Hp Hty).
Defined.

Lemma X8_on_start_hooks_run_until_one_fails_witness :
  reachable demo.hook_function demo.sieve_function demo.casefold demo.config
    demo.idle
  ∧ plugins (mgr demo.idle) !! "/bot/plugins/fragile.py"%string = None
  ∧ (should_load demo.config "fragile").1 = true
  ∧ (∀ h, h ∈ scenes.fragile_module !!! "on_start"%string →
          type h = "on_start"%string)
  ∧ ∃ s' starts rest,
      demo.load_plugin "/bot/plugins/fragile.py" "fragile.py" "fragile"
        (Some scenes.fragile_module) demo.idle = Ok () s'
      ∧ trace s' = trace demo.idle ++ create_tables "fragile" :: starts ++ rest
      ∧ Forall (λ e, is_Some (run_of e)) starts
      ∧ omap dispatched rest = []
      ∧ ((omap dispatched starts
          = (λ h, (h, true)) <$> scenes.fragile_module !!! "on_start"%string
          ∧ is_Some (plugins (mgr s') !! "/bot/plugins/fragile.py"%string)
          ∧ omap started rest = scenes.fragile_module !!! "periodic"%string)
         ∨ (∃ pre h post,
              scenes.fragile_module !!! "on_start"%string = pre ++ h :: post
              ∧ omap dispatched starts
                = ((λ h, (h, true)) <$> pre) ++ [(h, false)]
              ∧ plugins (mgr s') !! "/bot/plugins/fragile.py"%string = None
              ∧ rest = [log_on_start_errored "fragile";
                        unregister_tables "fragile"])).
Proof.
  assert (∀ h, h ∈ scenes.fragile_module !!! "on_start"%string →
               type h = "on_start"%string) as Hty.
  { intros h Hh.
    change (h ∈ [scenes.first_start; scenes.failing_start;
                 scenes.never_start]) in Hh.
    rewrite !elem_of_cons in Hh.
    destruct Hh as [->|[->|[->|Hh]]]; [done|done|done|].
    by apply elem_of_nil in Hh. }
  split; [apply demo_reach_idle|]. split; [reflexivity|].
  split; [reflexivity|]. split; [exact Hty|].
  exact (X8_on_start_hooks_run_until_one_fails demo.hook_function
           demo.sieve_function demo.casefold demo.config
           "/bot/plugins/fragile.py" "fragile.py" "fragile"
           scenes.fragile_module demo.idle demo_reach_idle eq_refl eq_refl
           Hty)%string.
Defined.

(** On the demo bot: [fragile] runs its first two [on_start] hooks, the
    second raises, the third is never run and the sieve is not
    registered. *)
Lemma fragile_load_run :
  ∃ s',
    demo.load_plugin "/bot/plugins/fragile.py" "fragile.py" "fragile"
      (Some scenes.fragile_module) demo.idle = Ok () s'
    ∧ omap dispatched (trace s')
      = [(scenes.first_start, true); (scenes.failing_start, false)]
    ∧ sieves (mgr s') = [].
Proof. eexists. split_and!; vm_compute; reflexivity. Qed.
Lemma remove_all_elem_of {A} `{EqDecision A} (xs l l' : list A) x :
  remove_all xs l = inr l' → x ∈ xs → x ∈ l.
Proof.
  unfold remove_all. revert l. induction xs as [|y xs IH]; intros l.
  - by intros _ ?%elem_of_nil.
  - simpl. destruct (list_remove y l) as [l1|] eqn:Hy; [|done]. simpl.
    intros Hr [->|Hx]%elem_of_cons.
    + by eapply list_remove_elem_of.
    + eapply list_remove_subseteq; [done|]. by eapply IH.
Qed.

Section dispatch_more.
Context {World : Type}.
Variable hook_function : Hook → Event → World → outcome pyval * World.
Variable sieve_function :
  Hook → Event → Hook → World → outcome (option Event) * World.

Implicit Types s : State World.

(** X15: The post hooks are told of every sieve call.  After a sieve has
    been called, whether it returned an event, returned [None] or raised,
    the post hooks are called in list order on a report that names the
    sieve, the event it was given, what it passed on as the result and the
    exception as the error; a sieve that raised passes nothing on. *)
Theorem X15_sieve_calls_are_reported sieve event hook s :
  let out := (sieve_function sieve event hook (world s)).1 in
  let r := _sieve hook_function sieve_function sieve event hook s in
  ∃ log,
    r.1 = passed_on out
    ∧ trace r.2
      = trace s ++ run_sieve (threaded sieve) sieve event hook out :: log
    ∧ post_chain
        (PostHookEvent sieve event
           (match passed_on out with
            | Some e => PyEvent e
            | None => PyNone
            end) (error_of out))
        (hook_hooks (mgr s) !!! "post"%string) log
    ∧ (succeeded out = false → r.1 = None)
    ∧ mgr r.2 = touch_post (mgr s).
Proof.
  unfold _sieve. simpl.
  destruct (sieve_function sieve event hook (world s)) as [out w]. simpl.
  destruct out as [[event'|]|exc]; simpl;
    (edestruct (run_post_hooks_spec hook_function)
       as (log & Htr & Hchain & Hmgr & _);
     exists log; rewrite Htr, Hmgr; simpl; rewrite <-app_assoc;
     split_and!; done).
Qed.


End dispatch_more.

Section load_more.
Context {World : Type}.
Variable hook_function : Hook → Event → World → outcome pyval * World.
Variable sieve_function :
  Hook → Event → Hook → World → outcome (option Event) * World.
Variable casefold : string → string.
Variable config : Config.

Implicit Types s : State World.

Local Abbreviation unload_plugin :=
  (unload_plugin hook_function sieve_function casefold config).
Local Abbreviation load_plugin :=
  (load_plugin hook_function sieve_function casefold config).

(** X10: A load that registers stores one plugin object under the path and
    under the title, so [find_plugin] finds what [plugins] holds: the
    plugin without its [on_start] hooks (deleted after the registration)
    and with the tasks of its periodic loops.  The other entries of both
    dicts stay. *)
Theorem X10_registered_plugin_is_found path name ttl found s s' :
  plugins (mgr s) !! path = None →
  load_plugin path name ttl (Some found) s = Ok () s' →
  is_Some (plugins (mgr s') !! path) →
  let loaded :=
    {| file_path := path; file_name := name; title := ttl;
       hooks := delete "on_start"%string found;
       tasks := periodic_task <$> found !!! "periodic"%string |} in
  plugins (mgr s') = <[path := loaded]> (plugins (mgr s))
  ∧ _plugin_name_map (mgr s') = <[ttl := loaded]> (_plugin_name_map (mgr s))
  ∧ find_plugin ttl (mgr s') = Some loaded
  ∧ plugins (mgr s') !! path = find_plugin ttl (mgr s').
Proof.
  intros Hnew (go & s1 & Hp & Hcase)%load_plugin_Ok Hsome. cbv zeta.
  apply prepare_load_Ok in Hp as [_ [[Hm1 _]|(_ & [? Hold] & _)]];
    [|congruence].
  destruct Hcase as [[_ ->]|[(_ & _ & ->)|(_ & fnd & b & s2 & Hrun)]].
  - rewrite Hm1, Hnew in Hsome. by destruct Hsome.
  - cbn [mgr emit] in Hsome. rewrite Hm1, Hnew in Hsome. by destruct Hsome.
  - cbv zeta in Hrun. destruct Hrun as ([= <-] & _ & Hfr & _ & Hreg).
    destruct (dispatch_frame_plugins _ _ Hfr) as [Hpl Hnm].
    rewrite Hm1 in Hpl, Hnm. destruct b.
    + unfold register_plugin in Hreg. injection Hreg as <-.
      cbn [mgr emits upd_mgr]. rewrite registered_fields.
      cbn -[sort_hooks sort_by]. rewrite Hpl, Hnm. unfold find_plugin.
      cbn -[sort_hooks sort_by]. rewrite !lookup_insert_eq. done.
    + subst s'. cbn [mgr emits] in Hsome. rewrite Hpl, Hnew in Hsome.
      by destruct Hsome.
Qed.

(** X11: An unload that does not find a hook of the plugin where the load put
    it raises: when a sieve, connect or outbound hook of the plugin is not
    in its list, [list.remove] fails, and the plugin is still in
    [plugins] after the call. *)
Theorem X11_unload_raises_on_a_missing_hook path s p h :
  plugins (mgr s) !! path = Some p →
  (h ∈ hooks p !!! "sieve"%string ∧ h ∉ sieves (mgr s))
  ∨ (h ∈ hooks p !!! "on_connect"%string ∧ h ∉ connect_hooks (mgr s))
  ∨ (h ∈ hooks p !!! "irc_out"%string ∧ h ∉ out_sieves (mgr s)) →
  is_raise (unload_plugin path s) = true
  ∧ plugins (mgr (res_state (unload_plugin path s))) !! path = Some p.
Proof.
  intros Hp Hmiss. rewrite unload_plugin_unfold, Hp.
  destruct (unregister_hooks casefold p (mgr s)) as [e|pm'] eqn:Hu; [done|].
  apply unregister_hooks_spec in Hu
    as (avail&ack&raw&catch&ev&rx&sv&cn&out&post&perm&Hx).
  destruct Hx as (_&_&_&_&_&_&Hsv&Hcn&Hout&_).
  destruct Hmiss as [[Hin Hnot]|[[Hin Hnot]|[Hin Hnot]]]; destruct Hnot;
    by eapply remove_all_elem_of.
Qed.
End load_more.

(** The dispatch of the witness, run: the command gets the event of the
    last sieve, which got the event of the first. *)
Example stamped_run :
  trace (res_state (launch demo.hook_function scenes.stamping demo.cmd
                      demo.ev0 scenes.stamped))
  = [run_sieve false scenes.stamp_first demo.ev0 demo.cmd
       (returned (Some (mk_Event (Some scenes.stamp_first) "first")));
     run_sieve false scenes.stamp_last
       (mk_Event (Some scenes.stamp_first) "first") demo.cmd
       (returned (Some (mk_Event (Some scenes.stamp_last) "last")));
     run_hook false demo.cmd (mk_Event (Some scenes.stamp_last) "last")
       (returned PyNone)].
Proof. vm_compute. reflexivity. Qed.

Lemma X10_registered_plugin_is_found_witness :
  plugins (mgr demo.idle) !! "/bot/plugins/clock.py"%string = None
  ∧ scenes.load_clock demo.idle = Ok () scenes.ticking
  ∧ is_Some (plugins (mgr scenes.ticking) !! "/bot/plugins/clock.py"%string)
  ∧ plugins (mgr scenes.ticking)
    = <["/bot/plugins/clock.py"%string := scenes.clock_plugin]>
        (plugins (mgr demo.idle))
  ∧ find_plugin "clock" (mgr scenes.ticking) = Some scenes.clock_plugin.
Proof.
  assert (scenes.load_clock demo.idle = Ok () scenes.ticking) as Hl
    by (vm_compute; reflexivity).
  assert (is_Some (plugins (mgr scenes.ticking)
                     !! "/bot/plugins/clock.py"%string)) as Hsome.
  { exists scenes.clock_plugin. vm_compute. reflexivity. }
  pose proof (X10_registered_plugin_is_found demo.hook_function
                demo.sieve_function demo.casefold demo.config
                "/bot/plugins/clock.py" "clock.py" "clock"
                scenes.clock_module demo.idle scenes.ticking eq_refl Hl
                Hsome)%string as (H1 & _ & H3 & _).
  split; [reflexivity|]. split; [exact Hl|]. split; [exact Hsome|].
  split; [exact H1|exact H3].
Defined.

Lemma X11_unload_raises_on_a_missing_hook_witness :
  plugins (mgr scenes.tampered) !! "/bot/plugins/greeter.py"%string
  = Some demo.greeter_plugin
  ∧ demo.s_low ∈ hooks demo.greeter_plugin !!! "sieve"%string
  ∧ (demo.s_low ∉ sieves (mgr scenes.tampered))
  ∧ is_raise (demo.unload_plugin "/bot/plugins/greeter.py" scenes.tampered)
    = true
  ∧ plugins (mgr (res_state (demo.unload_plugin "/bot/plugins/greeter.py"
                               scenes.tampered)))
      !! "/bot/plugins/greeter.py"%string
    = Some demo.greeter_plugin.
Proof.
  assert (plugins (mgr scenes.tampered) !! "/bot/plugins/greeter.py"%string
          = Some demo.greeter_plugin) as Hp by (vm_compute; reflexivity).
  assert (demo.s_low ∈ hooks demo.greeter_plugin !!! "sieve"%string) as Hin.
  { change (demo.s_low ∈ [demo.s_low]). by left. }
  assert (demo.s_low ∉ sieves (mgr scenes.tampered)) as Hnot.
  { change (demo.s_low ∉ []). apply not_elem_of_nil. }
  split; [exact Hp|]. split; [exact Hin|]. split; [exact Hnot|].
  exact (X11_unload_raises_on_a_missing_hook demo.hook_function
           demo.sieve_function demo.casefold demo.config
           "/bot/plugins/greeter.py"%string scenes.tampered
           demo.greeter_plugin demo.s_low Hp (or_introl (conj Hin Hnot))).
Defined.
Section whole_registry.
Context {World : Type}.
Variable hook_function : Hook → Event → World → outcome pyval * World.
Variable sieve_function :
  Hook → Event → Hook → World → outcome (option Event) * World.
Variable casefold : string → string.
Variable config : Config.

Implicit Types s : State World.

Local Abbreviation reachable :=
  (reachable hook_function sieve_function casefold config).

Lemma reachable_sorted s : reachable s → indices_sorted (mgr s).
Proof.
  induction 1 as [w n|path name ttl module s s' _ IH Hl
                 |path s b s' _ IH Hu|hook event s b s' _ IH Hl].
  - apply init_sorted.
  - by eapply (load_plugin_sorted hook_function sieve_function casefold config).
  - by eapply (unload_plugin_sorted hook_function sieve_function casefold
                 config).
  - destruct (launch_basic hook_function sieve_function hook event s)
      as (Hfr & _). rewrite Hl in Hfr. by eapply dispatch_frame_sorted.
Qed.


(** X1: The invariants of the registry, together.  In every state that loads,
    unloads and launches have reached from a new manager: each index
    holds the hooks of the loaded plugins and no others (as often as the
    loops of [load_plugin] append them, in some order); an alias of the
    command map belongs to a command hook of a loaded plugin that declares
    it; a plugin is stored under its own path, without [on_start] hooks,
    and holds one task per periodic hook; the sorted lists are sorted, the
    pruned dicts hold no empty list, and no [single_thread] key is held. *)
Theorem X1_registry_holds_the_loaded_hooks s :
  reachable s →
  consistent casefold (mgr s)
  ∧ indices_sorted (mgr s)
  ∧ maps_pruned (mgr s)
  ∧ plugins_keyed (mgr s)
  ∧ (∀ path p, plugins (mgr s) !! path = Some p →
               tasks p = periodic_task <$> hooks p !!! "periodic"%string)
  ∧ _hook_waiting_queues (mgr s) = ∅.
Proof.
  intros Hr.
  destruct (reachable_invariant _ _ _ _ _ Hr) as [Hc Hq].
  split; [exact Hc|].
  split; [by apply reachable_sorted|].
  split; [by eapply reachable_pruned|].
  split; [by eapply consistent_keyed|].
  split; [|exact Hq].
  by apply (reachable_tasks hook_function sieve_function casefold config).
Qed.
End whole_registry.


Lemma X1_registry_holds_the_loaded_hooks_witness :
  reachable demo.hook_function demo.sieve_function demo.casefold demo.config
    demo.saluting
  ∧ consistent demo.casefold (mgr demo.saluting)
  ∧ indices_sorted (mgr demo.saluting)
  ∧ maps_pruned (mgr demo.saluting)
  ∧ plugins_keyed (mgr demo.saluting)
  ∧ (∀ path p, plugins (mgr demo.saluting) !! path = Some p →
               tasks p = periodic_task <$> hooks p !!! "periodic"%string)
  ∧ _hook_waiting_queues (mgr demo.saluting) = ∅.
Proof.
  split; [apply demo_reach_saluting|].
  apply (X1_registry_holds_the_loaded_hooks demo.hook_function
           demo.sieve_function demo.casefold demo.config demo.saluting).
  apply demo_reach_saluting.
Defined.
Section admitted.
Context {World : Type}.
Variable hook_function : Hook → Event → World → outcome pyval * World.

Implicit Types s : State World.

End admitted.

Lemma fmap_sort_hooks_id {K} `{Countable K} (d : gmap K (list Hook)) :
  all_sorted d → sort_hooks <$> d = d.
Proof.
  intros Hs. apply map_eq. intros k. rewrite lookup_fmap.
  destruct (d !! k) as [l|] eqn:E; [|done]. simpl. f_equal.
  apply sort_by_id. by eapply Hs.
Qed.

Section hookless.
Context {World : Type}.
Variable hook_function : Hook → Event → World → outcome pyval * World.
Variable sieve_function :
  Hook → Event → Hook → World → outcome (option Event) * World.
Variable casefold : string → string.
Variable config : Config.

Implicit Types s : State World.

(** X17: A module in which no hook is found is loaded all the same: the
    tables are created, the plugin object is stored under the path and the
    title, and that is all: no hook function is called, nothing is logged,
    and every index is left exactly as it was (sorting the sorted lists
    changes nothing). *)
Theorem X17_hookless_module_is_registered path name ttl s :
  reachable hook_function sieve_function casefold config s →
  plugins (mgr s) !! path = None →
  (should_load config ttl).1 = true →
  let loaded :=
    {| file_path := path; file_name := name; title := ttl; hooks := ∅;
       tasks := [] |} in
  ∃ s',
    load_plugin hook_function sieve_function casefold config path name ttl
      (Some ∅) s = Ok () s'
    ∧ mgr s'
      = set_plugin_name_map (<[ttl := loaded]> (_plugin_name_map (mgr s)))
          (set_plugins (<[path := loaded]> (plugins (mgr s))) (mgr s))
    ∧ trace s' = trace s ++ [create_tables ttl]
    ∧ world s' = world s.
Proof.
  intros Hr Hnew Hgo. cbv zeta.
  pose proof (reachable_sorted _ _ _ _ _ Hr)
    as (Hs1&Hs2&Hs3&Hs4&Hs5&Hs6&Hs7&Hs8&Hs9).
  rewrite load_plugin_unfold, prepare_load_unfold.
  rewrite (should_load_true _ _ Hgo). cbn [fst snd negb].
  rewrite bool_decide_eq_false_2 by (rewrite Hnew; by intros [??]).
  rewrite start_plugin_unfold. cbn [hooks title].
  rewrite lookup_total_empty. cbn [on_start_loop]. unfold mret, M_ret.
  eexists. split; [reflexivity|].
  cbn [mgr emits emit upd_mgr trace world]. split_and!; [|by rewrite app_nil_r, <-app_assoc|done].
  rewrite registered_fields. cbn -[sort_hooks sort_by].
  rewrite !lookup_total_empty, delete_empty. cbn -[sort_hooks sort_by].
  rewrite !app_nil_r.
  destruct (mgr s) as [pl nm cm rw ca ev rx sv av ak cn ou hh ph qu].
  cbn -[sort_hooks sort_by] in *.
  unfold sort_hooks in *.
  rewrite !sort_by_id by done.
  by rewrite !fmap_sort_hooks_id by done.
Qed.
End hookless.

Lemma X17_hookless_module_is_registered_witness :
  reachable demo.hook_function demo.sieve_function demo.casefold demo.config
    demo.greeting
  ∧ plugins (mgr demo.greeting) !! "/bot/plugins/empty.py"%string = None
  ∧ (should_load demo.config "empty").1 = true
  ∧ ∃ s',
      demo.load_plugin "/bot/plugins/empty.py" "empty.py" "empty" (Some ∅)
        demo.greeting = Ok () s'
      ∧ mgr s'
        = set_plugin_name_map
            (<["empty"%string :=
                 {| file_path := "/bot/plugins/empty.py";
                    file_name := "empty.py"; title := "empty"; hooks := ∅;
                    tasks := [] |}]> (_plugin_name_map (mgr demo.greeting)))
            (set_plugins
               (<["/bot/plugins/empty.py"%string :=
                    {| file_path := "/bot/plugins/empty.py";
                       file_name := "empty.py"; title := "empty"; hooks := ∅;
                       tasks := [] |}]> (plugins (mgr demo.greeting)))
               (mgr demo.greeting))
      ∧ trace s' = trace demo.greeting ++ [create_tables "empty"]
      ∧ world s' = world demo.greeting.
Proof.
  assert (plugins (mgr demo.greeting) !! "/bot/plugins/empty.py"%string = None)
    as Hnew by (vm_compute; reflexivity).
  split; [apply demo_reach_greeting|]. split; [exact Hnew|].
  split; [reflexivity|].
  exact (X17_hookless_module_is_registered demo.hook_function demo.sieve_function
           demo.casefold demo.config "/bot/plugins/empty.py" "empty.py"
           "empty" demo.greeting demo_reach_greeting Hnew eq_refl)%string.
Defined.
